(** * turms: reference collection, return-type resolution, function synthesis

    A shallow embedding of [turms/referencer.py] (the reference registry,
    the selection walker [recurse_find_references], the variable-type walker
    [recurse_type_annotation] and [create_reference_registry_from_documents])
    and of [turms/plugins/funcs.py]: the collapse resolver ([is_collapsable],
    [get_return_type_annotation], [get_return_type_string]) and the function
    synthesizer ([camel_to_snake], [generate_parameters], the call
    generators, [generate_query_doc], [generate_operation_func],
    [FuncsPlugin.generate_ast]), together with the properties the
    specification states about them and further properties of the code. *)

From Stdlib Require Import Ascii String.
From stdpp Require Import gmap strings list.

Local Open Scope string_scope.
Set Warnings "-register-all,-clear-no-such-hyp".

(** ** Types of the schema, type nodes, exceptions *)

(** GraphQL type-reference nodes of a document ([graphql.language.ast]). *)
Inductive TypeNode : Type :=
| NamedTypeNode (name : string)
| ListTypeNode (type : TypeNode)
| NonNullTypeNode (type : TypeNode).

(** Schema types ([graphql.type.definition]).  A field is kept as the type it
    declares ([field.type]); the object graph of a schema is unfolded as deep
    as a selection can reach into it. *)
Inductive GraphQLType : Type :=
| GraphQLScalarType (name : string)
| GraphQLEnumType (name : string)
| GraphQLInputObjectType (name : string) (fields : gmap string GraphQLType)
| GraphQLObjectType (name : string) (fields : gmap string GraphQLType)
| GraphQLInterfaceType (name : string) (fields : gmap string GraphQLType)
| GraphQLUnionType (name : string)
| GraphQLNonNull (of_type : GraphQLType)
| GraphQLList (of_type : GraphQLType).

(** The exceptions the modelled code can raise.  [UnknownType] and
    [UnknownSubtype] are the two [Exception("Unknown ...", type(x), x)] of the
    referencer; the others are the interpreter's own. *)
Inductive Exception : Type :=
| UnknownType (graphql_type : GraphQLType)
| UnknownSubtype (node : TypeNode)
| AttributeError (attr : string)
| KeyError (key : string)
| IndexError
| AssertionError (msg : string)
| GraphQLError (msg : string)
| NoFragmentFound (name : string).

Inductive result (A : Type) : Type :=
| Ok (a : A)
| Raise (e : Exception).
Arguments Ok {A} a.
Arguments Raise {A} e.

Definition bind {A B} (m : result A) (k : A -> result B) : result B :=
  match m with
  | Ok a => k a
  | Raise e => Raise e
  end.

Notation "x <- m ;; k" := (bind m (fun x => k))
  (at level 100, m at next level, right associativity).

(** A computation that is handed the class registry of the code generator:
    it may raise, and it may register imports.  When it returns it yields
    its value and the names passed to [registry.register_import] on the way,
    by the code itself and by the functions it calls with the registry, in
    the order of the calls; when it raises, the exception. *)
Definition Gen (A : Type) : Type := result (A * list string).

Definition gen_bind {A B} (m : Gen A) (k : A -> Gen B) : Gen B :=
  match m with
  | Ok (a, imports) =>
      match k a with
      | Ok (b, imports') => Ok (b, (imports ++ imports')%list)
      | Raise e => Raise e
      end
  | Raise e => Raise e
  end.

(** A step that registers nothing. *)
Definition pure {A} (m : result A) : Gen A :=
  match m with
  | Ok a => Ok (a, [])
  | Raise e => Raise e
  end.

(** A step that registers nothing, before steps that may. *)
Definition step {A B} (m : result A) (k : A -> Gen B) : Gen B :=
  match m with
  | Ok a => k a
  | Raise e => Raise e
  end.

(** [registry.register_import(name)] *)
Definition register_import (name : string) : Gen unit := Ok (tt, [name]).

Notation "x <~ m ;; k" := (gen_bind m (fun x => k))
  (at level 100, m at next level, right associativity).
Notation "x <-- m ;; k" := (step m (fun x => k))
  (at level 100, m at next level, right associativity).

(** What a computation returns, the registered imports left aside. *)
Definition value {A} (m : Gen A) : result A :=
  match m with
  | Ok (a, _) => Ok a
  | Raise e => Raise e
  end.

(** The imports a computation that returns has registered. *)
Definition registered {A} (m : Gen A) : list string :=
  match m with
  | Ok (_, imports) => imports
  | Raise _ => []
  end.

(** ** The reference registry *)

Module Registry.

Record ReferenceRegistry : Type := mkRegistry {
objects : gset string;
fragments : gset string;
enums : gset string;
inputs : gset string;
scalars : gset string;
operations : gset string
}.

(** [ReferenceRegistry.__init__] *)
Definition empty : ReferenceRegistry :=
{| objects := ∅; fragments := ∅; enums := ∅;
   inputs := ∅; scalars := ∅; operations := ∅ |}.

Definition register_type (type_name : string) (self : ReferenceRegistry) :=
{| objects := {[type_name]} ∪ objects self; fragments := fragments self;
   enums := enums self; inputs := inputs self; scalars := scalars self;
   operations := operations self |}.

Definition register_fragment (type_name : string) (self : ReferenceRegistry) :=
{| objects := objects self; fragments := {[type_name]} ∪ fragments self;
   enums := enums self; inputs := inputs self; scalars := scalars self;
   operations := operations self |}.

Definition register_enum (type_name : string) (self : ReferenceRegistry) :=
{| objects := objects self; fragments := fragments self;
   enums := {[type_name]} ∪ enums self; inputs := inputs self;
   scalars := scalars self; operations := operations self |}.

Definition register_input (type_name : string) (self : ReferenceRegistry) :=
{| objects := objects self; fragments := fragments self;
   enums := enums self; inputs := {[type_name]} ∪ inputs self;
   scalars := scalars self; operations := operations self |}.

Definition register_scalar (type_name : string) (self : ReferenceRegistry) :=
{| objects := objects self; fragments := fragments self;
   enums := enums self; inputs := inputs self;
   scalars := {[type_name]} ∪ scalars self; operations := operations self |}.

(** The five categories and their registration methods, to state properties
  once for all of them. *)
Inductive Category : Type := Objects | Fragments | Enums | Inputs | Scalars.

Definition category_set (c : Category) (r : ReferenceRegistry) : gset string :=
match c with
| Objects => objects r
| Fragments => fragments r
| Enums => enums r
| Inputs => inputs r
| Scalars => scalars r
end.

Definition register (c : Category) : string -> ReferenceRegistry -> ReferenceRegistry :=
match c with
| Objects => register_type
| Fragments => register_fragment
| Enums => register_enum
| Inputs => register_input
| Scalars => register_scalar
end.

End Registry.
Import Registry.

(** ** Documents and schemas *)

(** Selections of a document ([graphql.language.ast]).  A field's
    [selection_set] is [None] for a leaf; an inline fragment written without
    [on T] has no [type_condition]. *)
Inductive FieldNode : Type :=
| Field (alias : option string) (name : string)
        (selection_set : option (list SelectionNode))
with SelectionNode : Type :=
| FieldSelection (field : FieldNode)
| FragmentSpreadNode (name : string)
| InlineFragmentNode (type_condition : option string)
                     (selection_set : list SelectionNode).

Definition field_alias (f : FieldNode) : option string :=
  let 'Field alias _ _ := f in alias.
Definition field_name (f : FieldNode) : string :=
  let 'Field _ name _ := f in name.
Definition field_selection_set (f : FieldNode) : option (list SelectionNode) :=
  let 'Field _ _ selection_set := f in selection_set.

Inductive OperationType : Type := QUERY | MUTATION | SUBSCRIPTION.

Record VariableDefinitionNode : Type := {
  variable : string;
  var_type : TypeNode
}.

Record OperationDefinitionNode : Type := {
  operation : OperationType;
  op_name : option string;
  variable_definitions : list VariableDefinitionNode;
  op_selection_set : option (list SelectionNode)
}.

Record FragmentDefinitionNode : Type := {
  frag_name : string;
  frag_type_condition : string;
  frag_selection_set : list SelectionNode
}.

(** The definitions of a document; the referencer looks at operations and
    fragments only. *)
Inductive DefinitionNode : Type :=
| OperationDefinition (o : OperationDefinitionNode)
| FragmentDefinition (f : FragmentDefinitionNode)
| OtherDefinition.

Record GraphQLSchema : Type := {
  type_map : gmap string GraphQLType;
  query_type : option GraphQLType;
  mutation_type : option GraphQLType;
  subscription_type : option GraphQLType
}.

(** [GraphQLSchema.get_type] *)
Definition get_type (schema : GraphQLSchema) (name : string) : option GraphQLType :=
  type_map schema !! name.

(** [GraphQLSchema.get_root_type] *)
Definition get_root_type (schema : GraphQLSchema) (operation : OperationType)
  : option GraphQLType :=
  match operation with
  | QUERY => query_type schema
  | MUTATION => mutation_type schema
  | SUBSCRIPTION => subscription_type schema
  end.

(** [t.fields] where [t] is what [get_type] or [get_root_type] returned:
    [None], scalars, enums, unions and wrappers have no [fields]. *)
Definition getattr_fields (t : option GraphQLType) : result (gmap string GraphQLType) :=
  match t with
  | Some (GraphQLObjectType _ fields)
  | Some (GraphQLInterfaceType _ fields)
  | Some (GraphQLInputObjectType _ fields) => Ok fields
  | _ => Raise (AttributeError "fields")
  end.

(** [fields[name].type]: a missing key raises [KeyError]. *)
Definition getitem (fields : gmap string GraphQLType) (name : string) : result GraphQLType :=
  match fields !! name with
  | Some t => Ok t
  | None => Raise (KeyError name)
  end.

(** ** Loops over a selection set *)

(** How the body of a [for] loop ends: it falls through to the next
    iteration ([continue] included), or it leaves the enclosing function with
    [return]. *)
Inductive Flow : Type :=
| Next (registry : ReferenceRegistry)
| Return (registry : ReferenceRegistry).

Section Loops.
Context {A : Type}.

(** [for x in l: body(x)], the registry threaded through; the first
    exception ends the loop. *)
Section ForEach.
Variable body : A -> ReferenceRegistry -> result ReferenceRegistry.

Fixpoint for_each (l : list A) (registry : ReferenceRegistry)
  : result ReferenceRegistry :=
  match l with
  | [] => Ok registry
  | x :: rest =>
      match body x registry with
      | Ok registry' => for_each rest registry'
      | Raise e => Raise e
      end
  end.
End ForEach.

(** The same loop when the body may [return]. *)
Section ForEachReturn.
Variable body : A -> ReferenceRegistry -> result Flow.

Fixpoint for_each_return (l : list A) (registry : ReferenceRegistry)
  : result Flow :=
  match l with
  | [] => Ok (Next registry)
  | x :: rest =>
      match body x registry with
      | Ok (Next registry') => for_each_return rest registry'
      | Ok (Return registry') => Ok (Return registry')
      | Raise e => Raise e
      end
  end.
End ForEachReturn.
End Loops.

(** The registry when the function is left, by [return] or off its end. *)
Definition leave (r : result Flow) : result ReferenceRegistry :=
  match r with
  | Ok (Next registry) | Ok (Return registry) => Ok registry
  | Raise e => Raise e
  end.

(** [node.selection_set.selections] *)
Definition selections (selection_set : option (list SelectionNode))
  : result (list SelectionNode) :=
  match selection_set with
  | Some l => Ok l
  | None => Raise (AttributeError "selections")
  end.

Definition is_typename (name : string) : bool := String.eqb name "__typename".

(** ** The selection walker *)

(** [sub_node.type_condition.name.value]: an inline fragment without a type
    condition has [type_condition = None]. *)
Definition type_condition_name (type_condition : option string) : result string :=
  match type_condition with
  | Some name => Ok name
  | None => Raise (AttributeError "name")
  end.

Section LoopBodies.
(** The recursive call, and the schema it is made with. *)
Variable recurse : FieldNode -> GraphQLType -> ReferenceRegistry -> result ReferenceRegistry.
Variable client_schema : GraphQLSchema.

(** Body of [for sub_sub_node in sub_node.selection_set.selections] in the
    interface and object branches.  The type condition is looked up before
    the [__typename] test, as in the source. *)
Definition inline_fragment_field (type_condition : option string)
    (sub_sub_node : SelectionNode) (registry : ReferenceRegistry)
  : result ReferenceRegistry :=
  match sub_sub_node with
  | FieldSelection f =>
      cond <- type_condition_name type_condition ;;
      let sub_sub_node_type := get_type client_schema cond in
      if is_typename (field_name f) then Ok registry
      else
        fields <- getattr_fields sub_sub_node_type ;;
        field_type <- getitem fields (field_name f) ;;
        recurse f field_type registry
  | _ => Ok registry
  end.

(** The same body in the union branch, where the recursive call is
    [return]ed. *)
Definition union_inline_fragment_field (type_condition : option string)
    (sub_sub_node : SelectionNode) (registry : ReferenceRegistry)
  : result Flow :=
  match sub_sub_node with
  | FieldSelection f =>
      cond <- type_condition_name type_condition ;;
      let sub_sub_node_type := get_type client_schema cond in
      if is_typename (field_name f) then Ok (Next registry)
      else
        fields <- getattr_fields sub_sub_node_type ;;
        field_type <- getitem fields (field_name f) ;;
        registry' <- recurse f field_type registry ;;
        Ok (Return registry')
  | _ => Ok (Next registry)
  end.

(** Body of [for sub_node in node.selection_set.selections] when
    [graphql_type] is a union. *)
Definition union_selection (sub_node : SelectionNode) (registry : ReferenceRegistry)
  : result Flow :=
  match sub_node with
  | FragmentSpreadNode name => Ok (Next (register_fragment name registry))
  | InlineFragmentNode type_condition sub_selections =>
      for_each_return (union_inline_fragment_field type_condition)
                      sub_selections registry
  | FieldSelection _ => Ok (Next registry)
  end.

(** Body of the same loop when [graphql_type] is an interface or an object
    with the fields [fields]. *)
Definition composite_selection (fields : gmap string GraphQLType)
    (sub_node : SelectionNode) (registry : ReferenceRegistry)
  : result ReferenceRegistry :=
  match sub_node with
  | FieldSelection f =>
      if is_typename (field_name f) then Ok registry
      else
        field_type <- getitem fields (field_name f) ;;
        recurse f field_type registry
  | FragmentSpreadNode name => Ok (register_fragment name registry)
  | InlineFragmentNode type_condition sub_selections =>
      for_each (inline_fragment_field type_condition) sub_selections registry
  end.
End LoopBodies.

(** [recurse_find_references(node, graphql_type, client_schema, registry)].
    The recursion descends into the selection tree of [node], and for a
    wrapper type into [of_type] with the same [node]; [is_optional] is passed
    along by the source and never read, so it is left out. *)
Fixpoint recurse_find_references (node : FieldNode)
  : GraphQLType -> GraphQLSchema -> ReferenceRegistry -> result ReferenceRegistry :=
  fix unwrap (graphql_type : GraphQLType) (client_schema : GraphQLSchema)
             (registry : ReferenceRegistry) {struct graphql_type}
    : result ReferenceRegistry :=
    let recurse sub_node field_type :=
      recurse_find_references sub_node field_type client_schema in
    match graphql_type with
    | GraphQLUnionType _ =>
        match node with
        | Field _ _ (Some sub_nodes) =>
            leave (for_each_return (union_selection recurse client_schema)
                                   sub_nodes registry)
        | Field _ _ None => Raise (AttributeError "selections")
        end
    | GraphQLInterfaceType _ fields =>
        match node with
        | Field _ _ (Some sub_nodes) =>
            for_each (composite_selection recurse client_schema fields)
                     sub_nodes registry
        | Field _ _ None => Raise (AttributeError "selections")
        end
    | GraphQLObjectType _ fields =>
        match node with
        | Field _ _ (Some sub_nodes) =>
            for_each (composite_selection recurse client_schema fields)
                     sub_nodes registry
        | Field _ _ None => Raise (AttributeError "selections")
        end
    | GraphQLScalarType name => Ok (register_scalar name registry)
    | GraphQLEnumType name => Ok (register_enum name registry)
    | GraphQLNonNull of_type => unwrap of_type client_schema registry
    | GraphQLList of_type => unwrap of_type client_schema registry
    | GraphQLInputObjectType _ _ => Raise (UnknownType graphql_type)
    end.

(** ** The variable-type walker *)

(** [recurse_type_annotation(graphql_type, schema, registry)] of the
    referencer.  [optional] is never read.  The closing
    [else: raise Exception("Unknown Type", ...)] of the source is for a value
    that is no type node at all, which [TypeNode] excludes. *)
Fixpoint recurse_type_annotation (graphql_type : TypeNode) (schema : GraphQLSchema)
    (registry : ReferenceRegistry) : result ReferenceRegistry :=
  match graphql_type with
  | NonNullTypeNode type => recurse_type_annotation type schema registry
  | ListTypeNode type => recurse_type_annotation type schema registry
  | NamedTypeNode name =>
      match get_type schema name with
      | Some (GraphQLScalarType z_name) => Ok (register_scalar z_name registry)
      | Some (GraphQLInputObjectType z_name _) => Ok (register_input z_name registry)
      | Some (GraphQLEnumType z_name) => Ok (register_enum z_name registry)
      | _ => Raise (UnknownSubtype graphql_type)
      end
  end.

(** ** Python dictionaries *)

(** A [dict] keeps its keys in the order of their first insertion;
    assigning to a key that is present replaces the value in place. *)
Module Dict.
Definition dict (V : Type) : Type := list (string * V).

Fixpoint setitem {V} (d : dict V) (key : string) (value : V) : dict V :=
  match d with
  | [] => [(key, value)]
  | (k, v) :: rest =>
      if String.eqb k key then (k, value) :: rest
      else (k, v) :: setitem rest key value
  end.

Definition values {V} (d : dict V) : list V := map snd d.

Fixpoint get {V} (d : dict V) (key : string) : option V :=
  match d with
  | [] => None
  | (k, v) :: rest => if String.eqb k key then Some v else get rest key
  end.
End Dict.
Import Dict.

(** ** Collecting the references of a document *)

(** [definition.name.value]; an anonymous operation has [name = None]. *)
Definition operation_name (o : OperationDefinitionNode) : result string :=
  match op_name o with
  | Some name => Ok name
  | None => Raise (AttributeError "value")
  end.

(** The first loop of [create_reference_registry_from_documents]: the
    definitions keyed by name. *)
Fixpoint collect_definitions (definitions : list DefinitionNode)
    (fragments : dict FragmentDefinitionNode)
    (operations : dict OperationDefinitionNode)
  : result (dict FragmentDefinitionNode * dict OperationDefinitionNode) :=
  match definitions with
  | [] => Ok (fragments, operations)
  | FragmentDefinition f :: rest =>
      collect_definitions rest (setitem fragments (frag_name f) f) operations
  | OperationDefinition o :: rest =>
      name <- operation_name o ;;
      collect_definitions rest fragments (setitem operations name o)
  | OtherDefinition :: rest => collect_definitions rest fragments operations
  end.

(** Body of [for selection in ....selection_set.selections] of a fragment or
    operation whose enclosing type is [type]. *)
Definition root_selection (schema : GraphQLSchema) (type : option GraphQLType)
    (selection : SelectionNode) (registry : ReferenceRegistry)
  : result ReferenceRegistry :=
  match selection with
  | FieldSelection f =>
      if is_typename (field_name f) then Ok registry
      else
        fields <- getattr_fields type ;;
        this_type <- getitem fields (field_name f) ;;
        recurse_find_references f this_type schema registry
  | _ => Ok registry
  end.

(** Body of [for fragment in fragments.values()]. *)
Definition walk_fragment (schema : GraphQLSchema) (fragment : FragmentDefinitionNode)
    (registry : ReferenceRegistry) : result ReferenceRegistry :=
  let type := get_type schema (frag_type_condition fragment) in
  for_each (root_selection schema type) (frag_selection_set fragment) registry.

(** Body of [for operation in operations.values()]. *)
Definition walk_operation (schema : GraphQLSchema) (o : OperationDefinitionNode)
    (registry : ReferenceRegistry) : result ReferenceRegistry :=
  let type := get_root_type schema (operation o) in
  registry <- for_each (fun argument => recurse_type_annotation (var_type argument) schema)
                       (variable_definitions o) registry ;;
  sels <- selections (op_selection_set o) ;;
  for_each (root_selection schema type) sels registry.

Definition create_reference_registry_from_documents (schema : GraphQLSchema)
    (document : list DefinitionNode) : result ReferenceRegistry :=
  bind (collect_definitions document [] []) (fun '(fragments, operations) =>
    registry <- for_each (walk_fragment schema) (values fragments) Registry.empty ;;
    for_each (walk_operation schema) (values operations) registry).

(** ** The collapse resolver *)

(** The fragment of Python's [ast] the resolver builds:
    [Optional[List[T]]] is [Subscript (Name "Optional") (Subscript (Name "List") (Name "T"))]. *)
Inductive ast : Type :=
| Name (id : string)
| Constant (value : string)
| Subscript (value : ast) (slice : ast).

(** [e.id]: only [ast.Name] has it. *)
Definition ast_id (e : ast) : result string :=
  match e with
  | Name id => Ok id
  | _ => Raise (AttributeError "id")
  end.

(** [turms.registry.ClassRegistry] is not among the sources: an object of the
    class is the record of the methods the resolver calls on it. *)
Record ClassRegistry : Type := {
  style_query_class : string -> string;
  style_mutation_class : string -> string;
  style_subscription_class : string -> string;
  (** [reference_fragment(typename, parent, allow_forward)] *)
  reference_fragment : string -> string -> bool -> result ast
}.

(** The functions the resolver imports: two of graphql-core
    ([get_operation_root_type], [get_field_def], the latter returning the
    type of the field definition or [None]), which see the schema only, and
    the two output-type walkers of [turms.utils], called as
    [f(type, registry, overwrite_final=...)]: they are handed the class
    registry and may register imports with it. *)
Class Collaborators : Type := {
  get_operation_root_type : GraphQLSchema -> OperationDefinitionNode -> result GraphQLType;
  get_field_def : GraphQLSchema -> GraphQLType -> SelectionNode -> result (option GraphQLType);
  recurse_outputtype_annotation : GraphQLType -> ClassRegistry -> option string -> Gen ast;
  recurse_outputtype_label : GraphQLType -> ClassRegistry -> option string -> Gen string
}.

(** [str.capitalize()] on the ASCII letters GraphQL names are made of: the
    first character in upper case, the others in lower case. *)
Definition upper (c : ascii) : ascii :=
  let n := nat_of_ascii c in
  if (97 <=? n)%nat && (n <=? 122)%nat then ascii_of_nat (n - 32) else c.

Definition lower (c : ascii) : ascii :=
  let n := nat_of_ascii c in
  if (65 <=? n)%nat && (n <=? 90)%nat then ascii_of_nat (n + 32) else c.

Fixpoint lowercase (s : string) : string :=
  match s with
  | EmptyString => EmptyString
  | String c rest => String (lower c) (lowercase rest)
  end.

Definition capitalize (s : string) : string :=
  match s with
  | EmptyString => EmptyString
  | String c rest => String (upper c) (lowercase rest)
  end.

(** Attribute access on a selection of any class. *)
Definition getattr_selection_set (node : SelectionNode)
  : result (option (list SelectionNode)) :=
  match node with
  | FieldSelection f => Ok (field_selection_set f)
  | InlineFragmentNode _ sels => Ok (Some sels)
  | FragmentSpreadNode _ => Raise (AttributeError "selection_set")
  end.

Definition getattr_alias (node : SelectionNode) : result (option string) :=
  match node with
  | FieldSelection f => Ok (field_alias f)
  | _ => Raise (AttributeError "alias")
  end.

Definition getattr_name (node : SelectionNode) : result string :=
  match node with
  | FieldSelection f => Ok (field_name f)
  | FragmentSpreadNode name => Ok name
  | InlineFragmentNode _ _ => Raise (AttributeError "name")
  end.

(** The [parent] both resolvers pass to [reference_fragment]: the empty
    string. *)
Definition no_parent : string := EmptyString.

(** [field_definition.type] *)
Definition getattr_type (field_definition : option GraphQLType) : result GraphQLType :=
  match field_definition with
  | Some t => Ok t
  | None => Raise (AttributeError "type")
  end.

(** [l[0]] *)
Definition first {A} (l : list A) : result A :=
  match l with
  | x :: _ => Ok x
  | [] => Raise IndexError
  end.

(** [is_collapsable(o)] *)
Definition is_collapsable (o : OperationDefinitionNode) : result bool :=
  match op_selection_set o with
  | None => Raise (AssertionError "Operation needs to have at least a selection")
  | Some sels => Ok (length sels =? 1)%nat
  end.

(** [get_operation_class_name(o, registry)]; the closing [raise] of the
    source needs a fourth operation type. *)
Definition get_operation_class_name (o : OperationDefinitionNode)
    (registry : ClassRegistry) : result string :=
  name <- operation_name o ;;
  match operation o with
  | QUERY => Ok (style_query_class registry name)
  | MUTATION => Ok (style_mutation_class registry name)
  | SUBSCRIPTION => Ok (style_subscription_class registry name)
  end.

Section Resolver.
Context `{Collaborators}.

(** The sole child of the collapsed field when it is a fragment spread:
    [len(selections) == 1 and isinstance(selections[0], FragmentSpreadNode)]. *)
Definition single_fragment_spread (sels : list SelectionNode) : option string :=
  match sels with
  | [FragmentSpreadNode name] => Some name
  | _ => None
  end.

Definition get_return_type_annotation (o : OperationDefinitionNode)
    (client_schema : GraphQLSchema) (registry : ClassRegistry) (collapse : bool)
  : Gen ast :=
  o_name <-- get_operation_class_name o registry ;;
  root <-- get_operation_root_type client_schema o ;;
  if collapse then
    sels <-- selections (op_selection_set o) ;;
    collapsable_field <-- first sels ;;
    field_definition <-- get_field_def client_schema root collapsable_field ;;
    selection_set <-- getattr_selection_set collapsable_field ;;
    match selection_set with
    | None =>
        type <-- getattr_type field_definition ;;
        recurse_outputtype_annotation type registry None
    | Some sub_selections =>
        match single_fragment_spread sub_selections with
        | Some fragment_name =>
            type <-- getattr_type field_definition ;;
            reference <-- reference_fragment registry fragment_name no_parent false ;;
            id <-- ast_id reference ;;
            recurse_outputtype_annotation type registry (Some id)
        | None =>
            alias <-- getattr_alias collapsable_field ;;
            field_name <-- match alias with
                          | None => getattr_name collapsable_field
                          | Some a => Ok a
                          end ;;
            type <-- getattr_type field_definition ;;
            recurse_outputtype_annotation type registry
              (Some (o_name ++ capitalize field_name))
        end
    end
  else pure (Ok (Name o_name)).

Definition get_return_type_string (o : OperationDefinitionNode)
    (client_schema : GraphQLSchema) (registry : ClassRegistry) (collapse : bool)
  : Gen string :=
  o_name <-- get_operation_class_name o registry ;;
  root <-- get_operation_root_type client_schema o ;;
  if collapse then
    sels <-- selections (op_selection_set o) ;;
    potential_return_field <-- first sels ;;
    potential_return_type <-- get_field_def client_schema root potential_return_field ;;
    selection_set <-- getattr_selection_set potential_return_field ;;
    match selection_set with
    | None =>
        type <-- getattr_type potential_return_type ;;
        recurse_outputtype_label type registry None
    | Some sub_selections =>
        match single_fragment_spread sub_selections with
        | Some fragment_name =>
            type <-- getattr_type potential_return_type ;;
            reference <-- reference_fragment registry fragment_name no_parent false ;;
            id <-- ast_id reference ;;
            recurse_outputtype_label type registry (Some id)
        | None =>
            type <-- getattr_type potential_return_type ;;
            name <-- getattr_name potential_return_field ;;
            recurse_outputtype_label type registry
              (Some (o_name ++ capitalize name))
        end
    end
  else pure (Ok o_name).
End Resolver.

(** ** The collaborators that are not among the sources *)

Module Model.

(** graphql-core's [get_operation_root_type]: the root type of the
    operation's kind, or a [GraphQLError] when the schema has none. *)
Definition operation_root_type (schema : GraphQLSchema) (o : OperationDefinitionNode)
  : result GraphQLType :=
  match get_root_type schema (operation o) with
  | Some t => Ok t
  | None => Raise (GraphQLError "Schema does not define the required root type.")
  end.

(** graphql-core's [get_field_def] on an object or interface parent:
    [parent_type.fields.get(name)], and the meta field [__typename]; the
    introspection entry points [__schema] and [__type] are left out. *)
Definition field_def (schema : GraphQLSchema) (parent_type : GraphQLType)
    (field_node : SelectionNode) : result (option GraphQLType) :=
  name <- getattr_name field_node ;;
  match parent_type with
  | GraphQLObjectType _ fields | GraphQLInterfaceType _ fields =>
      if is_typename name then Ok (Some (GraphQLNonNull (GraphQLScalarType "String")))
      else Ok (fields !! name)
  | GraphQLUnionType _ =>
      if is_typename name then Ok (Some (GraphQLNonNull (GraphQLScalarType "String")))
      else Ok None
  | _ => Ok None
  end.

Definition optional_of (optional : bool) (e : ast) : ast :=
  if optional then Subscript (Name "Optional") e else e.

Definition optional_label (optional : bool) (s : string) : string :=
  if optional then "Optional[" ++ s ++ "]" else s.

(** The name at the bottom of the wrappers: [overwrite_final] when it is
    given, else the type's own name for the kinds that need no generated
    class. *)
Definition final_name (type : GraphQLType) (overwrite_final : option string)
  : result string :=
  match overwrite_final, type with
  | Some name, _ => Ok name
  | None, (GraphQLScalarType name | GraphQLEnumType name | GraphQLInputObjectType name _) =>
      Ok name
  | None, _ => Raise (UnknownType type)
  end.

(** Modelled from the spec: [turms.utils.recurse_outputtype_annotation] is
    missing from the sources.  Section 3 (Output Type Expression): the
    expression is built bottom-up over the NonNull and List wrappers, is
    nullable by default, non-nullable exactly under a NonNull wrapper, and
    nullable again for the elements of a list. *)
Fixpoint output_annotation (type : GraphQLType) (optional : bool)
    (overwrite_final : option string) : result ast :=
  match type with
  | GraphQLNonNull of_type => output_annotation of_type false overwrite_final
  | GraphQLList of_type =>
      e <- output_annotation of_type true overwrite_final ;;
      Ok (optional_of optional (Subscript (Name "List") e))
  | _ =>
      name <- final_name type overwrite_final ;;
      Ok (optional_of optional (Name name))
  end.

(** Modelled from the spec: [turms.utils.recurse_outputtype_label] is
    missing from the sources.  Section 4.4: the display string is the other
    projection of the same decision. *)
Fixpoint output_label (type : GraphQLType) (optional : bool)
    (overwrite_final : option string) : result string :=
  match type with
  | GraphQLNonNull of_type => output_label of_type false overwrite_final
  | GraphQLList of_type =>
      s <- output_label of_type true overwrite_final ;;
      Ok (optional_label optional ("List[" ++ s ++ "]"))
  | _ =>
      name <- final_name type overwrite_final ;;
      Ok (optional_label optional name)
  end.

(** Modelled from the spec: the imports the annotation walker registers
    with the class registry.  The expression of section 3 names
    [typing.Optional] and [typing.List]; the walker registers each for import
    where it builds it, from the outermost wrapper inwards.  The label
    walker builds a string and registers nothing. *)
Fixpoint output_imports (type : GraphQLType) (optional : bool) : list string :=
  match type with
  | GraphQLNonNull of_type => output_imports of_type false
  | GraphQLList of_type =>
      (if optional then ["typing.Optional"] else [])
      ++ "typing.List" :: output_imports of_type true
  | _ => if optional then ["typing.Optional"] else []
  end%list.

(** Modelled from the spec: [turms.registry.ClassRegistry] is missing from
    the sources.  Section 4.4 speaks of "that fragment's already-registered
    generated type": the registry maps the name of every fragment whose
    class has been generated to that class.  A registered fragment is
    referred to by [ast.Name]; one that is not registered can only be
    referred to forward, by a string constant resolved at a later pass
    (section 9), and only when [allow_forward] lets it.  The names are
    styled by the identity. *)
Definition class_registry (fragment_class_map : gmap string string) : ClassRegistry :=
  {| style_query_class := fun name => name;
     style_mutation_class := fun name => name;
     style_subscription_class := fun name => name;
     reference_fragment := fun typename parent allow_forward =>
       match fragment_class_map !! typename with
       | Some class => Ok (Name class)
       | None =>
           if allow_forward then Ok (Constant typename)
           else Raise (NoFragmentFound typename)
       end |}.


#[global] Instance collaborators : Collaborators :=
  {| get_operation_root_type := operation_root_type;
     get_field_def := field_def;
     recurse_outputtype_annotation := fun type _ overwrite_final =>
       e <-- output_annotation type true overwrite_final ;;
       Ok (e, output_imports type true);
     recurse_outputtype_label := fun type _ overwrite_final =>
       pure (output_label type true overwrite_final) |}.

End Model.

(** ** A pet shop: the schema and documents of the examples *)

Module PetShop.

Definition String_ : GraphQLType := GraphQLScalarType "String".
Definition Int_ : GraphQLType := GraphQLScalarType "Int".
Definition Species : GraphQLType := GraphQLEnumType "Species".

Definition Cat : GraphQLType :=
  GraphQLObjectType "Cat" {[ "name" := String_; "lives" := Int_ ]}.
Definition Dog : GraphQLType :=
  GraphQLObjectType "Dog" {[ "name" := String_; "species" := Species ]}.
Definition Animal : GraphQLType := GraphQLUnionType "Animal".
Definition Pet : GraphQLType :=
  GraphQLObjectType "Pet"
    {[ "name" := GraphQLNonNull String_; "species" := Species;
       "animal" := Animal ]}.
Definition PetFilter : GraphQLType :=
  GraphQLInputObjectType "PetFilter" {[ "species" := Species ]}.

Definition Query : GraphQLType :=
  GraphQLObjectType "Query"
    {[ "pet" := Pet; "animal" := Animal;
       "pets" := GraphQLNonNull (GraphQLList (GraphQLNonNull Pet)) ]}.

Definition schema : GraphQLSchema :=
  {| type_map := {[ "String" := String_; "Int" := Int_; "Species" := Species;
                    "Cat" := Cat; "Dog" := Dog; "Animal" := Animal;
                    "Pet" := Pet; "PetFilter" := PetFilter; "Query" := Query ]};
     query_type := Some Query;
     mutation_type := None;
     subscription_type := None |}.

Definition leaf (name : string) : SelectionNode :=
  FieldSelection (Field None name None).

Definition query (name : string) (sels : list SelectionNode) : OperationDefinitionNode :=
  {| operation := QUERY; op_name := Some name;
     variable_definitions := []; op_selection_set := Some sels |}.

(** [query GetPet { pet { species } }] *)
Definition GetPet : OperationDefinitionNode :=
  query "GetPet" [FieldSelection (Field None "pet" (Some [leaf "species"]))].

(** [query GetPet { myPet: pet { species } }] *)
Definition GetPet_aliased : OperationDefinitionNode :=
  query "GetPet" [FieldSelection (Field (Some "myPet") "pet" (Some [leaf "species"]))].

(** [query GetPet { pet { ...PetFragment } }] *)
Definition GetPet_fragment : OperationDefinitionNode :=
  query "GetPet"
    [FieldSelection (Field None "pet" (Some [FragmentSpreadNode "PetFragment"]))].

(** [fragment PetFragment on Pet { name }] *)
Definition PetFragment : FragmentDefinitionNode :=
  {| frag_name := "PetFragment"; frag_type_condition := "Pet";
     frag_selection_set := [leaf "name"] |}.

(** [animal { ... on Cat { lives } ... on Dog { species } ...AnimalFragment }] *)
Definition animal_selection : FieldNode :=
  Field None "animal"
    (Some [ InlineFragmentNode (Some "Cat") [leaf "lives"];
            InlineFragmentNode (Some "Dog") [leaf "species"];
            FragmentSpreadNode "AnimalFragment" ]).

(** [query GetAnimal { animal { ... } }] with the selection above. *)
Definition GetAnimal : OperationDefinitionNode :=
  query "GetAnimal" [FieldSelection animal_selection].

End PetShop.

(** ** Notions used in the statements *)

(** The number of top-level selections of an operation; an absent selection
    set has none. *)
Definition selection_count (o : OperationDefinitionNode) : nat :=
  match op_selection_set o with
  | None => 0
  | Some sels => length sels
  end.

(** The named type node under the NonNull and List wrappers. *)
Fixpoint named_type_node (t : TypeNode) : string :=
  match t with
  | NamedTypeNode name => name
  | ListTypeNode type | NonNullTypeNode type => named_type_node type
  end.

(** What the Named case does with the type [z] the schema resolves the name
    to. *)
Definition register_named (z : option GraphQLType) (node : TypeNode)
    (registry : ReferenceRegistry) : result ReferenceRegistry :=
  match z with
  | Some (GraphQLScalarType name) => Ok (register Scalars name registry)
  | Some (GraphQLInputObjectType name _) => Ok (register Inputs name registry)
  | Some (GraphQLEnumType name) => Ok (register Enums name registry)
  | _ => Raise (UnknownSubtype node)
  end.

(** The display form of a type expression: what [ast.unparse] prints. *)
Fixpoint display (e : ast) : string :=
  match e with
  | Name id => id
  | Constant value => "'" ++ value ++ "'"
  | Subscript value slice => display value ++ "[" ++ display slice ++ "]"
  end.

(** The name the collapsed field goes by: its alias when it has one. *)
Definition alias_or_name (alias : option string) (name : string) : string :=
  match alias with
  | Some a => a
  | None => name
  end.

(** The alias of the field an operation would collapse to. *)
Definition first_alias (o : OperationDefinitionNode) : option string :=
  match op_selection_set o with
  | Some (FieldSelection f :: _) => field_alias f
  | _ => None
  end.

(** A definition that is an operation, or a fragment, of the given name. *)
Definition operation_named (name : string) (d : DefinitionNode) : Prop :=
  match d with
  | OperationDefinition o => op_name o = Some name
  | _ => False
  end.

Definition fragment_named (name : string) (d : DefinitionNode) : Prop :=
  match d with
  | FragmentDefinition f => frag_name f = name
  | _ => False
  end.

(** A selection that is a field named [__typename]. *)
Definition is_typename_selection (s : SelectionNode) : bool :=
  match s with
  | FieldSelection f => is_typename (field_name f)
  | _ => false
  end.

(** A selection set with its [__typename] fields taken out, at every depth. *)
Section WithoutTypename.
Variable strip : SelectionNode -> SelectionNode.

Fixpoint strip_selections (l : list SelectionNode) : list SelectionNode :=
  match l with
  | [] => []
  | s :: l' =>
      if is_typename_selection s then strip_selections l'
      else strip s :: strip_selections l'
  end.
End WithoutTypename.

Fixpoint without_typename (f : FieldNode) : FieldNode :=
  match f with
  | Field alias name None => Field alias name None
  | Field alias name (Some sels) =>
      Field alias name (Some (strip_selections without_typename_selection sels))
  end
with without_typename_selection (s : SelectionNode) : SelectionNode :=
  match s with
  | FieldSelection f => FieldSelection (without_typename f)
  | FragmentSpreadNode name => FragmentSpreadNode name
  | InlineFragmentNode type_condition sels =>
      InlineFragmentNode type_condition
        (strip_selections without_typename_selection sels)
  end.

Definition without_typename_selections : list SelectionNode -> list SelectionNode :=
  strip_selections without_typename_selection.

Definition without_typename_operation (o : OperationDefinitionNode)
  : OperationDefinitionNode :=
  {| operation := operation o; op_name := op_name o;
     variable_definitions := variable_definitions o;
     op_selection_set :=
       match op_selection_set o with
       | Some sels => Some (without_typename_selections sels)
       | None => None
       end |}.

Definition without_typename_fragment (f : FragmentDefinitionNode)
  : FragmentDefinitionNode :=
  {| frag_name := frag_name f; frag_type_condition := frag_type_condition f;
     frag_selection_set := without_typename_selections (frag_selection_set f) |}.

Definition without_typename_document (document : list DefinitionNode)
  : list DefinitionNode :=
  map (fun d => match d with
                | OperationDefinition o => OperationDefinition (without_typename_operation o)
                | FragmentDefinition f => FragmentDefinition (without_typename_fragment f)
                | OtherDefinition => OtherDefinition
                end) document.

(** No inline fragment without a type condition has a [__typename] field
    among its selections, at any depth under the field. *)
Fixpoint typename_conditioned (f : FieldNode) : bool :=
  match f with
  | Field _ _ None => true
  | Field _ _ (Some sels) => forallb typename_conditioned_selection sels
  end
with typename_conditioned_selection (s : SelectionNode) : bool :=
  match s with
  | FieldSelection f => typename_conditioned f
  | FragmentSpreadNode _ => true
  | InlineFragmentNode type_condition sels =>
      match type_condition with
      | Some _ => true
      | None => negb (existsb is_typename_selection sels)
      end
      && forallb typename_conditioned_selection sels
  end.

(** The same of the fields at the top of a definition, the only selections
    walked there, and of every definition of a document. *)
Definition typename_conditioned_root (s : SelectionNode) : bool :=
  match s with
  | FieldSelection f => typename_conditioned f
  | _ => true
  end.

Definition typename_conditioned_definition (d : DefinitionNode) : bool :=
  match d with
  | OperationDefinition o =>
      match op_selection_set o with
      | Some sels => forallb typename_conditioned_root sels
      | None => true
      end
  | FragmentDefinition f => forallb typename_conditioned_root (frag_selection_set f)
  | OtherDefinition => true
  end.

Definition typename_conditioned_document (document : list DefinitionNode) : bool :=
  forallb typename_conditioned_definition document.

(** A dictionary with a function applied to its values. *)
Definition map_values {V W} (g : V -> W) (d : dict V) : dict W :=
  map (fun kv => (fst kv, g (snd kv))) d.

(** Two runs agree when they end alike, or when the first one stops at an
    inline fragment that has no type condition. *)
Definition agrees {A} (a b : result A) : Prop :=
  a = b \/ a = Raise (AttributeError "name").

(** The recursive call as the loop bodies receive it. *)
Definition recurse_with (client_schema : GraphQLSchema)
  : FieldNode -> GraphQLType -> ReferenceRegistry -> result ReferenceRegistry :=
  fun sub_node field_type =>
    recurse_find_references sub_node field_type client_schema.

(** The registry a loop body leaves behind. *)
Definition flow_registry (f : Flow) : ReferenceRegistry :=
  match f with
  | Next registry | Return registry => registry
  end.

(** A loop body respects a relation [R] between the registry before and
    after. *)
Definition respects {A} (R : ReferenceRegistry -> ReferenceRegistry -> Prop)
    (body : A -> ReferenceRegistry -> result ReferenceRegistry)
    (x : A) : Prop :=
  forall r r', body x r = Ok r' -> R r r'.

Definition respects_flow {A} (R : ReferenceRegistry -> ReferenceRegistry -> Prop)
    (body : A -> ReferenceRegistry -> result Flow)
    (x : A) : Prop :=
  forall r f, body x r = Ok f -> R r (flow_registry f).

(** What the induction carries for a selection: each loop body respects [R]
    on it. *)
Definition bodies_respect (R : ReferenceRegistry -> ReferenceRegistry -> Prop)
    (s : SelectionNode) : Prop :=
  forall client_schema,
    (forall fields,
       respects R (composite_selection (recurse_with client_schema) client_schema fields) s)
    /\ respects_flow R (union_selection (recurse_with client_schema) client_schema) s
    /\ (forall type_condition,
          respects R (inline_fragment_field (recurse_with client_schema) client_schema
                      type_condition) s)
    /\ (forall type_condition,
          respects_flow R (union_inline_fragment_field (recurse_with client_schema)
                           client_schema type_condition) s).

(** Two dictionaries that differ at most in the value stored under [k]. *)
Inductive same_but {V : Type} (k : string) : dict V -> dict V -> Prop :=
| same_but_nil : same_but k [] []
| same_but_here v v' d : same_but k ((k, v) :: d) ((k, v') :: d)
| same_but_later k0 v d d' :
    k0 <> k -> same_but k d d' -> same_but k ((k0, v) :: d) ((k0, v) :: d').

(** A loop body skips [__typename]: on such a field it does nothing, and on
    any other selection it does what it does on the stripped selection. *)
Definition skips {A} (body : SelectionNode -> ReferenceRegistry -> result A)
    (next : ReferenceRegistry -> A) (s : SelectionNode) : Prop :=
  if is_typename_selection s then forall r, agrees (body s r) (Ok (next r))
  else forall r, agrees (body s r) (body (without_typename_selection s) r).

(** What the induction carries for a selection: each loop body skips
    [__typename] on it. *)
Definition bodies_skip (s : SelectionNode) : Prop :=
  forall client_schema,
    (forall fields,
       skips (composite_selection (recurse_with client_schema) client_schema fields)
             (fun r => r) s)
    /\ skips (union_selection (recurse_with client_schema) client_schema) Next s
    /\ (forall type_condition,
          skips (inline_fragment_field (recurse_with client_schema) client_schema
                   type_condition) (fun r => r) s)
    /\ (forall type_condition,
          skips (union_inline_fragment_field (recurse_with client_schema)
                   client_schema type_condition) Next s).

(** A loop body skips [__typename] without a trace: on such a field it
    does nothing, and on any other selection it does what it does on the
    stripped selection. *)
Definition skips_exactly {A} (body : SelectionNode -> ReferenceRegistry -> result A)
    (next : ReferenceRegistry -> A) (s : SelectionNode) : Prop :=
  if is_typename_selection s then forall r, body s r = Ok (next r)
  else forall r, body s r = body (without_typename_selection s) r.

(** What the induction carries for a selection: the loop bodies skip
    [__typename] on it, those of an inline fragment when the fragment has a
    type condition or the selection is no [__typename] field. *)
Definition bodies_skip_exactly (s : SelectionNode) : Prop :=
  forall client_schema,
    (forall fields,
       skips_exactly (composite_selection (recurse_with client_schema) client_schema fields)
                     (fun r => r) s)
    /\ skips_exactly (union_selection (recurse_with client_schema) client_schema) Next s
    /\ (forall type_condition,
          is_Some type_condition \/ is_typename_selection s = false ->
          skips_exactly (inline_fragment_field (recurse_with client_schema) client_schema
                           type_condition) (fun r => r) s)
    /\ (forall type_condition,
          is_Some type_condition \/ is_typename_selection s = false ->
          skips_exactly (union_inline_fragment_field (recurse_with client_schema)
                           client_schema type_condition) Next s).

(** Induction over a field and the selections under it. *)
Section FieldNodeInduction.
Variable P : FieldNode -> Prop.
Variable Q : SelectionNode -> Prop.
Hypothesis leaf_case : forall alias name, P (Field alias name None).
Hypothesis field_case : forall alias name sels,
  Forall Q sels -> P (Field alias name (Some sels)).
Hypothesis selection_case : forall f, P f -> Q (FieldSelection f).
Hypothesis spread_case : forall name, Q (FragmentSpreadNode name).
Hypothesis inline_case : forall type_condition sels,
  Forall Q sels -> Q (InlineFragmentNode type_condition sels).

Fixpoint field_node_induction (f : FieldNode) : P f :=
  match f with
  | Field alias name None => leaf_case alias name
  | Field alias name (Some sels) =>
      field_case alias name sels
        ((fix all (l : list SelectionNode) : Forall Q l :=
            match l with
            | [] => List.Forall_nil Q
            | s :: l' => List.Forall_cons Q s l' (selection_node_induction s) (all l')
            end) sels)
  end
with selection_node_induction (s : SelectionNode) : Q s :=
  match s with
  | FieldSelection f => selection_case f (field_node_induction f)
  | FragmentSpreadNode name => spread_case name
  | InlineFragmentNode type_condition sels =>
      inline_case type_condition sels
        ((fix all (l : list SelectionNode) : Forall Q l :=
            match l with
            | [] => List.Forall_nil Q
            | s :: l' => List.Forall_cons Q s l' (selection_node_induction s) (all l')
            end) sels)
  end.
End FieldNodeInduction.

(** ** Notions used for the walkers at large *)

(** The union of two registries, set by set. *)
Definition merge (r d : ReferenceRegistry) : ReferenceRegistry :=
  {| objects := objects r ∪ objects d; fragments := fragments r ∪ fragments d;
     enums := enums r ∪ enums d; inputs := inputs r ∪ inputs d;
     scalars := scalars r ∪ scalars d; operations := operations r ∪ operations d |}.

(** Every set of [r] is included in the set of [r'] of the same name. *)
Definition included (r r' : ReferenceRegistry) : Prop :=
  objects r ⊆ objects r' /\ fragments r ⊆ fragments r' /\ enums r ⊆ enums r'
  /\ inputs r ⊆ inputs r' /\ scalars r ⊆ scalars r' /\ operations r ⊆ operations r'.

(** A registry with its [objects] and [inputs] sets replaced. *)
Definition with_objects_inputs (objs ins : gset string) (r : ReferenceRegistry)
  : ReferenceRegistry :=
  {| objects := objs; fragments := fragments r; enums := enums r;
     inputs := ins; scalars := scalars r; operations := operations r |}.

(** A registry with its [objects] and [fragments] sets replaced. *)
Definition with_objects_fragments (objs frs : gset string) (r : ReferenceRegistry)
  : ReferenceRegistry :=
  {| objects := objs; fragments := frs; enums := enums r;
     inputs := inputs r; scalars := scalars r; operations := operations r |}.

(** A registry with its [objects] set replaced. *)
Definition with_objects (objs : gset string) (r : ReferenceRegistry) : ReferenceRegistry :=
  {| objects := objs; fragments := fragments r; enums := enums r;
     inputs := inputs r; scalars := scalars r; operations := operations r |}.

(** A change of registry applied to the outcome of a walk. *)
Definition map_flow (T : ReferenceRegistry -> ReferenceRegistry) (f : Flow) : Flow :=
  match f with
  | Next r => Next (T r)
  | Return r => Return (T r)
  end.

Definition map_result {A B} (g : A -> B) (m : result A) : result B :=
  match m with
  | Ok a => Ok (g a)
  | Raise e => Raise e
  end.

(** A loop body commutes with a change [T] of the registry: run on the
    changed registry it does what it does on the registry, changed. *)
Definition commutes {A} (T : ReferenceRegistry -> ReferenceRegistry)
    (body : A -> ReferenceRegistry -> result ReferenceRegistry) (x : A) : Prop :=
  forall r, body x (T r) = map_result T (body x r).

Definition commutes_flow {A} (T : ReferenceRegistry -> ReferenceRegistry)
    (body : A -> ReferenceRegistry -> result Flow) (x : A) : Prop :=
  forall r, body x (T r) = map_result (map_flow T) (body x r).

Definition bodies_commute (T : ReferenceRegistry -> ReferenceRegistry)
    (s : SelectionNode) : Prop :=
  forall client_schema,
    (forall fields,
       commutes T (composite_selection (recurse_with client_schema) client_schema fields) s)
    /\ commutes_flow T (union_selection (recurse_with client_schema) client_schema) s
    /\ (forall type_condition,
          commutes T (inline_fragment_field (recurse_with client_schema) client_schema
                        type_condition) s)
    /\ (forall type_condition,
          commutes_flow T (union_inline_fragment_field (recurse_with client_schema)
                             client_schema type_condition) s).

(** The named type under the NonNull and List wrappers of a schema type. *)
Fixpoint named_type (t : GraphQLType) : GraphQLType :=
  match t with
  | GraphQLNonNull of_type | GraphQLList of_type => named_type of_type
  | _ => t
  end.

(** The selections that are fields. *)
Definition is_field (s : SelectionNode) : bool :=
  match s with
  | FieldSelection _ => true
  | _ => false
  end.

Definition fields_only (sels : list SelectionNode) : list SelectionNode :=
  List.filter is_field sels.

(** A fragment, an operation and a document with the selections at the top
    of each definition restricted to the fields. *)
Definition top_fields_fragment (f : FragmentDefinitionNode) : FragmentDefinitionNode :=
  {| frag_name := frag_name f; frag_type_condition := frag_type_condition f;
     frag_selection_set := fields_only (frag_selection_set f) |}.

Definition top_fields_operation (o : OperationDefinitionNode) : OperationDefinitionNode :=
  {| operation := operation o; op_name := op_name o;
     variable_definitions := variable_definitions o;
     op_selection_set :=
       match op_selection_set o with
       | Some sels => Some (fields_only sels)
       | None => None
       end |}.

Definition top_fields_document (document : list DefinitionNode) : list DefinitionNode :=
  map (fun d => match d with
                | OperationDefinition o => OperationDefinition (top_fields_operation o)
                | FragmentDefinition f => FragmentDefinition (top_fields_fragment f)
                | OtherDefinition => OtherDefinition
                end) document.

(** An operation without a name. *)
Definition anonymous (d : DefinitionNode) : Prop :=
  match d with
  | OperationDefinition o => op_name o = None
  | _ => False
  end.

(** The fragments and the operations of a document, in its order. *)
Fixpoint fragment_definitions (document : list DefinitionNode)
  : list FragmentDefinitionNode :=
  match document with
  | [] => []
  | FragmentDefinition f :: rest => f :: fragment_definitions rest
  | _ :: rest => fragment_definitions rest
  end.

Fixpoint operation_definitions (document : list DefinitionNode)
  : list OperationDefinitionNode :=
  match document with
  | [] => []
  | OperationDefinition o :: rest => o :: operation_definitions rest
  | _ :: rest => operation_definitions rest
  end.

(** No two fragments of the document have the same name, and no two
    operations. *)
Definition distinct_names (document : list DefinitionNode) : Prop :=
  NoDup (map frag_name (fragment_definitions document))
  /\ NoDup (map op_name (operation_definitions document)).

(** The entry a definition is stored as. *)
Definition fragment_entry (f : FragmentDefinitionNode) : string * FragmentDefinitionNode :=
  (frag_name f, f).

Definition operation_entry (o : OperationDefinitionNode) : string * OperationDefinitionNode :=
  (match op_name o with Some name => name | None => EmptyString end, o).

(** A definition that no later definition of the document replaces: the
    last of its name among the operations, or among the fragments. *)
Definition last_of_its_name (document : list DefinitionNode) (d : DefinitionNode) : Prop :=
  exists before after,
    document = (before ++ d :: after)%list
    /\ match d with
       | OperationDefinition o =>
           exists name, op_name o = Some name
                        /\ Forall (fun d' => ~ operation_named name d') after
       | FragmentDefinition f =>
           Forall (fun d' => ~ fragment_named (frag_name f) d') after
       | OtherDefinition => False
       end.

(** A reference that a selection at the top of a definition leads to: the
    selection is a field other than [__typename], the enclosing type has the
    field, and the selection walker, started on the empty registry with the
    field and its type, puts [name] into the set of category [c]. *)
Definition field_reaches (schema : GraphQLSchema) (type : option GraphQLType)
    (s : SelectionNode) (c : Category) (name : string) : Prop :=
  exists f fields this_type r,
    s = FieldSelection f
    /\ is_typename (field_name f) = false
    /\ getattr_fields type = Ok fields
    /\ getitem fields (field_name f) = Ok this_type
    /\ recurse_find_references f this_type schema Registry.empty = Ok r
    /\ name ∈ category_set c r.

(** A reference that a definition leads to: through a field at the top of
    a fragment, against the type of its type condition; through the type of
    a variable of an operation, or a field at its top, against the root type
    of its kind. *)
Definition reaches (schema : GraphQLSchema) (d : DefinitionNode)
    (c : Category) (name : string) : Prop :=
  match d with
  | FragmentDefinition fragment =>
      exists s,
        In s (frag_selection_set fragment)
        /\ field_reaches schema (get_type schema (frag_type_condition fragment)) s c name
  | OperationDefinition o =>
      (exists v r,
         In v (variable_definitions o)
         /\ recurse_type_annotation (var_type v) schema Registry.empty = Ok r
         /\ name ∈ category_set c r)
      \/ (exists sels s,
            op_selection_set o = Some sels /\ In s sels
            /\ field_reaches schema (get_root_type schema (operation o)) s c name)
  | OtherDefinition => False
  end.

(** ** The function synthesizer *)

Module Funcs.

(** The line feed, ["\n"]. *)
Definition nl : string := String (ascii_of_nat 10) EmptyString.

(** Python values that are written into the generated code as constants. *)
Inductive PyValue : Type :=
| PyNone
| PyBool (b : bool)
| PyInt (n : Z)
| PyFloat (repr : string)
| PyStr (s : string)
| PyList (items : list PyValue).

(** Value literals of a document ([graphql.language.ast]). *)
Inductive ValueNode : Type :=
| IntValueNode (value : string)
| FloatValueNode (value : string)
| StringValueNode (value : string)
| BooleanValueNode (value : bool)
| NullValueNode
| EnumValueNode (value : string)
| ListValueNode (values : list ValueNode)
| ObjectValueNode (fields : list (string * ValueNode)).

(** [str(node.value)]: the null, list and object literals have no [value]. *)
Definition str_value (node : ValueNode) : result string :=
  match node with
  | IntValueNode value | FloatValueNode value | StringValueNode value
  | EnumValueNode value => Ok value
  | BooleanValueNode true => Ok "True"
  | BooleanValueNode false => Ok "False"
  | NullValueNode | ListValueNode _ | ObjectValueNode _ => Raise (AttributeError "value")
  end.

(** The configuration classes of the plugin. *)
Record Kwarg : Type := {
  kwarg_key : string;
  kwarg_type : string;
  kwarg_description : string;
  kwarg_default : PyValue
}.

Record Arg : Type := {
  arg_key : string;
  arg_type : string;
  arg_description : string
}.

Record FunctionDefinition : Type := {
  definition_type : OperationType;
  is_async : bool;
  extra_args : list Arg;
  extra_kwargs : list Kwarg;
  use : string
}.

Record FuncsPluginConfig : Type := {
  funcs_glob : option string;
  prepend_sync : string;
  prepend_async : string;
  collapse_lonely : bool;
  generate_protocol : bool;
  global_args : list Arg;
  global_kwargs : list Kwarg;
  definitions : list FunctionDefinition;
  extract_documentation : bool
}.

(** Of [turms.config.GeneratorConfig] the plugin reads [documents]. *)
Record GeneratorConfig : Type := {
  documents : option string
}.

(** The expressions and statements of Python's [ast] that the plugin
    builds; type annotations are the [ast] of the resolvers. *)
Inductive expr : Type :=
| EName (id : string)
| EConstant (value : PyValue)
| EDict (keys : list expr) (values : list expr)
| ECall (func : expr) (args : list expr) (keywords : list (string * expr))
| EAwait (value : expr)
| EAttribute (value : expr) (attr : string)
| EYield (value : expr).

(** [ast.arg(arg=..., annotation=...)] *)
Record arg : Type := {
  arg_id : string;
  annotation : ast
}.

(** [ast.arguments(args=..., posonlyargs=..., kwonlyargs=..., kw_defaults=...,
    defaults=...)] *)
Record arguments : Type := {
  args : list arg;
  posonlyargs : list arg;
  kwonlyargs : list arg;
  kw_defaults : list expr;
  defaults : list expr
}.

Inductive stmt : Type :=
| SExpr (value : expr)
| SReturn (value : expr)
| SFor (target : expr) (iter : expr) (body : list stmt)
| SAsyncFor (target : expr) (iter : expr) (body : list stmt)
| FunctionDef (name : string) (params : arguments) (body : list stmt) (returns : ast)
| AsyncFunctionDef (name : string) (params : arguments) (body : list stmt) (returns : ast).

(** What [parse_documents] does: it returns the document, raises
    [NoDocumentsFoundError], or raises something else. *)
Inductive parsed : Type :=
| Documents (definitions : list DefinitionNode)
| NoDocumentsFoundError
| ParseError (e : Exception).

(** What the plugin calls that is not among the sources: two naming methods
    of the class registry, the type walkers, value parser, documentation and
    document helpers of [turms.utils], and two attributes the records of the
    referencer do not carry, the default value of a variable definition and
    the description of a schema type.  The two type walkers are handed the
    class registry and may register imports with it; the other helpers do
    not see it. *)
Class Environment : Type := {
  generate_parameter_name : ClassRegistry -> string -> string;
  generate_node_name : ClassRegistry -> string -> string;
  recurse_type_annotation : TypeNode -> ClassRegistry -> Gen ast;
  recurse_type_label : TypeNode -> ClassRegistry -> Gen string;
  parse_value_node : ValueNode -> result PyValue;
  inspect_operation_for_documentation : OperationDefinitionNode -> result (option string);
  target_from_node : FieldNode -> result string;
  parse_documents : GraphQLSchema -> option string -> parsed;
  default_value : VariableDefinitionNode -> option ValueNode;
  description : GraphQLType -> option string
}.

(** *** Names *)

Definition is_upper (c : ascii) : bool :=
  let n := nat_of_ascii c in (65 <=? n)%nat && (n <=? 90)%nat.

Definition is_lower (c : ascii) : bool :=
  let n := nat_of_ascii c in (97 <=? n)%nat && (n <=? 122)%nat.

Definition is_digit (c : ascii) : bool :=
  let n := nat_of_ascii c in (48 <=? n)%nat && (n <=? 57)%nat.

Definition is_newline (c : ascii) : bool := (nat_of_ascii c =? 10)%nat.

Definition underscore : ascii := ascii_of_nat 95.

(** [re.sub("(.)([A-Z][a-z]+)", r"\1_\2", s)].  The scan goes from the left;
    where a character other than a line feed is followed by an upper-case
    letter and a lower-case one, the three are a match with the lower-case
    letters that follow, and the scan resumes after them.  [copying] is set
    while the scan is inside the lower-case letters of a match. *)
Fixpoint underscore_words (copying : bool) (s : string) : string :=
  match s with
  | EmptyString => EmptyString
  | String c rest =>
      if copying && is_lower c then String c (underscore_words true rest)
      else
        match rest with
        | String u (String l _ as rest') =>
            if negb (is_newline c) && is_upper u && is_lower l
            then String c (String underscore (String u (underscore_words true rest')))
            else String c (underscore_words false rest)
        | _ => String c (underscore_words false rest)
        end
  end.

(** [re.sub("([a-z0-9])([A-Z])", r"\1_\2", s)] *)
Fixpoint underscore_humps (s : string) : string :=
  match s with
  | EmptyString => EmptyString
  | String c rest =>
      match rest with
      | String u rest' =>
          if (is_lower c || is_digit c) && is_upper u
          then String c (String underscore (String u (underscore_humps rest')))
          else String c (underscore_humps rest)
      | EmptyString => String c EmptyString
      end
  end.

(** [camel_to_snake(name)], on the ASCII characters GraphQL names are made
    of. *)
Definition camel_to_snake (name : string) : string :=
  lowercase (underscore_humps (underscore_words false name)).

(** [s.split(sep)] *)
Fixpoint split (sep : ascii) (s : string) : list string :=
  match s with
  | EmptyString => [EmptyString]
  | String c rest =>
      if Ascii.eqb c sep then EmptyString :: split sep rest
      else
        match split sep rest with
        | part :: parts => String c part :: parts
        | [] => [String c EmptyString]
        end
  end.

(** [path.split(".")[-1]] *)
Definition last_component (path : string) : string :=
  List.last (split (ascii_of_nat 46) path) EmptyString.

Definition generate_async_func_name (o : OperationDefinitionNode)
    (plugin_config : FuncsPluginConfig) (config : GeneratorConfig)
    (registry : ClassRegistry) : result string :=
  name <- operation_name o ;;
  Ok (prepend_async plugin_config ++ camel_to_snake name).

Definition generate_sync_func_name (o : OperationDefinitionNode)
    (plugin_config : FuncsPluginConfig) (config : GeneratorConfig)
    (registry : ClassRegistry) : result string :=
  name <- operation_name o ;;
  Ok (prepend_sync plugin_config ++ camel_to_snake name).

(** *** Arguments *)

Definition get_extra_args_for_onode (definition : FunctionDefinition)
    (plugin_config : FuncsPluginConfig) : list Arg :=
  (global_args plugin_config ++ extra_args definition)%list.

Definition get_extra_kwargs_for_onode (definition : FunctionDefinition)
    (plugin_config : FuncsPluginConfig) : list Kwarg :=
  (global_kwargs plugin_config ++ extra_kwargs definition)%list.

Definition generate_passing_extra_args_for_onode (definition : FunctionDefinition)
    (plugin_config : FuncsPluginConfig) : list expr :=
  map (fun a => EName (arg_key a)) (get_extra_args_for_onode definition plugin_config).

Definition generate_passing_extra_kwargs_for_onode (definition : FunctionDefinition)
    (plugin_config : FuncsPluginConfig) : list (string * expr) :=
  map (fun kwarg => (kwarg_key kwarg, EName (kwarg_key kwarg)))
      (get_extra_kwargs_for_onode definition plugin_config).

Definition operation_type_eqb (a b : OperationType) : bool :=
  match a, b with
  | QUERY, QUERY | MUTATION, MUTATION | SUBSCRIPTION, SUBSCRIPTION => true
  | _, _ => false
  end.

Definition get_definitions_for_onode (operation_definition : OperationDefinitionNode)
    (plugin_config : FuncsPluginConfig) : list FunctionDefinition :=
  List.filter (fun definition =>
                 operation_type_eqb (definition_type definition)
                                    (operation operation_definition))
              (definitions plugin_config).

(** [for x in l: out.append(f(x))] *)
Fixpoint for_append {A B} (f : A -> Gen B) (l : list A) : Gen (list B) :=
  match l with
  | [] => pure (Ok [])
  | x :: rest =>
      y <~ f x ;;
      ys <~ for_append f rest ;;
      pure (Ok (y :: ys))
  end.

Section Synthesizer.
Context `{Collaborators} `{Environment}.

Definition is_non_null (t : TypeNode) : bool :=
  match t with
  | NonNullTypeNode _ => true
  | _ => false
  end.

(** The variables that become positional parameters, and those that become
    parameters with a default: the two comprehensions of
    [generate_parameters]. *)
Definition arg_variables (o : OperationDefinitionNode) : list VariableDefinitionNode :=
  List.filter (fun v => is_non_null (var_type v)
                        && negb (bool_decide (is_Some (default_value v))))
              (variable_definitions o).

Definition kwarg_variables (o : OperationDefinitionNode) : list VariableDefinitionNode :=
  List.filter (fun v => negb (is_non_null (var_type v))
                        || bool_decide (is_Some (default_value v)))
              (variable_definitions o).

(** [ast.arg(arg=registry.generate_parameter_name(v.variable.name.value),
    annotation=recurse_type_annotation(v.type, registry))] *)
Definition variable_arg (registry : ClassRegistry) (v : VariableDefinitionNode)
  : Gen arg :=
  type <~ recurse_type_annotation (var_type v) registry ;;
  pure (Ok {| arg_id := generate_parameter_name registry (variable v);
              annotation := type |}).

(** [ast.Constant(value=parse_value_node(v.default_value) if v.default_value
    else None)] *)
Definition default_constant (v : VariableDefinitionNode) : result expr :=
  match default_value v with
  | Some node => value <- parse_value_node node ;; Ok (EConstant value)
  | None => Ok (EConstant PyNone)
  end.

(** Body of [for arg in extra_args]: the import of the type, and the
    parameter. *)
Definition extra_arg (a : Arg) : Gen arg :=
  _ <~ register_import (arg_type a) ;;
  pure (Ok {| arg_id := arg_key a; annotation := Name (last_component (arg_type a)) |}).

(** Body of [for kwarg in extra_kwargs]: the import of the type, the
    parameter and its default. *)
Definition extra_kwarg (k : Kwarg) : Gen (arg * expr) :=
  _ <~ register_import (kwarg_type k) ;;
  pure (Ok ({| arg_id := kwarg_key k;
               annotation := Name (last_component (kwarg_type k)) |},
            EConstant (kwarg_default k))).

(** Body of [for v in kwarg_variables]: the parameter and its default. *)
Definition variable_kwarg (registry : ClassRegistry) (v : VariableDefinitionNode)
  : Gen (arg * expr) :=
  a <~ variable_arg registry v ;;
  d <-- default_constant v ;;
  pure (Ok (a, d)).

(** [generate_parameters]: the four loops in the order of the source, each
    with the imports it registers, then the [ast.arguments] of what they
    appended. *)
Definition generate_parameters (definition : FunctionDefinition)
    (operation_definition : OperationDefinitionNode) (config : GeneratorConfig)
    (plugin_config : FuncsPluginConfig) (registry : ClassRegistry) : Gen arguments :=
  let extra_args := get_extra_args_for_onode definition plugin_config in
  pos_extra <~ for_append extra_arg extra_args ;;
  pos_variables <~ for_append (variable_arg registry)
                              (arg_variables operation_definition) ;;
  kw_variables <~ for_append (variable_kwarg registry)
                             (kwarg_variables operation_definition) ;;
  let extra_kwargs := get_extra_kwargs_for_onode definition plugin_config in
  kw_extra <~ for_append extra_kwarg extra_kwargs ;;
  let pos_args := (pos_extra ++ pos_variables)%list in
  let kw_args := (map fst kw_variables ++ map fst kw_extra)%list in
  let kw_values := (map snd kw_variables ++ map snd kw_extra)%list in
  pure (Ok {| args := (pos_args ++ kw_args)%list;
              posonlyargs := [];
              kwonlyargs := [];
              kw_defaults := [];
              defaults := kw_values |}).

Definition generate_variable_dict (o : OperationDefinitionNode) (registry : ClassRegistry)
  : expr :=
  EDict (map (fun v => EConstant (PyStr (variable v))) (variable_definitions o))
        (map (fun v => EName (generate_parameter_name registry (variable v)))
             (variable_definitions o)).

Definition generate_document_arg (o : OperationDefinitionNode) (registry : ClassRegistry)
  : result expr :=
  name <- get_operation_class_name o registry ;;
  Ok (EName name).

(** *** The body of the function *)

(** [ast.Call(func=ast.Name(id=definition.use.split(".")[-1]), keywords=...,
    args=... + [generate_document_arg(o, registry),
    generate_variable_dict(o, registry)])], the expression the four
    generators below share. *)
Definition proxy_call (definition : FunctionDefinition) (o : OperationDefinitionNode)
    (plugin_config : FuncsPluginConfig) (registry : ClassRegistry) : result expr :=
  document <- generate_document_arg o registry ;;
  Ok (ECall (EName (last_component (use definition)))
            (generate_passing_extra_args_for_onode definition plugin_config
             ++ [document; generate_variable_dict o registry])%list
            (generate_passing_extra_kwargs_for_onode definition plugin_config)).

(** [registry.generate_node_name(o.selection_set.selections[0].name.value)] *)
Definition collapsed_attribute (o : OperationDefinitionNode) (registry : ClassRegistry)
  : result string :=
  sels <- selections (op_selection_set o) ;;
  collapsable_field <- first sels ;;
  name <- getattr_name collapsable_field ;;
  Ok (generate_node_name registry name).

Definition genereate_async_call (definition : FunctionDefinition)
    (o : OperationDefinitionNode) (client_schema : GraphQLSchema)
    (config : GeneratorConfig) (plugin_config : FuncsPluginConfig)
    (registry : ClassRegistry) (collapse : bool) : Gen stmt :=
  gen_bind (register_import (use definition)) (fun _ =>
    pure (call <- proxy_call definition o plugin_config registry ;;
          if collapse then
            attr <- collapsed_attribute o registry ;;
            Ok (SReturn (EAttribute (EAwait call) attr))
          else Ok (SReturn (EAwait call)))).

Definition genereate_sync_call (definition : FunctionDefinition)
    (o : OperationDefinitionNode) (client_schema : GraphQLSchema)
    (config : GeneratorConfig) (plugin_config : FuncsPluginConfig)
    (registry : ClassRegistry) (collapse : bool) : Gen stmt :=
  gen_bind (register_import (use definition)) (fun _ =>
    pure (call <- proxy_call definition o plugin_config registry ;;
          if collapse then
            attr <- collapsed_attribute o registry ;;
            Ok (SReturn (EAttribute call attr))
          else Ok (SReturn call))).

Definition genereate_async_iterator (definition : FunctionDefinition)
    (o : OperationDefinitionNode) (client_schema : GraphQLSchema)
    (config : GeneratorConfig) (plugin_config : FuncsPluginConfig)
    (registry : ClassRegistry) (collapse : bool) : Gen stmt :=
  gen_bind (register_import (use definition)) (fun _ =>
    pure (call <- proxy_call definition o plugin_config registry ;;
          if collapse then
            attr <- collapsed_attribute o registry ;;
            Ok (SAsyncFor (EName "event") call
                  [SExpr (EYield (EAttribute (EName "event") attr))])
          else Ok (SAsyncFor (EName "event") call [SExpr (EYield (EName "event"))]))).

Definition genereate_sync_iterator (definition : FunctionDefinition)
    (o : OperationDefinitionNode) (client_schema : GraphQLSchema)
    (config : GeneratorConfig) (plugin_config : FuncsPluginConfig)
    (registry : ClassRegistry) (collapse : bool) : Gen stmt :=
  gen_bind (register_import (use definition)) (fun _ =>
    pure (call <- proxy_call definition o plugin_config registry ;;
          if collapse then
            attr <- collapsed_attribute o registry ;;
            Ok (SFor (EName "event") call
                  [SExpr (EYield (EAttribute (EName "event") attr))])
          else Ok (SFor (EName "event") call [SExpr (EYield (EName "event"))]))).

End Synthesizer.

(** *** The documentation string *)

(** [sep.join(parts)] *)
Fixpoint join (sep : string) (parts : list string) : string :=
  match parts with
  | [] => EmptyString
  | [part] => part
  | part :: rest => part ++ sep ++ join sep rest
  end.

(** Truth value of an [Optional[str]]: [None] and the empty string are
    false. *)
Definition truthy (s : option string) : option string :=
  match s with
  | Some (String c rest) => Some (String c rest)
  | _ => None
  end.

(** [for x in l: out += f(x)] on strings, and on lists, with the imports
    registered on the way. *)
Fixpoint for_concat {A} (f : A -> Gen string) (l : list A) : Gen string :=
  match l with
  | [] => pure (Ok EmptyString)
  | x :: rest =>
      s <~ f x ;;
      s' <~ for_concat f rest ;;
      pure (Ok (s ++ s'))
  end.

Fixpoint for_extend {A B} (f : A -> Gen (list B)) (l : list A) : Gen (list B) :=
  match l with
  | [] => pure (Ok [])
  | x :: rest =>
      ys <~ f x ;;
      ys' <~ for_extend f rest ;;
      pure (Ok (ys ++ ys')%list)
  end.

Section Documentation.
Context `{Collaborators} `{Environment}.

(** Body of [for field in o.selection_set.selections]: the lines appended to
    [op_descriptions]. *)
Definition field_description (client_schema : GraphQLSchema) (x : GraphQLType)
    (field : SelectionNode) : result (list string) :=
  match field with
  | FieldSelection f =>
      target <- target_from_node f ;;
      field_definition <- get_field_def client_schema x field ;;
      operation_type <- getattr_type field_definition ;;
      match truthy (description (named_type operation_type)) with
      | Some text => Ok [target ++ ": " ++ text ++ nl]
      | None => Ok []
      end
  | _ => Ok []
  end.

Fixpoint op_descriptions (client_schema : GraphQLSchema) (x : GraphQLType)
    (sels : list SelectionNode) : result (list string) :=
  match sels with
  | [] => Ok []
  | field :: rest =>
      lines <- field_description client_schema x field ;;
      lines' <- op_descriptions client_schema x rest ;;
      Ok (lines ++ lines')%list
  end.

Definition arg_line (a : Arg) : string :=
  "    " ++ arg_key a ++ " (" ++ arg_type a ++ "): " ++ arg_description a ++ nl.

Definition kwarg_line (k : Kwarg) : string :=
  "    " ++ kwarg_key k ++ " (" ++ kwarg_type k ++ ", optional): "
  ++ kwarg_description k ++ nl.

(** The line of a variable without default, or nothing. *)
Definition required_line (registry : ClassRegistry) (v : VariableDefinitionNode)
  : Gen string :=
  if is_non_null (var_type v) && negb (bool_decide (is_Some (default_value v))) then
    label <~ recurse_type_label (var_type v) registry ;;
    pure (Ok ("    " ++ generate_parameter_name registry (variable v) ++ " (" ++ label
              ++ "): " ++ variable v ++ nl))
  else pure (Ok EmptyString).

(** The line of a variable with a default, or nothing. *)
Definition optional_line (registry : ClassRegistry) (v : VariableDefinitionNode)
  : Gen string :=
  if negb (is_non_null (var_type v)) || bool_decide (is_Some (default_value v)) then
    label <~ recurse_type_label (var_type v) registry ;;
    defaults_to <-- match default_value v with
                    | None => Ok EmptyString
                    | Some node => s <- str_value node ;; Ok ("Defaults to " ++ s)
                    end ;;
    pure (Ok ("    " ++ generate_parameter_name registry (variable v) ++ " (" ++ label
              ++ ", optional): " ++ variable v ++ ". " ++ defaults_to ++ nl))
  else pure (Ok EmptyString).

Definition generate_query_doc (definition : FunctionDefinition)
    (o : OperationDefinitionNode) (client_schema : GraphQLSchema)
    (config : GeneratorConfig) (plugin_config : FuncsPluginConfig)
    (registry : ClassRegistry) (collapse : bool) : Gen stmt :=
  x <-- get_operation_root_type client_schema o ;;
  o_name <-- get_operation_class_name o registry ;;
  return_type <~ get_return_type_string o client_schema registry collapse ;;
  name <-- operation_name o ;;
  let header := name ++ " " ++ nl ++ nl in
  operation_documentation <--
    (if extract_documentation plugin_config
     then inspect_operation_for_documentation o else Ok None) ;;
  description <--
    match truthy operation_documentation with
    | None =>
        sels <- selections (op_selection_set o) ;;
        lines <- op_descriptions client_schema x sels ;;
        Ok (join (nl ++ " ") (header :: lines))
    | Some text => Ok (header ++ text)
    end ;;
  let description := description ++ nl ++ nl ++ "Arguments:" ++ nl in
  let description :=
    description
    ++ String.concat EmptyString
         (map arg_line (get_extra_args_for_onode definition plugin_config)) in
  required <~ for_concat (required_line registry) (variable_definitions o) ;;
  optional <~ for_concat (optional_line registry) (variable_definitions o) ;;
  let description := description ++ required ++ optional in
  let description :=
    description
    ++ String.concat EmptyString
         (map kwarg_line (get_extra_kwargs_for_onode definition plugin_config)) in
  let description := description ++ nl ++ "Returns:" ++ nl in
  let description := description ++ "    " ++ return_type in
  pure (Ok (SExpr (EConstant (PyStr description)))).
End Documentation.

(** *** The function and the plugin *)

Section Plugin.
Context `{Collaborators} `{Environment}.

Definition is_subscription (t : OperationType) : bool :=
  operation_type_eqb t SUBSCRIPTION.

(** The [if definition.is_async:] block of [generate_operation_func]. *)
Definition async_function (definition : FunctionDefinition)
    (o : OperationDefinitionNode) (client_schema : GraphQLSchema)
    (config : GeneratorConfig) (plugin_config : FuncsPluginConfig)
    (registry : ClassRegistry) (collapse : bool) (return_type : ast) (doc : stmt)
  : Gen (list stmt) :=
  _ <~ (if is_subscription (operation o)
        then register_import "typing.AsyncIterator" else pure (Ok tt)) ;;
  name <-- generate_async_func_name o plugin_config config registry ;;
  params <~ generate_parameters definition o config plugin_config registry ;;
  body <~ (if negb (is_subscription (definition_type definition))
           then genereate_async_call definition o client_schema config plugin_config
                  registry collapse
           else genereate_async_iterator definition o client_schema config
                  plugin_config registry collapse) ;;
  pure (Ok [AsyncFunctionDef name params [doc; body]
              (if negb (is_subscription (definition_type definition)) then return_type
               else Subscript (Name "AsyncIterator") return_type)]).

(** The [if not definition.is_async:] block. *)
Definition sync_function (definition : FunctionDefinition)
    (o : OperationDefinitionNode) (client_schema : GraphQLSchema)
    (config : GeneratorConfig) (plugin_config : FuncsPluginConfig)
    (registry : ClassRegistry) (collapse : bool) (return_type : ast) (doc : stmt)
  : Gen (list stmt) :=
  _ <~ (if is_subscription (operation o)
        then register_import "typing.Iterator" else pure (Ok tt)) ;;
  name <-- generate_sync_func_name o plugin_config config registry ;;
  params <~ generate_parameters definition o config plugin_config registry ;;
  body <~ (if negb (is_subscription (definition_type definition))
           then genereate_sync_call definition o client_schema config plugin_config
                  registry collapse
           else genereate_sync_iterator definition o client_schema config
                  plugin_config registry collapse) ;;
  pure (Ok [FunctionDef name params [doc; body]
              (if negb (is_subscription (definition_type definition)) then return_type
               else Subscript (Name "Iterator") return_type)]).

Definition generate_operation_func (definition : FunctionDefinition)
    (o : OperationDefinitionNode) (client_schema : GraphQLSchema)
    (config : GeneratorConfig) (plugin_config : FuncsPluginConfig)
    (registry : ClassRegistry) : Gen (list stmt) :=
  collapse <-- (if collapse_lonely plugin_config then is_collapsable o else Ok false) ;;
  return_type <~ get_return_type_annotation o client_schema registry collapse ;;
  doc <~ generate_query_doc definition o client_schema config plugin_config registry
           collapse ;;
  tree <~ (if is_async definition
           then async_function definition o client_schema config plugin_config
                  registry collapse return_type doc
           else pure (Ok [])) ;;
  tree' <~ (if negb (is_async definition)
            then sync_function definition o client_schema config plugin_config
                   registry collapse return_type doc
            else pure (Ok [])) ;;
  pure (Ok (tree ++ tree')%list).

(** [self.config.funcs_glob or config.documents] *)
Definition glob_or_documents (self_config : FuncsPluginConfig) (config : GeneratorConfig)
  : option string :=
  match truthy (funcs_glob self_config) with
  | Some glob => Some glob
  | None => documents config
  end.

(** [FuncsPlugin.generate_ast(client_schema, config, registry)]; the
    [NoDocumentsFoundError] is logged and swallowed. *)
Definition generate_ast (self_config : FuncsPluginConfig) (client_schema : GraphQLSchema)
    (config : GeneratorConfig) (registry : ClassRegistry) : Gen (list stmt) :=
  match parse_documents client_schema (glob_or_documents self_config config) with
  | NoDocumentsFoundError => pure (Ok [])
  | ParseError e => Raise e
  | Documents definitions =>
      for_extend
        (fun operation =>
           for_extend
             (fun definition =>
                generate_operation_func definition operation client_schema config
                  self_config registry)
             (get_definitions_for_onode operation self_config))
        (operation_definitions definitions)
  end.
End Plugin.
End Funcs.

(** ** Notions used in the statements about the synthesizer *)

Module FuncsNotions.
Import Funcs.

(** Every character of the string passes the test. *)
Fixpoint all_chars (p : ascii -> bool) (s : string) : bool :=
  match s with
  | EmptyString => true
  | String c rest => p c && all_chars p rest
  end.

Definition no_upper (s : string) : Prop := all_chars (fun c => negb (is_upper c)) s = true.

(** The string without its underscores. *)
Fixpoint drop_underscores (s : string) : string :=
  match s with
  | EmptyString => EmptyString
  | String c rest =>
      if Ascii.eqb c underscore then drop_underscores rest
      else String c (drop_underscores rest)
  end.

(** The names a list of expressions is made of, when all are [ast.Name]. *)
Definition name_of (e : expr) : option string :=
  match e with
  | EName id => Some id
  | _ => None
  end.

(** The values of the dictionary expression. *)
Definition dict_values (e : expr) : list expr :=
  match e with
  | EDict _ values => values
  | _ => []
  end.

(** The expressions a call hands over besides the document: the positional
    ones before the document, the values of the variable dictionary that
    follows it, and the keyword ones. *)
Definition passed (call : expr) : list expr :=
  match call with
  | ECall _ args keywords =>
      match rev args with
      | variables :: document :: before =>
          (rev before ++ dict_values variables ++ map snd keywords)%list
      | _ => []
      end
  | _ => []
  end.

(** A statement that defines a function, and what it defines. *)
Definition is_function (asynchronous : bool) (s : stmt) : Prop :=
  match s with
  | FunctionDef _ _ _ _ => asynchronous = false
  | AsyncFunctionDef _ _ _ _ => asynchronous = true
  | _ => False
  end.

Definition function_name (s : stmt) : string :=
  match s with
  | FunctionDef name _ _ _ | AsyncFunctionDef name _ _ _ => name
  | _ => EmptyString
  end.

Definition function_body (s : stmt) : list stmt :=
  match s with
  | FunctionDef _ _ body _ | AsyncFunctionDef _ _ body _ => body
  | _ => []
  end.

Definition function_returns (s : stmt) : option ast :=
  match s with
  | FunctionDef _ _ _ returns | AsyncFunctionDef _ _ _ returns => Some returns
  | _ => None
  end.

Definition function_params (s : stmt) : option arguments :=
  match s with
  | FunctionDef _ params _ _ | AsyncFunctionDef _ params _ _ => Some params
  | _ => None
  end.

(** A loop statement. *)
Definition is_loop (s : stmt) : bool :=
  match s with
  | SFor _ _ _ | SAsyncFor _ _ _ => true
  | _ => false
  end.

(** The expression a generated body returns or yields. *)
Definition handed_back (s : stmt) : option expr :=
  match s with
  | SReturn e => Some e
  | SFor _ _ [SExpr (EYield e)] | SAsyncFor _ _ [SExpr (EYield e)] => Some e
  | _ => None
  end.

(** The attribute an expression ends with. *)
Definition final_attribute (e : expr) : option string :=
  match e with
  | EAttribute _ attr => Some attr
  | _ => None
  end.

Section OneFunction.
Context `{Collaborators} `{Environment}.

(** The choices [generate_operation_func] makes by [definition.is_async]
    and [definition.type]. *)
Definition func_name (definition : FunctionDefinition) :=
  if is_async definition then generate_async_func_name else generate_sync_func_name.

Definition iterator (definition : FunctionDefinition) : string :=
  if is_async definition then "AsyncIterator" else "Iterator".

Definition body_generator (definition : FunctionDefinition) :=
  match is_async definition, is_subscription (definition_type definition) with
  | true, false => genereate_async_call definition
  | true, true => genereate_async_iterator definition
  | false, false => genereate_sync_call definition
  | false, true => genereate_sync_iterator definition
  end.

Definition function_def (definition : FunctionDefinition) :=
  if is_async definition then AsyncFunctionDef else FunctionDef.

(** The collapse flag [generate_operation_func] computes:
    [plugin_config.collapse_lonely and is_collapsable(o)]. *)
Definition collapse_flag (plugin_config : FuncsPluginConfig) (o : OperationDefinitionNode)
  : result bool :=
  if collapse_lonely plugin_config then is_collapsable o else Ok false.

(** The number of functions the plugin generates for an operation: the
    definitions of the configuration that are of its type. *)
Definition matching (plugin_config : FuncsPluginConfig) (o : OperationDefinitionNode)
  : nat :=
  length (List.filter (fun definition =>
                         operation_type_eqb (definition_type definition) (operation o))
                      (definitions plugin_config)).
End OneFunction.

End FuncsNotions.

(** ** An environment for the examples of the synthesizer *)

Module Example.
Import Funcs.

(** Variable types named as they are written, [T] for [T!] and
    [Optional[T]] otherwise, lists as [List[...]]. *)
Fixpoint type_annotation (t : TypeNode) (optional : bool) : ast :=
  match t with
  | NonNullTypeNode type => type_annotation type false
  | ListTypeNode type =>
      Model.optional_of optional (Subscript (Name "List") (type_annotation type true))
  | NamedTypeNode name => Model.optional_of optional (Name name)
  end.

(** The imports that go with them: [typing.Optional] and [typing.List]
    where the annotation names them. *)
Fixpoint type_imports (t : TypeNode) (optional : bool) : list string :=
  match t with
  | NonNullTypeNode type => type_imports type false
  | ListTypeNode type =>
      (if optional then ["typing.Optional"] else [])
      ++ "typing.List" :: type_imports type true
  | NamedTypeNode _ => if optional then ["typing.Optional"] else []
  end%list.

(** The variables [$limit: Int = 10] and [$id: ID!] of the examples. *)
Definition limit : VariableDefinitionNode :=
  {| variable := "limit"; var_type := NamedTypeNode "Int" |}.
Definition id_ : VariableDefinitionNode :=
  {| variable := "id"; var_type := NonNullTypeNode (NamedTypeNode "ID") |}.

(** [query GetPet($limit: Int = 10, $id: ID!) { pet { species } }] *)
Definition GetPet : OperationDefinitionNode :=
  {| operation := QUERY; op_name := Some "GetPet";
     variable_definitions := [limit; id_];
     op_selection_set :=
       Some [FieldSelection (Field None "pet" (Some [PetShop.leaf "species"]))] |}.

(** [subscription WatchPet { pet { species } }] *)
Definition WatchPet : OperationDefinitionNode :=
  {| operation := SUBSCRIPTION; op_name := Some "WatchPet";
     variable_definitions := [];
     op_selection_set :=
       Some [FieldSelection (Field None "pet" (Some [PetShop.leaf "species"]))] |}.

Definition schema : GraphQLSchema :=
  {| type_map := type_map PetShop.schema;
     query_type := Some PetShop.Query;
     mutation_type := None;
     subscription_type := Some PetShop.Query |}.

(** Names are kept as they are, annotations register the imports they
    name and labels none, literals are parsed to the text they are written
    with, operations have no documentation and types no description; the
    default of [$limit] is [10]; the documents are the two operations
    above. *)
#[global] Instance environment : Environment :=
  {| generate_parameter_name := fun _ name => name;
     generate_node_name := fun _ name => name;
     recurse_type_annotation := fun t _ =>
       Ok (type_annotation t true, type_imports t true);
     recurse_type_label := fun t _ => pure (Ok (display (type_annotation t true)));
     parse_value_node := fun node => s <- str_value node ;; Ok (PyStr s);
     inspect_operation_for_documentation := fun _ => Ok None;
     target_from_node := fun f => Ok (alias_or_name (field_alias f) (field_name f));
     parse_documents := fun _ glob =>
       match glob with
       | Some _ => Documents [OperationDefinition GetPet; OperationDefinition WatchPet]
       | None => NoDocumentsFoundError
       end;
     default_value := fun v =>
       if String.eqb (variable v) "limit" then Some (IntValueNode "10") else None;
     description := fun _ => None |}.

(** A synchronous proxy for queries and an asynchronous one for
    subscriptions. *)
Definition query_proxy : FunctionDefinition :=
  {| definition_type := QUERY; is_async := false;
     extra_args := [ {| arg_key := "client"; arg_type := "rath.Rath";
                        arg_description := "the client" |} ];
     extra_kwargs := [];
     use := "rath.turms.funcs.execute" |}.

Definition subscription_proxy : FunctionDefinition :=
  {| definition_type := SUBSCRIPTION; is_async := true;
     extra_args := []; extra_kwargs := [];
     use := "rath.turms.funcs.asubscribe" |}.

Definition plugin_config : FuncsPluginConfig :=
  {| funcs_glob := Some "*.graphql"; prepend_sync := EmptyString; prepend_async := "a";
     collapse_lonely := true; generate_protocol := false;
     global_args := []; global_kwargs := [];
     definitions := [query_proxy; subscription_proxy];
     extract_documentation := true |}.

Definition config : GeneratorConfig := {| documents := None |}.

Definition registry : ClassRegistry := Model.class_registry ∅.

(** [query { pet { species } }], and documents that hold it after [GetPet]. *)
Definition Anonymous : OperationDefinitionNode :=
  {| operation := QUERY; op_name := None;
     variable_definitions := [];
     op_selection_set :=
       Some [FieldSelection (Field None "pet" (Some [PetShop.leaf "species"]))] |}.

Definition anonymous_environment : Environment :=
  {| generate_parameter_name := @generate_parameter_name environment;
     generate_node_name := @generate_node_name environment;
     recurse_type_annotation := @recurse_type_annotation environment;
     recurse_type_label := @recurse_type_label environment;
     parse_value_node := @parse_value_node environment;
     inspect_operation_for_documentation :=
       @inspect_operation_for_documentation environment;
     target_from_node := @target_from_node environment;
     parse_documents := fun _ _ =>
       Documents [OperationDefinition GetPet; OperationDefinition Anonymous];
     default_value := @default_value environment;
     description := @description environment |}.

End Example.

(** * Properties *)

(** ** The registry *)

Section RegistryFacts.
Implicit Types (c : Category) (r : ReferenceRegistry) (name : string).

Lemma registry_eq r1 r2 :
  objects r1 = objects r2 -> fragments r1 = fragments r2 ->
  enums r1 = enums r2 -> inputs r1 = inputs r2 ->
  scalars r1 = scalars r2 -> operations r1 = operations r2 -> r1 = r2.
Proof. destruct r1, r2; simpl; congruence. Qed.

Lemma category_set_register c name r :
  category_set c (register c name r) = {[name]} ∪ category_set c r.
Proof. by destruct c. Qed.

Lemma category_set_register_ne c c' name r :
  c <> c' -> category_set c' (register c name r) = category_set c' r.
Proof. by destruct c, c'. Qed.

Lemma operations_register c name r :
  operations (register c name r) = operations r.
Proof. by destruct c. Qed.

Lemma register_register c name r :
  register c name (register c name r) = register c name r.
Proof. destruct c; apply registry_eq; simpl; set_solver. Qed.

Lemma register_comm c c' name name' r :
  register c name (register c' name' r) = register c' name' (register c name r).
Proof. destruct c, c'; apply registry_eq; simpl; set_solver. Qed.
End RegistryFacts.

(** C7.  Registration is a total update of the registry (it returns the
    registry and nothing else, and cannot fail).  For each of the five
    categories: registering a name twice is registering it once; from the
    empty registry that leaves exactly the one name, a set of size 1; two
    registrations commute, whatever their categories and names; and only the
    set of the category changes, the [operations] set included. *)
Theorem register_idempotent (c : Category) (name : string) (r : ReferenceRegistry) :
  register c name (register c name r) = register c name r
  /\ category_set c (register c name (register c name Registry.empty)) = {[name]}
  /\ size (category_set c (register c name (register c name Registry.empty))) = 1
  /\ (forall c' name', register c name (register c' name' r)
                       = register c' name' (register c name r))
  /\ category_set c (register c name r) = {[name]} ∪ category_set c r
  /\ (forall c', c <> c' -> category_set c' (register c name r) = category_set c' r)
  /\ operations (register c name r) = operations r.
Proof.
  split; [apply register_register|].
  rewrite register_register, category_set_register.
  assert (category_set c Registry.empty = ∅) as -> by (by destruct c).
  rewrite (right_id_L ∅ (∪)).
  split; [done|]. split; [apply size_singleton|].
  split; [intros; apply register_comm|].
  split; [apply category_set_register|].
  split; [intros; by apply category_set_register_ne|apply operations_register].
Qed.

Lemma register_idempotent_witness :
  category_set Enums (register Scalars "String" Registry.empty)
  = category_set Enums Registry.empty.
Proof.
  refine (proj1 (proj2 (proj2 (proj2 (proj2 (proj2
            (register_idempotent Scalars "String" Registry.empty)))))) Enums _).
  discriminate.
Defined.

(** ** [is_collapsable] *)



(** ** [recurse_type_annotation] *)

Lemma recurse_type_annotation_named t schema registry :
  recurse_type_annotation t schema registry
  = register_named (get_type schema (named_type_node t))
                   (NamedTypeNode (named_type_node t)) registry.
Proof.
  induction t as [name|t IH|t IH]; simpl; [|done..].
  destruct (get_type schema name) as [[]|]; done.
Qed.

Lemma for_each_app {A} (body : A -> ReferenceRegistry -> result ReferenceRegistry)
    (l1 l2 : list A) (registry : ReferenceRegistry) :
  for_each body (l1 ++ l2) registry
  = (registry' <- for_each body l1 registry ;; for_each body l2 registry').
Proof.
  revert registry. induction l1 as [|x l1 IH]; intros registry; simpl; [done|].
  destruct (body x registry); simpl; [apply IH|done].
Qed.

Lemma for_each_raise {A} (body : A -> ReferenceRegistry -> result ReferenceRegistry)
    (pre post : list A) (x : A) (registry registry' : ReferenceRegistry) (e : Exception) :
  for_each body pre registry = Ok registry' ->
  body x registry' = Raise e ->
  for_each body (pre ++ x :: post) registry = Raise e.
Proof.
  intros Hpre Hx. rewrite for_each_app, Hpre. simpl. by rewrite Hx.
Qed.

(** C6.  [recurse_type_annotation] takes off one NonNull or List wrapper per
    call; at the Named node under the wrappers it registers the type the
    schema resolves the name to, as a scalar, an input or an enum according
    to its kind, and for any other kind (or no type at all) it raises the
    "Unknown Subtype" exception, which carries that Named node.  Nothing
    catches the exception: the operation whose variable has such a type
    fails with it, and so does the whole collection run. *)
Theorem recurse_type_annotation_spec (schema : GraphQLSchema)
    (registry : ReferenceRegistry) (t : TypeNode) :
  recurse_type_annotation (NonNullTypeNode t) schema registry
  = recurse_type_annotation t schema registry
  /\ recurse_type_annotation (ListTypeNode t) schema registry
     = recurse_type_annotation t schema registry
  /\ recurse_type_annotation t schema registry
     = register_named (get_type schema (named_type_node t))
                      (NamedTypeNode (named_type_node t)) registry
  /\ forall e, recurse_type_annotation t schema registry = Raise e ->
       e = UnknownSubtype (NamedTypeNode (named_type_node t))
       /\ forall o (pre post : list VariableDefinitionNode) v registry0,
            variable_definitions o = (pre ++ v :: post)%list ->
            var_type v = t ->
            for_each (fun argument => recurse_type_annotation (var_type argument) schema)
                     pre registry0 = Ok registry ->
            walk_operation schema o registry0 = Raise e
            /\ (registry0 = Registry.empty -> forall name, op_name o = Some name ->
                create_reference_registry_from_documents schema [OperationDefinition o]
                = Raise e).
Proof.
  split; [done|]. split; [done|].
  split; [apply recurse_type_annotation_named|].
  intros e He. split.
  - rewrite recurse_type_annotation_named in He.
    destruct (get_type schema (named_type_node t)) as [[]|]; simpl in He; congruence.
  - intros o pre post v registry0 Hvars Hv Hpre.
    assert (walk_operation schema o registry0 = Raise e) as Hwalk.
    { unfold walk_operation. rewrite Hvars.
      erewrite for_each_raise; [done|exact Hpre|]. by rewrite Hv. }
    split; [done|]. intros -> name Hname.
    unfold create_reference_registry_from_documents. simpl.
    unfold operation_name. rewrite Hname. simpl. by rewrite Hwalk.
Qed.

Lemma recurse_type_annotation_spec_witness :
  let t := NonNullTypeNode (ListTypeNode (NamedTypeNode "Pet")) in
  let o := {| operation := QUERY; op_name := Some "FindPets";
              variable_definitions :=
                [ {| variable := "filter"; var_type := NamedTypeNode "PetFilter" |};
                  {| variable := "like"; var_type := t |} ];
              op_selection_set := Some [PetShop.leaf "__typename"] |} in
  create_reference_registry_from_documents PetShop.schema [OperationDefinition o]
  = Raise (UnknownSubtype (NamedTypeNode "Pet")).
Proof.
  intros t o.
  pose proof (recurse_type_annotation_spec PetShop.schema
                (register_input "PetFilter" Registry.empty) t) as (_ & _ & _ & H).
  destruct (H (UnknownSubtype (NamedTypeNode "Pet")) eq_refl) as [_ Hprop].
  exact (proj2 (Hprop o [ {| variable := "filter"; var_type := NamedTypeNode "PetFilter" |} ]
                 [] {| variable := "like"; var_type := t |} Registry.empty
                 eq_refl eq_refl eq_refl) eq_refl "FindPets" eq_refl).
Defined.

(** ** The collapse resolver *)

Section ResolverFacts.
Context `{Collaborators}.
Variables (o : OperationDefinitionNode) (client_schema : GraphQLSchema)
          (registry : ClassRegistry).
Variables (o_name : string) (root type : GraphQLType).
Variables (alias : option string) (name : string)
          (sub_selections rest : list SelectionNode).

(** The operation is named and has a root type; its first selection is the
    field [alias: name { sub_selections }], which the schema knows. *)
Hypothesis class_name : get_operation_class_name o registry = Ok o_name.
Hypothesis root_type : get_operation_root_type client_schema o = Ok root.
Hypothesis first_field :
  op_selection_set o
  = Some (FieldSelection (Field alias name (Some sub_selections)) :: rest).
Hypothesis field_def :
  get_field_def client_schema root
    (FieldSelection (Field alias name (Some sub_selections))) = Ok (Some type).

Ltac enter :=
  unfold get_return_type_annotation, get_return_type_string;
  rewrite class_name; simpl; rewrite root_type; simpl;
  rewrite first_field; simpl; rewrite field_def; simpl.

Lemma annotation_of_nested_fields :
  single_fragment_spread sub_selections = None ->
  get_return_type_annotation o client_schema registry true
  = recurse_outputtype_annotation type registry
      (Some (o_name ++ capitalize (alias_or_name alias name))).
Proof. intros Hsub. enter. rewrite Hsub. by destruct alias. Qed.

Lemma string_of_nested_fields :
  single_fragment_spread sub_selections = None ->
  get_return_type_string o client_schema registry true
  = recurse_outputtype_label type registry (Some (o_name ++ capitalize name)).
Proof. intros Hsub. enter. by rewrite Hsub. Qed.



Lemma not_collapsed :
  get_return_type_annotation o client_schema registry false = Ok (Name o_name, [])
  /\ get_return_type_string o client_schema registry false = Ok (o_name, []).
Proof.
  unfold get_return_type_annotation, get_return_type_string.
  rewrite class_name; simpl. by rewrite root_type.
Qed.

End ResolverFacts.

(** The two output-type walkers of the model are two projections of one
    decision: the label is the display form of the annotation. *)
Lemma output_label_display (type : GraphQLType) (optional : bool)
    (overwrite_final : option string) :
  Model.output_label type optional overwrite_final
  = (e <- Model.output_annotation type optional overwrite_final ;; Ok (display e)).
Proof.
  revert optional.
  induction type; intros optional; simpl;
    try (destruct (Model.final_name _ _); simpl; by destruct optional).
  - apply IHtype.
  - rewrite IHtype.
    destruct (Model.output_annotation type true overwrite_final); simpl; [|done].
    by destruct optional.
Qed.




(** Without an alias on the collapsed field, and whenever the operation is
    not collapsed, the display string is the display form of the
    annotation. *)
Lemma resolvers_agree_without_alias (o : OperationDefinitionNode)
    (client_schema : GraphQLSchema) (registry : ClassRegistry) (collapse : bool) :
  first_alias o = None \/ collapse = false ->
  value (get_return_type_string o client_schema registry collapse)
  = (e <- value (get_return_type_annotation o client_schema registry collapse) ;;
     Ok (display e)).
Proof.
  unfold first_alias, get_return_type_string, get_return_type_annotation.
  intros Halias.
  destruct (get_operation_class_name o registry) as [o_name|]; cbn [step value]; [|done].
  destruct (get_operation_root_type client_schema o) as [root|]; cbn [step value]; [|done].
  destruct collapse; [|done].
  destruct Halias as [Halias|]; [|done].
  destruct (op_selection_set o) as [[|field sels]|]; cbn [step value selections first];
    [done| |done].
  destruct field as [[alias name [sub_selections|]]|name|condition sub_selections];
    cbn [field_alias] in Halias; subst; [| | |done].
  all: destruct (get_field_def client_schema root _) as [[type|]|];
    cbn [step value getattr_selection_set field_selection_set getattr_type]; try done.
  all: try (destruct (single_fragment_spread sub_selections) as [fragment|]);
    cbn [step value getattr_alias getattr_name field_alias field_name getattr_type];
    try done.
  all: try (destruct (reference_fragment registry fragment no_parent false) as [reference|];
            cbn [step value]; [|done];
            destruct (ast_id reference); cbn [step value]; [|done]).
  all: cbn [recurse_outputtype_annotation recurse_outputtype_label Model.collaborators];
    rewrite output_label_display;
    by destruct (Model.output_annotation _ _ _).
Qed.

(** C3.  The two resolvers disagree on [query GetPet { myPet: pet { species } }]:
    the annotation is named after the alias, the display string after the
    field, so the string is not the display form of the annotation. *)
Theorem return_type_string_ignores_alias :
  let registry := Model.class_registry ∅ in
  value (get_return_type_annotation PetShop.GetPet_aliased PetShop.schema registry true)
  = Ok (Subscript (Name "Optional") (Name "GetPetMypet"))
  /\ value (get_return_type_string PetShop.GetPet_aliased PetShop.schema registry true)
     = Ok "Optional[GetPetPet]"
  /\ value (get_return_type_string PetShop.GetPet_aliased PetShop.schema registry true)
     <> (e <- value (get_return_type_annotation PetShop.GetPet_aliased PetShop.schema
                       registry true) ;;
         Ok (display e)).
Proof. by vm_compute. Qed.

(** C5.  What the two resolvers synthesize for a collapsed field with nested
    selections that are not a lone fragment spread: the annotation is named
    by the styled operation name followed by the capitalized alias, or field
    name when there is no alias; the display string by the styled operation
    name followed by the capitalized field name, alias or not. *)
Theorem synthesized_return_type_name `{Collaborators}
    (o : OperationDefinitionNode) (client_schema : GraphQLSchema)
    (registry : ClassRegistry) (o_name name : string) (alias : option string)
    (root type : GraphQLType) (sub_selections rest : list SelectionNode) :
  let field := FieldSelection (Field alias name (Some sub_selections)) in
  get_operation_class_name o registry = Ok o_name ->
  get_operation_root_type client_schema o = Ok root ->
  op_selection_set o = Some (field :: rest) ->
  get_field_def client_schema root field = Ok (Some type) ->
  single_fragment_spread sub_selections = None ->
  get_return_type_annotation o client_schema registry true
  = recurse_outputtype_annotation type registry
      (Some (o_name ++ capitalize (alias_or_name alias name)))
  /\ get_return_type_string o client_schema registry true
     = recurse_outputtype_label type registry (Some (o_name ++ capitalize name)).
Proof.
  intros field Hname Hroot Hsel Hdef Hsub. split.
  - by eapply annotation_of_nested_fields.
  - by eapply string_of_nested_fields.
Qed.

Lemma synthesized_return_type_name_witness :
  let registry := Model.class_registry ∅ in
  (value (get_return_type_annotation PetShop.GetPet PetShop.schema registry true)
   = Ok (Subscript (Name "Optional") (Name "GetPetPet"))
   /\ value (get_return_type_string PetShop.GetPet PetShop.schema registry true)
      = Ok "Optional[GetPetPet]")
  /\ (value (get_return_type_annotation PetShop.GetPet_aliased PetShop.schema registry
               true)
      = Ok (Subscript (Name "Optional") (Name "GetPetMypet"))
      /\ value (get_return_type_string PetShop.GetPet_aliased PetShop.schema registry
                  true)
         = Ok "Optional[GetPetPet]").
Proof.
  intros registry.
  pose proof (synthesized_return_type_name PetShop.GetPet PetShop.schema registry
                "GetPet" "pet" None PetShop.Query PetShop.Pet [PetShop.leaf "species"] []
                eq_refl eq_refl eq_refl eq_refl eq_refl) as [Hannotation Hstring].
  pose proof (synthesized_return_type_name PetShop.GetPet_aliased PetShop.schema registry
                "GetPet" "pet" (Some "myPet") PetShop.Query PetShop.Pet
                [PetShop.leaf "species"] []
                eq_refl eq_refl eq_refl eq_refl eq_refl)
    as [Hannotation_aliased Hstring_aliased].
  split; split.
  - exact (f_equal value Hannotation).
  - exact (f_equal value Hstring).
  - exact (f_equal value Hannotation_aliased).
  - exact (f_equal value Hstring_aliased).
Defined.

(** ** Reasoning about the selection walker *)

(** The branches of [recurse_find_references], one equation each. *)
Section Equations.
Variables (node : FieldNode) (client_schema : GraphQLSchema)
          (registry : ReferenceRegistry).

Lemma recurse_union name :
  recurse_find_references node (GraphQLUnionType name) client_schema registry
  = (sub_nodes <- selections (field_selection_set node) ;;
     leave (for_each_return
              (union_selection (recurse_with client_schema) client_schema)
              sub_nodes registry)).
Proof. by destruct node as [? ? []]. Qed.

Lemma recurse_interface name fields :
  recurse_find_references node (GraphQLInterfaceType name fields) client_schema registry
  = (sub_nodes <- selections (field_selection_set node) ;;
     for_each (composite_selection (recurse_with client_schema) client_schema fields)
              sub_nodes registry).
Proof. by destruct node as [? ? []]. Qed.

Lemma recurse_object name fields :
  recurse_find_references node (GraphQLObjectType name fields) client_schema registry
  = (sub_nodes <- selections (field_selection_set node) ;;
     for_each (composite_selection (recurse_with client_schema) client_schema fields)
              sub_nodes registry).
Proof. by destruct node as [? ? []]. Qed.

Lemma recurse_scalar name :
  recurse_find_references node (GraphQLScalarType name) client_schema registry
  = Ok (register_scalar name registry).
Proof. by destruct node. Qed.

Lemma recurse_enum name :
  recurse_find_references node (GraphQLEnumType name) client_schema registry
  = Ok (register_enum name registry).
Proof. by destruct node. Qed.

Lemma recurse_non_null of_type :
  recurse_find_references node (GraphQLNonNull of_type) client_schema registry
  = recurse_find_references node of_type client_schema registry.
Proof. by destruct node. Qed.

Lemma recurse_list of_type :
  recurse_find_references node (GraphQLList of_type) client_schema registry
  = recurse_find_references node of_type client_schema registry.
Proof. by destruct node. Qed.

Lemma recurse_input name fields :
  recurse_find_references node (GraphQLInputObjectType name fields) client_schema registry
  = Raise (UnknownType (GraphQLInputObjectType name fields)).
Proof. by destruct node. Qed.
End Equations.

(** A relation between the registry before and after that every
    registration respects is respected by the walkers. *)
Section Invariant.
Variable R : ReferenceRegistry -> ReferenceRegistry -> Prop.
Hypothesis R_refl : forall r, R r r.
Hypothesis R_trans : forall r1 r2 r3, R r1 r2 -> R r2 r3 -> R r1 r3.
Hypothesis R_register : forall c name r, R r (register c name r).

Lemma for_each_respects {A} (body : A -> ReferenceRegistry -> result ReferenceRegistry)
    (l : list A) :
  Forall (respects R body) l -> forall r r', for_each body l r = Ok r' -> R r r'.
Proof.
  induction 1 as [|x l Hx _ IH]; intros r r'; simpl.
  - intros [= <-]. apply R_refl.
  - destruct (body x r) as [r1|] eqn:Hbody; [|done].
    intros Hrest. eapply R_trans; [by apply Hx|by apply IH].
Qed.

Lemma for_each_return_respects {A} (body : A -> ReferenceRegistry -> result Flow)
    (l : list A) :
  Forall (respects_flow R body) l ->
  forall r f, for_each_return body l r = Ok f -> R r (flow_registry f).
Proof.
  induction 1 as [|x l Hx _ IH]; intros r f; simpl.
  - intros [= <-]. apply R_refl.
  - destruct (body x r) as [[r1|r1]|] eqn:Hbody; [| |done].
    + intros Hrest. eapply R_trans; [exact (Hx _ _ Hbody)|by apply IH].
    + intros [= <-]. exact (Hx _ _ Hbody).
Qed.

Lemma recurse_find_references_respects (node : FieldNode) :
  forall graphql_type client_schema r r',
    recurse_find_references node graphql_type client_schema r = Ok r' -> R r r'.
Proof.
  induction node using field_node_induction with (Q := bodies_respect R).
  - (* a leaf *)
    intros t schema. induction t; intros r r'.
    + rewrite recurse_scalar. intros [= <-]. apply (R_register Scalars).
    + rewrite recurse_enum. intros [= <-]. apply (R_register Enums).
    + by rewrite recurse_input.
    + by rewrite recurse_object.
    + by rewrite recurse_interface.
    + by rewrite recurse_union.
    + rewrite recurse_non_null. apply IHt.
    + rewrite recurse_list. apply IHt.
  - (* a field with selections *)
    intros t schema. induction t; intros r r'.
    + rewrite recurse_scalar. intros [= <-]. apply (R_register Scalars).
    + rewrite recurse_enum. intros [= <-]. apply (R_register Enums).
    + by rewrite recurse_input.
    + rewrite recurse_object. simpl. apply for_each_respects.
      eapply Forall_impl; [eassumption|]. intros s Hs. apply Hs.
    + rewrite recurse_interface. simpl. apply for_each_respects.
      eapply Forall_impl; [eassumption|]. intros s Hs. apply Hs.
    + rewrite recurse_union. simpl.
      destruct (for_each_return _ _ _) as [f|] eqn:Hloop; [|done].
      assert (R r (flow_registry f)) as Hf.
      { eapply for_each_return_respects; [|exact Hloop].
        eapply Forall_impl; [eassumption|]. intros s Hs. apply Hs. }
      destruct f; simpl; intros [= <-]; exact Hf.
    + rewrite recurse_non_null. apply IHt.
    + rewrite recurse_list. apply IHt.
  - (* a field among the selections *)
    intros schema. repeat split.
    + intros fields r r'. simpl.
      destruct (is_typename _); [intros [= <-]; apply R_refl|].
      destruct (getitem _ _); simpl; [apply IHnode|done].
    + intros r f. simpl. intros [= <-]. apply R_refl.
    + intros tc r r'. simpl.
      destruct (type_condition_name tc); simpl; [|done].
      destruct (is_typename _); [intros [= <-]; apply R_refl|].
      destruct (getattr_fields _); simpl; [|done].
      destruct (getitem _ _); simpl; [apply IHnode|done].
    + intros tc r f. simpl.
      destruct (type_condition_name tc); simpl; [|done].
      destruct (is_typename _); [intros [= <-]; apply R_refl|].
      destruct (getattr_fields _); simpl; [|done].
      destruct (getitem _ _) as [ft|]; simpl; [|done].
      unfold recurse_with.
      destruct (recurse_find_references _ _ _ _) as [r1|] eqn:Hrec; simpl; [|done].
      intros [= <-]. simpl. by eapply IHnode.
  - (* a fragment spread *)
    intros schema. repeat split.
    + intros fields r r'. simpl. intros [= <-]. apply (R_register Fragments).
    + intros r f. simpl. intros [= <-]. apply (R_register Fragments).
    + intros tc r r'. simpl. intros [= <-]. apply R_refl.
    + intros tc r f. simpl. intros [= <-]. apply R_refl.
  - (* an inline fragment *)
    intros schema. repeat split.
    + intros fields r r'. simpl. apply for_each_respects.
      eapply Forall_impl; [eassumption|]. intros s Hs. apply Hs.
    + intros r f. simpl. apply for_each_return_respects.
      eapply Forall_impl; [eassumption|]. intros s Hs. apply Hs.
    + intros tc r r'. simpl. intros [= <-]. apply R_refl.
    + intros tc r f. simpl. intros [= <-]. apply R_refl.
Qed.

Lemma recurse_type_annotation_respects (t : TypeNode) schema r r' :
  recurse_type_annotation t schema r = Ok r' -> R r r'.
Proof.
  rewrite recurse_type_annotation_named. unfold register_named.
  destruct (get_type _ _) as [[]|]; try done; intros [= <-];
    [apply (R_register Scalars)|apply (R_register Enums)|apply (R_register Inputs)].
Qed.

Lemma root_selection_respects schema type (s : SelectionNode) :
  respects R (root_selection schema type) s.
Proof.
  intros r r'. destruct s as [f| |]; simpl; [|intros [= <-]; apply R_refl..].
  destruct (is_typename _); [intros [= <-]; apply R_refl|].
  destruct (getattr_fields _); simpl; [|done].
  destruct (getitem _ _); simpl; [|done].
  apply recurse_find_references_respects.
Qed.

Lemma create_reference_registry_respects schema document r' :
  create_reference_registry_from_documents schema document = Ok r' ->
  R Registry.empty r'.
Proof.
  unfold create_reference_registry_from_documents.
  destruct (collect_definitions _ _ _) as [[frs ops]|]; simpl; [|done].
  destruct (for_each (walk_fragment schema) _ _) as [r1|] eqn:Hfrs; simpl; [|done].
  intros Hops. eapply R_trans.
  - eapply for_each_respects; [|exact Hfrs].
    apply Forall_forall. intros fr _ r r2. unfold walk_fragment.
    apply for_each_respects, Forall_forall. intros s _.
    apply root_selection_respects.
  - eapply for_each_respects; [|exact Hops].
    apply Forall_forall. intros o _ r r2. unfold walk_operation.
    destruct (for_each _ (variable_definitions o) r) as [r3|] eqn:Hvars; simpl; [|done].
    destruct (selections _) as [sels|]; simpl; [|done].
    intros Hsels. eapply R_trans.
    + eapply for_each_respects; [|exact Hvars].
      apply Forall_forall. intros v _ ra rb. apply recurse_type_annotation_respects.
    + eapply for_each_respects; [|exact Hsels].
      apply Forall_forall. intros s _. apply root_selection_respects.
Qed.
End Invariant.

(** ** The walk of a union *)

(** In the union branch the first field of an inline fragment that is not
    [__typename] ends the walk: what follows it in the fragment, and every
    later selection of the union, is not looked at. *)
Lemma union_returns_at_first_field alias name union condition type fields
    (f : FieldNode) (more rest : list SelectionNode) schema registry :
  is_typename (field_name f) = false ->
  get_type schema condition = Some type ->
  getattr_fields (Some type) = Ok fields ->
  recurse_find_references
    (Field alias name
       (Some (InlineFragmentNode (Some condition) (FieldSelection f :: more) :: rest)))
    (GraphQLUnionType union) schema registry
  = (field_type <- getitem fields (field_name f) ;;
     recurse_find_references f field_type schema registry).
Proof.
  intros Hname Htype Hfields. rewrite recurse_union. simpl.
  rewrite Hname, Htype, Hfields. simpl.
  destruct (getitem fields (field_name f)) as [ft|]; simpl; [|done].
  unfold recurse_with. by destruct (recurse_find_references f ft schema registry).
Qed.

(** C1.  On [animal { ... on Cat { lives } ... on Dog { species }
    ...AnimalFragment }], with [animal] of a union type, the walk registers
    the scalar of the first branch and returns: the enum of the second branch
    and the fragment are missing from the registry.  The object branch of the
    walker, given the same selection set, registers all three. *)
Theorem union_walk_stops_after_first_branch :
  recurse_find_references PetShop.animal_selection PetShop.Animal PetShop.schema
    Registry.empty
  = Ok (register_scalar "Int" Registry.empty)
  /\ create_reference_registry_from_documents PetShop.schema
       [OperationDefinition PetShop.GetAnimal]
     = Ok (register_scalar "Int" Registry.empty)
  /\ ("Species" ∉ enums (register_scalar "Int" Registry.empty))
  /\ ("AnimalFragment" ∉ fragments (register_scalar "Int" Registry.empty))
  /\ recurse_find_references PetShop.animal_selection (GraphQLObjectType "Animal" ∅)
       PetShop.schema Registry.empty
     = Ok (register_fragment "AnimalFragment"
             (register_enum "Species" (register_scalar "Int" Registry.empty))).
Proof.
  split; [by vm_compute|]. split; [by vm_compute|].
  split; [simpl; set_solver|]. split; [simpl; set_solver|].
  by vm_compute.
Qed.

(** ** The [operations] set *)

(** C9.  No registration method touches the [operations] set, neither walker
    changes it, and the registry a collection run returns has it empty. *)
Theorem operations_never_populated :
  (forall c name r, operations (register c name r) = operations r)
  /\ (forall node graphql_type client_schema r r',
        recurse_find_references node graphql_type client_schema r = Ok r' ->
        operations r' = operations r)
  /\ (forall t schema r r',
        recurse_type_annotation t schema r = Ok r' -> operations r' = operations r)
  /\ (forall schema document registry,
        create_reference_registry_from_documents schema document = Ok registry ->
        operations registry = ∅).
Proof.
  set (R := fun r r' : ReferenceRegistry => operations r' = operations r).
  assert (forall r, R r r) as Hrefl by done.
  assert (forall r1 r2 r3, R r1 r2 -> R r2 r3 -> R r1 r3) as Htrans
    by (unfold R; congruence).
  assert (forall c name r, R r (register c name r)) as Hreg
    by (intros; apply operations_register).
  split; [intros; apply operations_register|].
  split; [intros ?????; by apply (recurse_find_references_respects R)|].
  split; [intros ????; by apply (recurse_type_annotation_respects R)|].
  intros schema document registry Hrun.
  by apply (create_reference_registry_respects R Hrefl Htrans Hreg) in Hrun.
Qed.

Lemma operations_never_populated_witness :
  let document := [ OperationDefinition PetShop.GetPet_fragment;
                    FragmentDefinition PetShop.PetFragment ] in
  create_reference_registry_from_documents PetShop.schema document
  = Ok (register_fragment "PetFragment" (register_scalar "String" Registry.empty))
  /\ operations (register_fragment "PetFragment"
                   (register_scalar "String" Registry.empty)) = ∅.
Proof.
  intros document.
  assert (create_reference_registry_from_documents PetShop.schema document
          = Ok (register_fragment "PetFragment"
                  (register_scalar "String" Registry.empty))) as Hrun
    by (by vm_compute).
  split; [exact Hrun|].
  exact (proj2 (proj2 (proj2 operations_never_populated)) _ _ _ Hrun).
Defined.

(** ** Definitions of the same name *)

Section Overwrite.
Context {V : Type}.
Implicit Types (d : dict V) (k : string) (v : V).

Lemma same_but_refl k d : same_but k d d.
Proof.
  induction d as [|[k0 v] d IH]; [constructor|].
  destruct (decide (k0 = k)) as [->|]; by constructor.
Qed.

Lemma setitem_same_but k v v' d : same_but k (setitem d k v) (setitem d k v').
Proof.
  induction d as [|[k0 v0] d IH]; simpl; [constructor|].
  destruct (String.eqb_spec k0 k) as [->|]; by constructor.
Qed.

Lemma same_but_setitem k d d' v : same_but k d d' -> setitem d k v = setitem d' k v.
Proof.
  induction 1 as [|v1 v2 d|k0 v0 d d' Hne _ IH]; simpl; [done| |].
  - by rewrite String.eqb_refl.
  - destruct (String.eqb_spec k0 k); [done|]. by rewrite IH.
Qed.

Lemma same_but_setitem_other k k' d d' v :
  k' <> k -> same_but k d d' -> same_but k (setitem d k' v) (setitem d' k' v).
Proof.
  intros Hne. induction 1 as [|v1 v2 d|k0 v0 d d' Hne0 Hsame IH]; simpl.
  - by repeat constructor.
  - destruct (String.eqb_spec k k'); [congruence|]. constructor.
  - destruct (String.eqb_spec k0 k'); by constructor.
Qed.

Lemma get_setitem k v d : get (setitem d k v) k = Some v.
Proof.
  induction d as [|[k0 v0] d IH]; simpl.
  - by rewrite String.eqb_refl.
  - destruct (String.eqb_spec k0 k) as [->|Hne]; simpl.
    + by rewrite String.eqb_refl.
    + by destruct (String.eqb_spec k0 k).
Qed.

Lemma get_setitem_other k k' v d : k' <> k -> get (setitem d k' v) k = get d k.
Proof.
  intros Hne. induction d as [|[k0 v0] d IH]; simpl.
  - by destruct (String.eqb_spec k' k).
  - destruct (String.eqb_spec k0 k') as [->|]; simpl.
    + by destruct (String.eqb_spec k' k).
    + by rewrite IH.
Qed.

Lemma get_values k v d : get d k = Some v -> In v (values d).
Proof.
  induction d as [|[k0 v0] d IH]; simpl; [done|].
  destruct (String.eqb k0 k); [intros [= ->]; by left|right; by apply IH].
Qed.
End Overwrite.

Lemma collect_definitions_app (l1 l2 : list DefinitionNode) frs ops :
  collect_definitions (l1 ++ l2) frs ops
  = bind (collect_definitions l1 frs ops)
         (fun '(frs', ops') => collect_definitions l2 frs' ops').
Proof.
  revert frs ops. induction l1 as [|[o|f|] l1 IH]; intros frs ops; simpl; [done| |done..].
  destruct (operation_name o); simpl; [apply IH|done].
Qed.

(** Once the later definition of the name is stored, what was stored under
    the name before does not matter. *)
Lemma collect_operations_same_but name (mid post : list DefinitionNode)
    (o2 : OperationDefinitionNode) frs ops ops' :
  op_name o2 = Some name ->
  same_but name ops ops' ->
  collect_definitions (mid ++ OperationDefinition o2 :: post) frs ops
  = collect_definitions (mid ++ OperationDefinition o2 :: post) frs ops'.
Proof.
  intros Hname. revert frs ops ops'.
  induction mid as [|[o|f|] mid IH]; intros frs ops ops' Hsame; simpl.
  - unfold operation_name. rewrite Hname. simpl.
    by rewrite (same_but_setitem _ _ _ _ Hsame).
  - destruct (operation_name o) as [n|]; simpl; [|done].
    destruct (decide (n = name)) as [->|Hne].
    + by rewrite (same_but_setitem _ _ _ _ Hsame).
    + by apply IH, same_but_setitem_other.
  - by apply IH.
  - by apply IH.
Qed.

Lemma collect_fragments_same_but name (mid post : list DefinitionNode)
    (f2 : FragmentDefinitionNode) frs frs' ops :
  frag_name f2 = name ->
  same_but name frs frs' ->
  collect_definitions (mid ++ FragmentDefinition f2 :: post) frs ops
  = collect_definitions (mid ++ FragmentDefinition f2 :: post) frs' ops.
Proof.
  intros Hname. revert frs frs' ops.
  induction mid as [|[o|f|] mid IH]; intros frs frs' ops Hsame; simpl.
  - by rewrite Hname, (same_but_setitem _ _ _ _ Hsame).
  - destruct (operation_name o) as [n|]; simpl; [|done]. by apply IH.
  - destruct (decide (frag_name f = name)) as [->|Hne].
    + by rewrite (same_but_setitem _ _ _ _ Hsame).
    + by apply IH, same_but_setitem_other.
  - by apply IH.
Qed.

(** A name keeps the definition stored under it while no later definition
    bears the name. *)
Lemma collect_definitions_get_operation name (l : list DefinitionNode) frs ops frs' ops' :
  Forall (fun d => ~ operation_named name d) l ->
  collect_definitions l frs ops = Ok (frs', ops') ->
  get ops' name = get ops name.
Proof.
  intros Hl. revert frs ops.
  induction Hl as [|[o|f|] l Hd _ IH]; intros frs ops; simpl.
  - by intros [= _ <-].
  - unfold operation_name. destruct (op_name o) as [n|] eqn:Hn; simpl; [|done].
    intros Hrest. rewrite (IH _ _ Hrest). apply get_setitem_other.
    intros ->. by apply Hd.
  - apply IH.
  - apply IH.
Qed.

Lemma collect_definitions_get_fragment name (l : list DefinitionNode) frs ops frs' ops' :
  Forall (fun d => ~ fragment_named name d) l ->
  collect_definitions l frs ops = Ok (frs', ops') ->
  get frs' name = get frs name.
Proof.
  intros Hl. revert frs ops.
  induction Hl as [|[o|f|] l Hd _ IH]; intros frs ops; simpl.
  - by intros [= <- _].
  - destruct (operation_name o); simpl; [apply IH|done].
  - intros Hrest. rewrite (IH _ _ Hrest). apply get_setitem_other.
    intros Heq. by apply Hd.
  - apply IH.
Qed.

(** ** [__typename] *)

Section Agreement.
Context {A B : Type}.

Lemma agrees_refl (a : result A) : agrees a a.
Proof. by left. Qed.

Lemma agrees_bind (m : result A) (k k' : A -> result B) :
  (forall x, agrees (k x) (k' x)) -> agrees (bind m k) (bind m k').
Proof. destruct m; simpl; [done|by left]. Qed.

Lemma agrees_bind_ok (m m' : result A) (k k' : A -> result B) :
  agrees m m' -> (forall x, agrees (k x) (k' x)) -> agrees (bind m k) (bind m' k').
Proof.
  intros [<-| ->]; [apply agrees_bind|]. intros _. by right.
Qed.
End Agreement.

Lemma agrees_leave (a b : result Flow) : agrees a b -> agrees (leave a) (leave b).
Proof. intros [<-| ->]; [by left|by right]. Qed.

Lemma field_name_without_typename f : field_name (without_typename f) = field_name f.
Proof. by destruct f as [? ? []]. Qed.

Lemma for_each_skips (body : SelectionNode -> ReferenceRegistry -> result ReferenceRegistry)
    (l : list SelectionNode) :
  Forall (skips body (fun r => r)) l ->
  forall r, agrees (for_each body l r) (for_each body (without_typename_selections l) r).
Proof.
  unfold without_typename_selections.
  induction 1 as [|s l Hs _ IH]; intros r; simpl; [apply agrees_refl|].
  unfold skips in Hs. destruct (is_typename_selection s).
  - destruct (Hs r) as [-> | ->]; [apply IH|by right].
  - simpl. destruct (Hs r) as [-> | ->]; [|by right].
    destruct (body _ r); [apply IH|apply agrees_refl].
Qed.

Lemma for_each_return_skips (body : SelectionNode -> ReferenceRegistry -> result Flow)
    (l : list SelectionNode) :
  Forall (skips body Next) l ->
  forall r, agrees (for_each_return body l r)
                   (for_each_return body (without_typename_selections l) r).
Proof.
  unfold without_typename_selections.
  induction 1 as [|s l Hs _ IH]; intros r; simpl; [apply agrees_refl|].
  unfold skips in Hs. destruct (is_typename_selection s).
  - destruct (Hs r) as [-> | ->]; [apply IH|by right].
  - simpl. destruct (Hs r) as [-> | ->]; [|by right].
    destruct (body _ r) as [[]|]; [apply IH|apply agrees_refl..].
Qed.

Lemma recurse_find_references_without_typename (node : FieldNode) :
  forall graphql_type client_schema r,
    agrees (recurse_find_references node graphql_type client_schema r)
           (recurse_find_references (without_typename node) graphql_type client_schema r).
Proof.
  induction node using field_node_induction with (Q := bodies_skip).
  - intros. apply agrees_refl.
  - intros t schema.
    change (without_typename (Field alias name (Some sels)))
      with (Field alias name (Some (without_typename_selections sels))).
    induction t; intros r.
    + rewrite !recurse_scalar. apply agrees_refl.
    + rewrite !recurse_enum. apply agrees_refl.
    + rewrite !recurse_input. apply agrees_refl.
    + rewrite !recurse_object. simpl. apply for_each_skips.
      eapply Forall_impl; [eassumption|]. intros s Hs. apply Hs.
    + rewrite !recurse_interface. simpl. apply for_each_skips.
      eapply Forall_impl; [eassumption|]. intros s Hs. apply Hs.
    + rewrite !recurse_union. simpl. apply agrees_leave, for_each_return_skips.
      eapply Forall_impl; [eassumption|]. intros s Hs. apply Hs.
    + rewrite !recurse_non_null. apply IHt.
    + rewrite !recurse_list. apply IHt.
  - (* a field among the selections *)
    intros schema. unfold skips. simpl.
    rewrite field_name_without_typename.
    destruct (is_typename (field_name node)) eqn:Hname; repeat split.
    + intros fields r. apply agrees_refl.
    + intros r. apply agrees_refl.
    + intros [cond|] r; simpl; [by left|by right].
    + intros [cond|] r; simpl; [by left|by right].
    + intros fields r. apply agrees_bind. intros ft. apply IHnode.
    + intros r. apply agrees_refl.
    + intros tc r. apply agrees_bind. intros cond.
      apply agrees_bind. intros fields. apply agrees_bind. intros ft. apply IHnode.
    + intros tc r. apply agrees_bind. intros cond.
      apply agrees_bind. intros fields. apply agrees_bind. intros ft.
      apply agrees_bind_ok; [apply IHnode|]. intros r'. apply agrees_refl.
  - (* a fragment spread *)
    intros schema. unfold skips. simpl. repeat split; intros; apply agrees_refl.
  - (* an inline fragment *)
    intros schema. unfold skips. simpl. repeat split.
    + intros fields r. apply for_each_skips.
      eapply Forall_impl; [eassumption|]. intros s Hs. apply Hs.
    + intros r. apply for_each_return_skips.
      eapply Forall_impl; [eassumption|]. intros s Hs. apply Hs.
    + intros; apply agrees_refl.
    + intros; apply agrees_refl.
Qed.

Lemma for_each_agrees_map {A} (body : A -> ReferenceRegistry -> result ReferenceRegistry)
    (g : A -> A) (l : list A) :
  (forall x r, agrees (body x r) (body (g x) r)) ->
  forall r, agrees (for_each body l r) (for_each body (map g l) r).
Proof.
  intros Hbody. induction l as [|x l IH]; intros r; simpl; [apply agrees_refl|].
  destruct (Hbody x r) as [<- | ->]; [|by right].
  destruct (body x r); [apply IH|apply agrees_refl].
Qed.

Lemma root_selection_skips schema type (s : SelectionNode) :
  skips (root_selection schema type) (fun r => r) s.
Proof.
  unfold skips. destruct s as [f| |]; simpl; [|intros; apply agrees_refl..].
  rewrite field_name_without_typename.
  destruct (is_typename (field_name f)); intros r; [apply agrees_refl|].
  apply agrees_bind. intros fields. apply agrees_bind. intros ft.
  apply recurse_find_references_without_typename.
Qed.

Lemma walk_fragment_without_typename schema f r :
  agrees (walk_fragment schema f r)
         (walk_fragment schema (without_typename_fragment f) r).
Proof.
  unfold walk_fragment. simpl. apply for_each_skips, Forall_forall.
  intros s _. apply root_selection_skips.
Qed.

Lemma walk_operation_without_typename schema o r :
  agrees (walk_operation schema o r)
         (walk_operation schema (without_typename_operation o) r).
Proof.
  unfold walk_operation. simpl. apply agrees_bind. intros r1.
  destruct (op_selection_set o) as [sels|]; simpl; [|apply agrees_refl].
  apply for_each_skips, Forall_forall. intros s _. apply root_selection_skips.
Qed.

Lemma setitem_map_values {V W} (g : V -> W) (d : dict V) k v :
  setitem (map_values g d) k (g v) = map_values g (setitem d k v).
Proof.
  induction d as [|[k0 v0] d IH]; simpl; [done|].
  destruct (String.eqb k0 k); simpl; [done|]. by rewrite IH.
Qed.

Lemma values_map_values {V W} (g : V -> W) (d : dict V) :
  values (map_values g d) = map g (values d).
Proof. unfold values, map_values. rewrite !map_map. done. Qed.

Lemma collect_definitions_without_typename (document : list DefinitionNode) frs ops :
  collect_definitions (without_typename_document document)
    (map_values without_typename_fragment frs)
    (map_values without_typename_operation ops)
  = bind (collect_definitions document frs ops)
         (fun '(frs', ops') =>
            Ok (map_values without_typename_fragment frs',
                map_values without_typename_operation ops')).
Proof.
  revert frs ops. induction document as [|[o|f|] document IH]; intros frs ops; simpl.
  - done.
  - unfold operation_name. simpl. destruct (op_name o) as [name|]; simpl; [|done].
    rewrite setitem_map_values. apply IH.
  - rewrite setitem_map_values. apply IH.
  - apply IH.
Qed.

Lemma create_reference_registry_without_typename schema document :
  agrees (create_reference_registry_from_documents schema document)
         (create_reference_registry_from_documents schema
            (without_typename_document document)).
Proof.
  unfold create_reference_registry_from_documents.
  pose proof (collect_definitions_without_typename document [] []) as Hcollect.
  simpl in Hcollect. rewrite Hcollect.
  destruct (collect_definitions document [] []) as [[frs ops]|]; simpl;
    [|apply agrees_refl].
  rewrite !values_map_values.
  apply agrees_bind_ok.
  - apply for_each_agrees_map. intros f r. apply walk_fragment_without_typename.
  - intros r. apply for_each_agrees_map. intros o r'.
    apply walk_operation_without_typename.
Qed.

(** *** Where [__typename] leaves no trace *)

Lemma for_each_skips_exactly
    (body : SelectionNode -> ReferenceRegistry -> result ReferenceRegistry)
    (l : list SelectionNode) :
  Forall (skips_exactly body (fun r => r)) l ->
  forall r, for_each body l r = for_each body (without_typename_selections l) r.
Proof.
  unfold without_typename_selections.
  induction 1 as [|s l Hs _ IH]; intros r; simpl; [done|].
  unfold skips_exactly in Hs. destruct (is_typename_selection s).
  - rewrite (Hs r). apply IH.
  - simpl. rewrite (Hs r). destruct (body _ r); [apply IH|done].
Qed.

Lemma for_each_return_skips_exactly
    (body : SelectionNode -> ReferenceRegistry -> result Flow) (l : list SelectionNode) :
  Forall (skips_exactly body Next) l ->
  forall r, for_each_return body l r
            = for_each_return body (without_typename_selections l) r.
Proof.
  unfold without_typename_selections.
  induction 1 as [|s l Hs _ IH]; intros r; simpl; [done|].
  unfold skips_exactly in Hs. destruct (is_typename_selection s).
  - rewrite (Hs r). apply IH.
  - simpl. rewrite (Hs r). destruct (body _ r) as [[]|]; [apply IH|done..].
Qed.

Lemma Forall_conditioned (Q : SelectionNode -> Prop) (sels : list SelectionNode) :
  Forall (fun s => typename_conditioned_selection s = true -> Q s) sels ->
  forallb typename_conditioned_selection sels = true ->
  Forall Q sels.
Proof.
  induction 1 as [|s l Hs _ IH]; simpl; [done|].
  intros [Hc Hl]%andb_prop. constructor; [by apply Hs|by apply IH].
Qed.

Lemma existsb_false {A} (p : A -> bool) (l : list A) :
  existsb p l = false -> Forall (fun x => p x = false) l.
Proof.
  induction l as [|x l IH]; simpl; [done|].
  intros [Hx Hl]%orb_false_elim. constructor; [done|by apply IH].
Qed.

Lemma recurse_find_references_skips_exactly (node : FieldNode) :
  typename_conditioned node = true ->
  forall graphql_type client_schema r,
    recurse_find_references node graphql_type client_schema r
    = recurse_find_references (without_typename node) graphql_type client_schema r.
Proof.
  induction node using field_node_induction
    with (Q := fun s => typename_conditioned_selection s = true -> bodies_skip_exactly s).
  - done.
  - intros Hsels t schema.
    change (without_typename (Field alias name (Some sels)))
      with (Field alias name (Some (without_typename_selections sels))).
    simpl in Hsels.
    assert (Forall bodies_skip_exactly sels) as Hall by by apply Forall_conditioned.
    induction t; intros r.
    + by rewrite !recurse_scalar.
    + by rewrite !recurse_enum.
    + by rewrite !recurse_input.
    + rewrite !recurse_object. simpl. apply for_each_skips_exactly.
      eapply Forall_impl; [exact Hall|]. intros s Hs. apply Hs.
    + rewrite !recurse_interface. simpl. apply for_each_skips_exactly.
      eapply Forall_impl; [exact Hall|]. intros s Hs. apply Hs.
    + rewrite !recurse_union. simpl. f_equal. apply for_each_return_skips_exactly.
      eapply Forall_impl; [exact Hall|]. intros s Hs. apply Hs.
    + rewrite !recurse_non_null. apply IHt.
    + rewrite !recurse_list. apply IHt.
  - (* a field among the selections *)
    intros Hnode schema. simpl in Hnode. specialize (IHnode Hnode).
    unfold skips_exactly. simpl.
    rewrite field_name_without_typename.
    destruct (is_typename (field_name node)) eqn:Hname;
      (split; [|split; [|split]]); try done.
    + by intros [cond|] [[? [=]]|?] r.
    + by intros [cond|] [[? [=]]|?] r.
    + intros fields r. destruct (getitem fields (field_name node)); simpl; [|done].
      apply IHnode.
    + intros tc _ r. destruct (type_condition_name tc); simpl; [|done].
      destruct (getattr_fields _); simpl; [|done].
      destruct (getitem _ _); simpl; [|done]. apply IHnode.
    + intros tc _ r. destruct (type_condition_name tc); simpl; [|done].
      destruct (getattr_fields _); simpl; [|done].
      destruct (getitem _ _) as [ft|]; simpl; [|done].
      unfold recurse_with. by rewrite IHnode.
  - (* a fragment spread *)
    intros _ schema. unfold skips_exactly. simpl. by repeat split.
  - (* an inline fragment *)
    intros [Hguard Hsels]%andb_prop schema.
    assert (Forall bodies_skip_exactly sels) as Hall by by apply Forall_conditioned.
    assert (Forall (fun s => is_Some type_condition \/ is_typename_selection s = false)
                   sels) as Hguards.
    { destruct type_condition as [cond|].
      - apply Forall_forall. intros s _. left. by exists cond.
      - apply negb_true_iff, existsb_false in Hguard.
        eapply Forall_impl; [exact Hguard|]. intros s Hs. by right. }
    unfold skips_exactly. simpl. split; [|split; [|split]]; try done.
    + intros fields r. apply for_each_skips_exactly.
      apply Forall_forall. intros s Hs.
      rewrite Forall_forall in Hall, Hguards. by apply Hall, Hguards.
    + intros r. apply for_each_return_skips_exactly.
      apply Forall_forall. intros s Hs.
      rewrite Forall_forall in Hall, Hguards. by apply Hall, Hguards.
Qed.

Lemma root_selection_skips_exactly schema type (l : list SelectionNode) :
  forallb typename_conditioned_root l = true ->
  forall r, for_each (root_selection schema type) l r
            = for_each (root_selection schema type) (without_typename_selections l) r.
Proof.
  intros Hl. apply for_each_skips_exactly.
  induction l as [|s l IH]; [constructor|].
  simpl in Hl. apply andb_prop in Hl as [Hs Hl]. constructor; [|by apply IH].
  unfold skips_exactly. destruct s as [f| |]; simpl; [|done..].
  rewrite field_name_without_typename.
  destruct (is_typename (field_name f)); intros r; [done|].
  destruct (getattr_fields type); simpl; [|done].
  destruct (getitem _ _); simpl; [|done].
  by apply recurse_find_references_skips_exactly.
Qed.

Lemma for_each_map_conditioned {A}
    (body : A -> ReferenceRegistry -> result ReferenceRegistry) (g : A -> A)
    (p : A -> bool) (l : list A) :
  (forall x r, p x = true -> body x r = body (g x) r) ->
  forallb p l = true ->
  forall r, for_each body l r = for_each body (map g l) r.
Proof.
  intros Hbody. induction l as [|x l IH]; simpl; [done|].
  intros [Hx Hl]%andb_prop r. rewrite <- (Hbody x r Hx).
  destruct (body x r); [by apply IH|done].
Qed.

Lemma collect_definitions_conditioned (document : list DefinitionNode) frs ops frs' ops' :
  typename_conditioned_document document = true ->
  forallb (fun f => typename_conditioned_definition (FragmentDefinition f)) (values frs)
  = true ->
  forallb (fun o => typename_conditioned_definition (OperationDefinition o)) (values ops)
  = true ->
  collect_definitions document frs ops = Ok (frs', ops') ->
  forallb (fun f => typename_conditioned_definition (FragmentDefinition f)) (values frs')
  = true
  /\ forallb (fun o => typename_conditioned_definition (OperationDefinition o))
             (values ops') = true.
Proof.
  assert (Hset : forall V (p : V -> bool) (d : dict V) k v,
            p v = true -> forallb p (values d) = true ->
            forallb p (values (setitem d k v)) = true).
  { intros V p d k v Hv. induction d as [|[k0 v0] d IH]; simpl.
    - by rewrite Hv.
    - intros [H0 Hd]%andb_prop. destruct (String.eqb k0 k); simpl.
      + by rewrite Hv, Hd.
      + by rewrite H0, IH. }
  revert frs ops. induction document as [|[o|f|] document IH]; intros frs ops; simpl.
  - by intros _ ? ? [= <- <-].
  - intros [Hd Hrest]%andb_prop Hfrs Hops.
    destruct (operation_name o) as [name|]; simpl; [|done].
    apply IH; [done..|]. by apply Hset.
  - intros [Hd Hrest]%andb_prop Hfrs Hops.
    apply IH; [done| |done]. by apply Hset.
  - intros Hrest. by apply IH.
Qed.

Lemma create_reference_registry_skips_exactly schema document :
  typename_conditioned_document document = true ->
  create_reference_registry_from_documents schema document
  = create_reference_registry_from_documents schema (without_typename_document document).
Proof.
  intros Hdocument.
  unfold create_reference_registry_from_documents.
  pose proof (collect_definitions_without_typename document [] []) as Hcollect.
  simpl in Hcollect. rewrite Hcollect.
  destruct (collect_definitions document [] []) as [[frs ops]|] eqn:Hrun; simpl; [|done].
  destruct (collect_definitions_conditioned document [] [] frs ops Hdocument
              eq_refl eq_refl Hrun) as [Hfrs Hops].
  rewrite !values_map_values.
  rewrite <- (for_each_map_conditioned (walk_fragment schema) without_typename_fragment
                _ (values frs) (fun f r H => root_selection_skips_exactly _ _ _ H r) Hfrs).
  destruct (for_each (walk_fragment schema) (values frs) Registry.empty) as [r1|];
    simpl; [|done].
  apply for_each_map_conditioned with
    (p := fun o => typename_conditioned_definition (OperationDefinition o)); [|done].
  intros o r Ho. unfold walk_operation. simpl.
  destruct (for_each _ (variable_definitions o) r); simpl; [|done].
  simpl in Ho. destruct (op_selection_set o) as [sels|]; simpl; [|done].
  by apply root_selection_skips_exactly.
Qed.

(** C8, as amended.  Taking the [__typename] fields out of a selection, at
    every depth, changes nothing, neither the registry the walk ends with
    nor the exception it raises, provided that no inline fragment without a
    type condition has a [__typename] field among its selections.  In such a
    fragment the type condition is read for every field, before the name of
    the field is looked at, and the walk stops with an [AttributeError]:
    whatever the selection, the walk and the walk of the stripped selection
    end alike or the first ends with that error.  So a [__typename] field
    adds no entry to the registry and never raises the "Unknown Type" or
    "Unknown Subtype" exception, and a selection set of [__typename] fields
    alone leaves the registry as it was. *)
Theorem typename_is_skipped (schema : GraphQLSchema) :
  (forall node graphql_type registry,
     typename_conditioned node = true ->
     recurse_find_references node graphql_type schema registry
     = recurse_find_references (without_typename node) graphql_type schema registry)
  /\ (forall document,
        typename_conditioned_document document = true ->
        create_reference_registry_from_documents schema document
        = create_reference_registry_from_documents schema
            (without_typename_document document))
  /\ (forall node graphql_type registry,
        let walk := recurse_find_references node graphql_type schema registry in
        let stripped :=
          recurse_find_references (without_typename node) graphql_type schema registry in
        (walk = stripped \/ walk = Raise (AttributeError "name"))
        /\ (forall registry', walk = Ok registry' -> stripped = Ok registry')
        /\ (forall t, walk = Raise (UnknownType t) -> stripped = Raise (UnknownType t)))
  /\ (forall document,
        let run := create_reference_registry_from_documents schema document in
        let stripped :=
          create_reference_registry_from_documents schema
            (without_typename_document document) in
        (run = stripped \/ run = Raise (AttributeError "name"))
        /\ (forall registry, run = Ok registry -> stripped = Ok registry)
        /\ (forall t, run = Raise (UnknownType t) -> stripped = Raise (UnknownType t))
        /\ (forall t, run = Raise (UnknownSubtype t) -> stripped = Raise (UnknownSubtype t)))
  /\ (forall alias name sels type_name fields registry,
        forallb is_typename_selection sels = true ->
        recurse_find_references (Field alias name (Some sels))
          (GraphQLObjectType type_name fields) schema registry = Ok registry).
Proof.
  split; [|split; [|split; [|split]]].
  - intros node t registry Hnode. by apply recurse_find_references_skips_exactly.
  - intros document Hdocument. by apply create_reference_registry_skips_exactly.
  - intros node t registry walk stripped.
    pose proof (recurse_find_references_without_typename node t schema registry) as Hagree.
    fold walk stripped in Hagree.
    split; [exact Hagree|]. split.
    + intros r' Hwalk. destruct Hagree as [<-|Hraise]; congruence.
    + intros t' Hwalk. destruct Hagree as [<-|Hraise]; congruence.
  - intros document run stripped.
    pose proof (create_reference_registry_without_typename schema document) as Hagree.
    fold run stripped in Hagree.
    split; [exact Hagree|].
    repeat split; intros ? Hrun; destruct Hagree as [<-|Hraise]; congruence.
  - intros alias name sels type_name fields registry Hsels.
    rewrite recurse_object. simpl. revert registry.
    induction sels as [|s sels IH]; intros registry; simpl; [done|].
    simpl in Hsels. apply andb_prop in Hsels as [Hs Hrest].
    destruct s as [f| |]; simpl in Hs; try done.
    simpl. rewrite Hs. by apply IH.
Qed.

Lemma typename_is_skipped_witness :
  let node := Field None "pet"
                (Some [ PetShop.leaf "__typename"; PetShop.leaf "species";
                        InlineFragmentNode (Some "Pet") [PetShop.leaf "__typename"] ]) in
  recurse_find_references node PetShop.Pet PetShop.schema Registry.empty
  = Ok (register_enum "Species" Registry.empty)
  /\ recurse_find_references node PetShop.Pet PetShop.schema Registry.empty
     = recurse_find_references (without_typename node) PetShop.Pet PetShop.schema
         Registry.empty.
Proof.
  intros node. split; [by vm_compute|].
  exact (proj1 (typename_is_skipped PetShop.schema) node PetShop.Pet Registry.empty
           eq_refl).
Defined.

(** C8 as stated fails on [pet { ... { __typename } species }]: in the inline
    fragment without a type condition the [__typename] field is no no-op,
    the walk stops on it with an [AttributeError], while the walk of the
    selection without the [__typename] field goes through and registers
    [Species].  The same holds of the collection run on
    [query GetPet { pet { ... { __typename } species } }]. *)
Lemma typename_in_untyped_inline_fragment :
  let node := Field None "pet"
                (Some [ InlineFragmentNode None [PetShop.leaf "__typename"];
                        PetShop.leaf "species" ]) in
  let document := [OperationDefinition (PetShop.query "GetPet" [FieldSelection node])] in
  recurse_find_references node PetShop.Pet PetShop.schema Registry.empty
  = Raise (AttributeError "name")
  /\ recurse_find_references (without_typename node) PetShop.Pet PetShop.schema
       Registry.empty
     = Ok (register_enum "Species" Registry.empty)
  /\ create_reference_registry_from_documents PetShop.schema document
     = Raise (AttributeError "name")
  /\ create_reference_registry_from_documents PetShop.schema
       (without_typename_document document)
     = Ok (register_enum "Species" Registry.empty)
  /\ ~ (forall node graphql_type schema registry,
         recurse_find_references node graphql_type schema registry
         = recurse_find_references (without_typename node) graphql_type schema registry).
Proof.
  intros node document.
  assert (recurse_find_references node PetShop.Pet PetShop.schema Registry.empty
          = Raise (AttributeError "name")) as Hwalk by (by vm_compute).
  assert (recurse_find_references (without_typename node) PetShop.Pet PetShop.schema
            Registry.empty
          = Ok (register_enum "Species" Registry.empty)) as Hstripped by (by vm_compute).
  split; [done|]. split; [done|]. split; [by vm_compute|]. split; [by vm_compute|].
  intros Hclaim. specialize (Hclaim node PetShop.Pet PetShop.schema Registry.empty).
  rewrite Hwalk, Hstripped in Hclaim. discriminate Hclaim.
Qed.

(** * Further properties of the referencer *)

(** ** The walkers do not read the registry *)

Section Commutation.
Variable T : ReferenceRegistry -> ReferenceRegistry.
Hypothesis T_scalar : forall name r, T (register_scalar name r) = register_scalar name (T r).
Hypothesis T_enum : forall name r, T (register_enum name r) = register_enum name (T r).
Hypothesis T_fragment :
  forall name r, T (register_fragment name r) = register_fragment name (T r).

Lemma for_each_commutes {A} (body : A -> ReferenceRegistry -> result ReferenceRegistry)
    (l : list A) :
  Forall (commutes T body) l ->
  forall r, for_each body l (T r) = map_result T (for_each body l r).
Proof.
  induction 1 as [|x l Hx _ IH]; intros r; simpl; [done|].
  rewrite (Hx r). destruct (body x r); simpl; [apply IH|done].
Qed.

Lemma for_each_return_commutes {A} (body : A -> ReferenceRegistry -> result Flow)
    (l : list A) :
  Forall (commutes_flow T body) l ->
  forall r, for_each_return body l (T r)
            = map_result (map_flow T) (for_each_return body l r).
Proof.
  induction 1 as [|x l Hx _ IH]; intros r; simpl; [done|].
  rewrite (Hx r). destruct (body x r) as [[]|]; simpl; [apply IH|done..].
Qed.

Lemma leave_map_flow (m : result Flow) :
  leave (map_result (map_flow T) m) = map_result T (leave m).
Proof. by destruct m as [[]|]. Qed.

Lemma recurse_find_references_commutes (node : FieldNode) :
  forall graphql_type client_schema r,
    recurse_find_references node graphql_type client_schema (T r)
    = map_result T (recurse_find_references node graphql_type client_schema r).
Proof.
  induction node using field_node_induction with (Q := bodies_commute T).
  - intros t schema. induction t; intros r.
    + rewrite !recurse_scalar. simpl. by rewrite T_scalar.
    + rewrite !recurse_enum. simpl. by rewrite T_enum.
    + by rewrite !recurse_input.
    + by rewrite !recurse_object.
    + by rewrite !recurse_interface.
    + by rewrite !recurse_union.
    + rewrite !recurse_non_null. apply IHt.
    + rewrite !recurse_list. apply IHt.
  - intros t schema. induction t; intros r.
    + rewrite !recurse_scalar. simpl. by rewrite T_scalar.
    + rewrite !recurse_enum. simpl. by rewrite T_enum.
    + by rewrite !recurse_input.
    + rewrite !recurse_object. simpl. apply for_each_commutes.
      eapply Forall_impl; [eassumption|]. intros s Hs. apply Hs.
    + rewrite !recurse_interface. simpl. apply for_each_commutes.
      eapply Forall_impl; [eassumption|]. intros s Hs. apply Hs.
    + rewrite !recurse_union. simpl. rewrite for_each_return_commutes.
      * apply leave_map_flow.
      * eapply Forall_impl; [eassumption|]. intros s Hs. apply Hs.
    + rewrite !recurse_non_null. apply IHt.
    + rewrite !recurse_list. apply IHt.
  - intros schema. split; [|split; [|split]].
    + intros fields r. simpl. destruct (is_typename _); [done|].
      destruct (getitem _ _); simpl; [apply IHnode|done].
    + by intros r.
    + intros tc r. simpl. destruct (type_condition_name tc); simpl; [|done].
      destruct (is_typename _); [done|].
      destruct (getattr_fields _); simpl; [|done].
      destruct (getitem _ _); simpl; [apply IHnode|done].
    + intros tc r. simpl. destruct (type_condition_name tc); simpl; [|done].
      destruct (is_typename _); [done|].
      destruct (getattr_fields _); simpl; [|done].
      destruct (getitem _ _) as [ft|]; simpl; [|done].
      unfold recurse_with. rewrite IHnode.
      by destruct (recurse_find_references _ _ _ _).
  - intros schema. split; [|split; [|split]].
    + intros fields r. simpl. by rewrite T_fragment.
    + intros r. simpl. by rewrite T_fragment.
    + by intros tc r.
    + by intros tc r.
  - intros schema. split; [|split; [|split]].
    + intros fields r. simpl. apply for_each_commutes.
      eapply Forall_impl; [eassumption|]. intros s Hs. apply Hs.
    + intros r. simpl. apply for_each_return_commutes.
      eapply Forall_impl; [eassumption|]. intros s Hs. apply Hs.
    + by intros tc r.
    + by intros tc r.
Qed.

Lemma root_selection_commutes schema type (s : SelectionNode) :
  commutes T (root_selection schema type) s.
Proof.
  intros r. destruct s as [f| |]; simpl; [|done..].
  destruct (is_typename _); [done|].
  destruct (getattr_fields _); simpl; [|done].
  destruct (getitem _ _); simpl; [|done].
  apply recurse_find_references_commutes.
Qed.

Lemma walk_fragment_commutes schema (f : FragmentDefinitionNode) :
  commutes T (walk_fragment schema) f.
Proof.
  intros r. unfold walk_fragment. apply for_each_commutes, Forall_forall.
  intros s _. apply root_selection_commutes.
Qed.

Hypothesis T_input : forall name r, T (register_input name r) = register_input name (T r).

Lemma recurse_type_annotation_commutes (t : TypeNode) schema r :
  recurse_type_annotation t schema (T r)
  = map_result T (recurse_type_annotation t schema r).
Proof.
  rewrite !recurse_type_annotation_named. unfold register_named.
  destruct (get_type _ _) as [[]|]; simpl; try done;
    by rewrite ?T_scalar, ?T_enum, ?T_input.
Qed.

Lemma walk_operation_commutes schema (o : OperationDefinitionNode) :
  commutes T (walk_operation schema) o.
Proof.
  intros r. unfold walk_operation.
  rewrite for_each_commutes.
  - destruct (for_each _ (variable_definitions o) r) as [r1|]; simpl; [|done].
    destruct (selections _) as [sels|]; simpl; [|done].
    apply for_each_commutes, Forall_forall. intros s _. apply root_selection_commutes.
  - apply Forall_forall. intros v _ r1. apply recurse_type_annotation_commutes.
Qed.
End Commutation.

Lemma merge_empty r : merge r Registry.empty = r.
Proof. destruct r. unfold merge. simpl. f_equal; set_solver. Qed.

Lemma merge_register c name r d : merge r (register c name d) = register c name (merge r d).
Proof. destruct c; apply registry_eq; simpl; set_solver. Qed.

Lemma included_merge r d : included r (merge r d).
Proof. unfold included, merge. simpl. set_solver. Qed.

(** X1.  The walkers never read the registry they fill: run on a registry
    [r], each of them does what it does on the empty registry, and its
    findings are added to [r].  So whether a walk raises, and what it raises,
    does not depend on the registry, and a walk that ends well leaves every
    set of the registry at least as large as it was. *)
Theorem walkers_add_to_the_registry (schema : GraphQLSchema) (r : ReferenceRegistry) :
  (forall node graphql_type,
     recurse_find_references node graphql_type schema r
     = map_result (merge r)
         (recurse_find_references node graphql_type schema Registry.empty))
  /\ (forall t,
        recurse_type_annotation t schema r
        = map_result (merge r) (recurse_type_annotation t schema Registry.empty))
  /\ (forall f,
        walk_fragment schema f r
        = map_result (merge r) (walk_fragment schema f Registry.empty))
  /\ (forall o,
        walk_operation schema o r
        = map_result (merge r) (walk_operation schema o Registry.empty))
  /\ (forall node graphql_type r',
        recurse_find_references node graphql_type schema r = Ok r' -> included r r')
  /\ (forall t r', recurse_type_annotation t schema r = Ok r' -> included r r').
Proof.
  pose proof (merge_register Scalars) as Hscalar.
  pose proof (merge_register Enums) as Henum.
  pose proof (merge_register Fragments) as Hfragment.
  pose proof (merge_register Inputs) as Hinput.
  simpl in Hscalar, Henum, Hfragment, Hinput.
  assert (forall node graphql_type,
            recurse_find_references node graphql_type schema r
            = map_result (merge r)
                (recurse_find_references node graphql_type schema Registry.empty))
    as Hwalk.
  { intros node t. rewrite <- (merge_empty r) at 1.
    by apply (recurse_find_references_commutes (merge r)). }
  assert (forall t,
            recurse_type_annotation t schema r
            = map_result (merge r) (recurse_type_annotation t schema Registry.empty))
    as Htype.
  { intros t. rewrite <- (merge_empty r) at 1.
    by apply (recurse_type_annotation_commutes (merge r)). }
  split; [exact Hwalk|]. split; [exact Htype|]. split; [|split; [|split]].
  - intros f. rewrite <- (merge_empty r) at 1.
    by apply (walk_fragment_commutes (merge r)).
  - intros o. rewrite <- (merge_empty r) at 1.
    by apply (walk_operation_commutes (merge r)).
  - intros node t r'. rewrite Hwalk.
    destruct (recurse_find_references node t schema Registry.empty); simpl; [|done].
    intros [= <-]. apply included_merge.
  - intros t r'. rewrite Htype.
    destruct (recurse_type_annotation t schema Registry.empty); simpl; [|done].
    intros [= <-]. apply included_merge.
Qed.

Lemma walkers_add_to_the_registry_witness :
  let r := register_type "Pet" Registry.empty in
  recurse_find_references PetShop.animal_selection (GraphQLObjectType "Animal" ∅)
    PetShop.schema r
  = Ok (merge r (register_fragment "AnimalFragment"
                   (register_enum "Species" (register_scalar "Int" Registry.empty))))
  /\ included r (merge r (register_fragment "AnimalFragment"
                   (register_enum "Species" (register_scalar "Int" Registry.empty)))).
Proof.
  intros r.
  pose proof (walkers_add_to_the_registry PetShop.schema r) as (Hwalk & _ & _ & _ & Hincl & _).
  assert (recurse_find_references PetShop.animal_selection (GraphQLObjectType "Animal" ∅)
            PetShop.schema r
          = Ok (merge r (register_fragment "AnimalFragment"
                   (register_enum "Species" (register_scalar "Int" Registry.empty)))))
    as Hrun.
  { rewrite Hwalk. by vm_compute. }
  split; [exact Hrun|]. exact (Hincl _ _ _ Hrun).
Defined.

(** ** The sets the walkers leave alone *)

Lemma with_objects_inputs_id r : with_objects_inputs (objects r) (inputs r) r = r.
Proof. by destruct r. Qed.

Lemma with_objects_fragments_id r : with_objects_fragments (objects r) (fragments r) r = r.
Proof. by destruct r. Qed.

(** X2.  [register_type] is never called: the selection walker leaves the
    [objects] and [inputs] sets as they are, the variable-type walker the
    [objects] and [fragments] sets, and the registry a collection run returns
    has no object in it. *)
Theorem objects_never_registered (schema : GraphQLSchema) :
  (forall node graphql_type r r',
     recurse_find_references node graphql_type schema r = Ok r' ->
     objects r' = objects r /\ inputs r' = inputs r)
  /\ (forall t r r',
        recurse_type_annotation t schema r = Ok r' ->
        objects r' = objects r /\ fragments r' = fragments r)
  /\ (forall document registry,
        create_reference_registry_from_documents schema document = Ok registry ->
        objects registry = ∅).
Proof.
  split; [|split].
  - intros node t r r' Hrun.
    pose proof (recurse_find_references_commutes
                  (with_objects_inputs (objects r) (inputs r))
                  (fun _ _ => eq_refl) (fun _ _ => eq_refl) (fun _ _ => eq_refl)
                  node t schema r) as Hcomm.
    rewrite with_objects_inputs_id, Hrun in Hcomm. simpl in Hcomm.
    injection Hcomm as ->. done.
  - intros t r r' Hrun.
    pose proof (recurse_type_annotation_commutes
                  (with_objects_fragments (objects r) (fragments r))
                  (fun _ _ => eq_refl) (fun _ _ => eq_refl) (fun _ _ => eq_refl)
                  t schema r) as Hcomm.
    rewrite with_objects_fragments_id, Hrun in Hcomm. simpl in Hcomm.
    injection Hcomm as ->. done.
  - intros document registry. unfold create_reference_registry_from_documents.
    destruct (collect_definitions _ _ _) as [[frs ops]|]; simpl; [|done].
    set (T := with_objects ∅).
    assert (forall l r, for_each (walk_fragment schema) l (T r)
                        = map_result T (for_each (walk_fragment schema) l r)) as Hfrs.
    { intros l r. apply (for_each_commutes T), Forall_forall. intros f _.
      by apply (walk_fragment_commutes T). }
    assert (forall l r, for_each (walk_operation schema) l (T r)
                        = map_result T (for_each (walk_operation schema) l r)) as Hops.
    { intros l r. apply (for_each_commutes T), Forall_forall. intros o _.
      by apply (walk_operation_commutes T). }
    specialize (Hfrs (values frs) Registry.empty).
    change (T Registry.empty) with Registry.empty in Hfrs.
    destruct (for_each (walk_fragment schema) (values frs) Registry.empty) as [r1|];
      simpl in *; [|done].
    injection Hfrs as Hr1. rewrite Hr1, Hops.
    destruct (for_each (walk_operation schema) (values ops) r1); simpl; [|done].
    by intros [= <-].
Qed.

Lemma objects_never_registered_witness :
  let document := [ OperationDefinition PetShop.GetPet_fragment;
                    FragmentDefinition PetShop.PetFragment ] in
  objects (register_fragment "PetFragment" (register_scalar "String" Registry.empty)) = ∅.
Proof.
  intros document.
  refine (proj2 (proj2 (objects_never_registered PetShop.schema)) document _ _).
  by vm_compute.
Defined.

(** ** Wrappers and leaves *)

Lemma named_type_not_wrapper t :
  match named_type t with
  | GraphQLNonNull _ | GraphQLList _ => False
  | _ => True
  end.
Proof. induction t; simpl; done. Qed.

(** X3.  NonNull and List wrappers, however nested, do not change the walk:
    a field is walked against the named type under them.  A field of scalar
    or enum type registers the name whatever the field selects under it (no
    selection set is looked at), and a field of an input-object type raises
    the "Unknown Type" exception, which carries the named type and not the
    wrappers. *)
Theorem wrappers_are_transparent (node : FieldNode) (graphql_type : GraphQLType)
    (schema : GraphQLSchema) (r : ReferenceRegistry) :
  recurse_find_references node graphql_type schema r
  = recurse_find_references node (named_type graphql_type) schema r
  /\ (forall name, named_type graphql_type = GraphQLScalarType name ->
        recurse_find_references node graphql_type schema r
        = Ok (register_scalar name r))
  /\ (forall name, named_type graphql_type = GraphQLEnumType name ->
        recurse_find_references node graphql_type schema r
        = Ok (register_enum name r))
  /\ (forall name fields,
        named_type graphql_type = GraphQLInputObjectType name fields ->
        recurse_find_references node graphql_type schema r
        = Raise (UnknownType (GraphQLInputObjectType name fields))).
Proof.
  assert (recurse_find_references node graphql_type schema r
          = recurse_find_references node (named_type graphql_type) schema r) as Hnamed.
  { induction graphql_type; simpl; try done.
    - by rewrite recurse_non_null.
    - by rewrite recurse_list. }
  split; [exact Hnamed|]. rewrite Hnamed.
  split; [|split].
  - intros name ->. apply recurse_scalar.
  - intros name ->. apply recurse_enum.
  - intros name fields ->. apply recurse_input.
Qed.

Lemma wrappers_are_transparent_witness :
  recurse_find_references (Field None "name" (Some [PetShop.leaf "length"]))
    (GraphQLNonNull (GraphQLList (GraphQLNonNull PetShop.String_)))
    PetShop.schema Registry.empty
  = Ok (register_scalar "String" Registry.empty).
Proof.
  exact (proj1 (proj2 (wrappers_are_transparent
                         (Field None "name" (Some [PetShop.leaf "length"]))
                         (GraphQLNonNull (GraphQLList (GraphQLNonNull PetShop.String_)))
                         PetShop.schema Registry.empty)) "String" eq_refl).
Defined.

(** ** Documents *)

Lemma collect_definitions_anonymous (document : list DefinitionNode) frs ops :
  Exists anonymous document ->
  collect_definitions document frs ops = Raise (AttributeError "value").
Proof.
  intros Hex. revert frs ops.
  induction Hex as [d l Hd|d l _ IH]; intros frs ops.
  - destruct d as [o| |]; simpl in *; try done.
    unfold operation_name. by rewrite Hd.
  - destruct d as [o|f|]; simpl; [|apply IH..].
    destruct (operation_name o) as [name|e] eqn:Hname; simpl; [apply IH|].
    unfold operation_name in Hname. destruct (op_name o); congruence.
Qed.

(** X4.  A document with an anonymous operation in it cannot be collected:
    the definitions are keyed by [definition.name.value] before anything is
    walked, so the run raises the [AttributeError] of the missing name,
    whatever else the document holds. *)
Theorem anonymous_operation_raises (schema : GraphQLSchema)
    (document : list DefinitionNode) :
  Exists anonymous document ->
  create_reference_registry_from_documents schema document
  = Raise (AttributeError "value").
Proof.
  intros Hex. unfold create_reference_registry_from_documents.
  by rewrite (collect_definitions_anonymous document [] [] Hex).
Qed.

Lemma anonymous_operation_raises_witness :
  let shorthand := {| operation := QUERY; op_name := None;
                      variable_definitions := [];
                      op_selection_set := Some [PetShop.leaf "__typename"] |} in
  create_reference_registry_from_documents PetShop.schema
    [ FragmentDefinition PetShop.PetFragment; OperationDefinition shorthand ]
  = Raise (AttributeError "value").
Proof.
  intros shorthand.
  apply anonymous_operation_raises.
  apply Exists_cons_tl, Exists_cons_hd. reflexivity.
Defined.

Lemma for_each_fields_only schema type (sels : list SelectionNode) r :
  for_each (root_selection schema type) (fields_only sels) r
  = for_each (root_selection schema type) sels r.
Proof.
  revert r. induction sels as [|s sels IH]; intros r; [done|].
  destruct s as [f| |]; [|simpl; apply IH..].
  change (fields_only (FieldSelection f :: sels))
    with (FieldSelection f :: fields_only sels).
  cbn [for_each].
  destruct (root_selection schema type (FieldSelection f) r); [apply IH|done].
Qed.

Lemma walk_fragment_top_fields schema f r :
  walk_fragment schema (top_fields_fragment f) r = walk_fragment schema f r.
Proof. unfold walk_fragment. simpl. apply for_each_fields_only. Qed.

Lemma walk_operation_top_fields schema o r :
  walk_operation schema (top_fields_operation o) r = walk_operation schema o r.
Proof.
  unfold walk_operation. simpl.
  destruct (for_each _ (variable_definitions o) r) as [r1|]; simpl; [|done].
  destruct (op_selection_set o) as [sels|]; simpl; [|done].
  apply for_each_fields_only.
Qed.

Lemma for_each_map_ext {A} (body : A -> ReferenceRegistry -> result ReferenceRegistry)
    (g : A -> A) (l : list A) :
  (forall x r, body (g x) r = body x r) ->
  forall r, for_each body (map g l) r = for_each body l r.
Proof.
  intros Hbody. induction l as [|x l IH]; intros r; simpl; [done|].
  rewrite Hbody. destruct (body x r); [apply IH|done].
Qed.

Lemma collect_definitions_top_fields (document : list DefinitionNode) frs ops :
  collect_definitions (top_fields_document document)
    (map_values top_fields_fragment frs) (map_values top_fields_operation ops)
  = map_result (fun '(frs', ops') =>
                  (map_values top_fields_fragment frs',
                   map_values top_fields_operation ops'))
      (collect_definitions document frs ops).
Proof.
  revert frs ops. induction document as [|[o|f|] document IH]; intros frs ops; simpl.
  - done.
  - unfold operation_name. simpl. destruct (op_name o) as [name|]; simpl; [|done].
    rewrite setitem_map_values. apply IH.
  - rewrite setitem_map_values. apply IH.
  - apply IH.
Qed.

(** X5.  At the top of an operation or of a fragment definition only the
    fields are walked: a fragment spread or an inline fragment written there
    is passed over, the spread is not registered and the inline fragment is
    not entered.  The run is the same with them taken out. *)
Theorem top_level_fragments_are_ignored (schema : GraphQLSchema) :
  (forall f r, walk_fragment schema f r = walk_fragment schema (top_fields_fragment f) r)
  /\ (forall o r, walk_operation schema o r
                  = walk_operation schema (top_fields_operation o) r)
  /\ (forall document,
        create_reference_registry_from_documents schema document
        = create_reference_registry_from_documents schema (top_fields_document document))
  /\ (forall o r,
        variable_definitions o = [] ->
        (exists sels, op_selection_set o = Some sels /\ fields_only sels = []) ->
        walk_operation schema o r = Ok r).
Proof.
  split; [|split; [|split]].
  - intros. symmetry. apply walk_fragment_top_fields.
  - intros. symmetry. apply walk_operation_top_fields.
  - intros document. unfold create_reference_registry_from_documents.
    pose proof (collect_definitions_top_fields document [] []) as Hcollect.
    simpl in Hcollect. rewrite Hcollect.
    destruct (collect_definitions document [] []) as [[frs ops]|]; simpl; [|done].
    rewrite !values_map_values.
    rewrite (for_each_map_ext _ _ _ (walk_fragment_top_fields schema)).
    destruct (for_each (walk_fragment schema) (values frs) Registry.empty); simpl; [|done].
    by rewrite (for_each_map_ext _ _ _ (walk_operation_top_fields schema)).
  - intros o r Hvars (sels & Hsels & Hnone).
    rewrite <- walk_operation_top_fields. unfold walk_operation. simpl.
    by rewrite Hvars, Hsels, Hnone.
Qed.

Lemma top_level_fragments_are_ignored_witness :
  let o := PetShop.query "GetPet"
             [ FragmentSpreadNode "QueryFragment";
               InlineFragmentNode (Some "Query") [PetShop.leaf "pet"] ] in
  walk_operation PetShop.schema o Registry.empty = Ok Registry.empty.
Proof.
  intros o.
  refine (proj2 (proj2 (proj2 (top_level_fragments_are_ignored PetShop.schema)))
            o Registry.empty eq_refl _).
  exists [ FragmentSpreadNode "QueryFragment";
           InlineFragmentNode (Some "Query") [PetShop.leaf "pet"] ].
  split; reflexivity.
Defined.

(** ** The order of the definitions *)

Lemma setitem_fresh {V} (d : dict V) k v :
  k ∉ map fst d -> setitem d k v = (d ++ [(k, v)])%list.
Proof.
  induction d as [|[k0 v0] d IH]; simpl; [done|].
  intros Hfresh. apply not_elem_of_cons in Hfresh as [Hne Hfresh].
  destruct (String.eqb_spec k0 k); [congruence|]. by rewrite IH.
Qed.

Lemma collect_definitions_distinct (document : list DefinitionNode) frs ops :
  NoDup (map fst frs ++ map frag_name (fragment_definitions document)) ->
  NoDup (map Some (map fst ops) ++ map op_name (operation_definitions document)) ->
  Forall (fun o => op_name o <> None) (operation_definitions document) ->
  collect_definitions document frs ops
  = Ok ((frs ++ map fragment_entry (fragment_definitions document))%list,
        (ops ++ map operation_entry (operation_definitions document))%list).
Proof.
  revert frs ops.
  induction document as [|[o|f|] document IH]; intros frs ops Hfrs Hops Hnamed; simpl.
  - by rewrite !app_nil_r.
  - simpl in Hops, Hnamed. apply Forall_cons in Hnamed as [Hname Hnamed].
    unfold operation_name.
    destruct (op_name o) as [name|] eqn:Hn; [|done]. simpl.
    assert (operation_entry o = (name, o)) as ->
      by (unfold operation_entry; by rewrite Hn).
    apply NoDup_app in Hops as (Hops1 & Hops2 & Hops3).
    assert (name ∉ map fst ops) as Hfresh.
    { intros Hin. apply (Hops2 (Some name)).
      - by apply list_elem_of_In, in_map, list_elem_of_In.
      - apply elem_of_cons. by left. }
    rewrite (setitem_fresh ops name o Hfresh).
    rewrite IH; [by rewrite <- !app_assoc| done | | done].
    rewrite !map_app. simpl. rewrite <- app_assoc. simpl.
    apply NoDup_app. split; [done|]. split; [|done].
    intros x Hx. by apply Hops2.
  - simpl in Hfrs.
    apply NoDup_app in Hfrs as (Hfrs1 & Hfrs2 & Hfrs3).
    assert (frag_name f ∉ map fst frs) as Hfresh.
    { intros Hin. apply (Hfrs2 _ Hin). apply elem_of_cons. by left. }
    rewrite (setitem_fresh frs (frag_name f) f Hfresh).
    rewrite IH; [by rewrite <- !app_assoc| | done | done].
    rewrite !map_app. simpl. rewrite <- app_assoc. simpl.
    apply NoDup_app. split; [done|]. split; [|done].
    intros x Hx. by apply Hfrs2.
  - by apply IH.
Qed.

Lemma fragment_definitions_permutation (document document' : list DefinitionNode) :
  Permutation document document' ->
  Permutation (fragment_definitions document) (fragment_definitions document').
Proof.
  induction 1 as [|d l l' _ IH|d1 d2 l|l1 l2 l3 _ IH1 _ IH2]; simpl.
  - done.
  - destruct d; by try constructor.
  - destruct d1, d2; try reflexivity. apply perm_swap.
  - by etrans.
Qed.

Lemma operation_definitions_permutation (document document' : list DefinitionNode) :
  Permutation document document' ->
  Permutation (operation_definitions document) (operation_definitions document').
Proof.
  induction 1 as [|d l l' _ IH|d1 d2 l|l1 l2 l3 _ IH1 _ IH2]; simpl.
  - done.
  - destruct d; by try constructor.
  - destruct d1, d2; try reflexivity. apply perm_swap.
  - by etrans.
Qed.

Lemma collect_definitions_named (document : list DefinitionNode) frs ops frs' ops' :
  collect_definitions document frs ops = Ok (frs', ops') ->
  Forall (fun o => op_name o <> None) (operation_definitions document).
Proof.
  revert frs ops. induction document as [|[o|f|] document IH]; intros frs ops; simpl.
  - constructor.
  - unfold operation_name. destruct (op_name o) eqn:Hn; simpl; [|done].
    intros Hrest. constructor; [congruence|]. by eapply IH.
  - apply IH.
  - apply IH.
Qed.

Lemma values_fragment_entries (l : list FragmentDefinitionNode) :
  values (map fragment_entry l) = l.
Proof. unfold values. rewrite map_map. simpl. apply map_id. Qed.

Lemma values_operation_entries (l : list OperationDefinitionNode) :
  values (map operation_entry l) = l.
Proof. unfold values. rewrite map_map. simpl. apply map_id. Qed.

Lemma merge_swap r a b : merge (merge r a) b = merge (merge r b) a.
Proof. apply registry_eq; simpl; set_solver. Qed.

(** A loop whose body only adds to the registry ends the same, when it ends
    well, in whatever order it goes through the list. *)
Lemma for_each_permutation {A}
    (body : A -> ReferenceRegistry -> result ReferenceRegistry) (l l' : list A) :
  (forall x r, body x r = map_result (merge r) (body x Registry.empty)) ->
  Permutation l l' ->
  forall r r', for_each body l r = Ok r' -> for_each body l' r = Ok r'.
Proof.
  intros Hframe. induction 1 as [|x l l' _ IH|x y l|l1 l2 l3 _ IH1 _ IH2]; intros r r'.
  - done.
  - simpl. destruct (body x r); [apply IH|done].
  - simpl. rewrite (Hframe y r), (Hframe x r).
    destruct (body y Registry.empty) as [dy|] eqn:Hy; simpl; [|done].
    rewrite (Hframe x (merge r dy)).
    destruct (body x Registry.empty) as [dx|] eqn:Hx; simpl; [|done].
    rewrite (Hframe y (merge r dx)), Hy. simpl. by rewrite merge_swap.
  - intros Hrun. by apply IH2, IH1.
Qed.

Lemma walk_fragment_frame schema f r :
  walk_fragment schema f r = map_result (merge r) (walk_fragment schema f Registry.empty).
Proof.
  rewrite <- (merge_empty r) at 1.
  apply (walk_fragment_commutes (merge r));
    intros name d;
    [apply (merge_register Scalars name r d)|apply (merge_register Enums name r d)
    |apply (merge_register Fragments name r d)].
Qed.

Lemma walk_operation_frame schema o r :
  walk_operation schema o r = map_result (merge r) (walk_operation schema o Registry.empty).
Proof.
  rewrite <- (merge_empty r) at 1.
  apply (walk_operation_commutes (merge r));
    intros name d;
    [apply (merge_register Scalars name r d)|apply (merge_register Enums name r d)
    |apply (merge_register Fragments name r d)|apply (merge_register Inputs name r d)].
Qed.

(** X6.  When no two fragments and no two operations of a document share a
    name, the registry does not depend on the order of the definitions: a run
    that ends well on the document ends with the same registry on any
    permutation of it. *)
Theorem order_of_definitions_is_immaterial (schema : GraphQLSchema)
    (document document' : list DefinitionNode) (registry : ReferenceRegistry) :
  distinct_names document ->
  Permutation document document' ->
  create_reference_registry_from_documents schema document = Ok registry ->
  create_reference_registry_from_documents schema document' = Ok registry.
Proof.
  intros [Hfrs Hops] Hperm.
  pose proof (fragment_definitions_permutation _ _ Hperm) as Hpfrs.
  pose proof (operation_definitions_permutation _ _ Hperm) as Hpops.
  unfold create_reference_registry_from_documents.
  destruct (collect_definitions document [] []) as [[frs ops]|] eqn:Hcollect;
    simpl; [|done].
  pose proof (collect_definitions_named _ _ _ _ _ Hcollect) as Hnamed.
  rewrite (collect_definitions_distinct document [] []) in Hcollect by done.
  injection Hcollect as <- <-. simpl.
  rewrite (collect_definitions_distinct document' [] []); simpl.
  - rewrite !values_fragment_entries, !values_operation_entries.
    destruct (for_each (walk_fragment schema) (fragment_definitions document)
                Registry.empty) as [r1|] eqn:Hwalk; simpl; [|done].
    rewrite (for_each_permutation _ _ _ (walk_fragment_frame schema) Hpfrs _ _ Hwalk).
    simpl. apply for_each_permutation; [apply walk_operation_frame|done].
  - by rewrite <- Hpfrs.
  - by rewrite <- Hpops.
  - by rewrite <- Hpops.
Qed.

Lemma order_of_definitions_is_immaterial_witness :
  create_reference_registry_from_documents PetShop.schema
    [ FragmentDefinition PetShop.PetFragment; OperationDefinition PetShop.GetPet_fragment ]
  = Ok (register_fragment "PetFragment" (register_scalar "String" Registry.empty)).
Proof.
  apply (order_of_definitions_is_immaterial PetShop.schema
           [ OperationDefinition PetShop.GetPet_fragment;
             FragmentDefinition PetShop.PetFragment ]).
  - split; simpl; repeat constructor; set_solver.
  - apply perm_swap.
  - by vm_compute.
Defined.

(** ** Definitions of the same name: what the registry holds *)

Lemma category_set_merge c r d :
  category_set c (merge r d) = category_set c r ∪ category_set c d.
Proof. by destruct c. Qed.

Lemma category_set_empty c : category_set c Registry.empty = ∅.
Proof. by destruct c. Qed.

(** A loop whose body only adds to the registry: what it leaves in the
    registry is what was there and what the body finds on each element. *)
Section Findings.
Context {A : Type} (body : A -> ReferenceRegistry -> result ReferenceRegistry).
Hypothesis frame :
  forall x r, body x r = map_result (merge r) (body x Registry.empty).

Lemma for_each_findings (l : list A) r r' :
  for_each body l r = Ok r' ->
  forall c name,
    name ∈ category_set c r'
    <-> name ∈ category_set c r
        \/ exists x d, In x l /\ body x Registry.empty = Ok d /\ name ∈ category_set c d.
Proof.
  revert r. induction l as [|a l IH]; intros r; simpl.
  - intros [= <-] c name. split; [by left|]. by intros [?|(x & d & [] & _)].
  - rewrite (frame a r).
    destruct (body a Registry.empty) as [d|] eqn:Hd; simpl; [|done].
    intros Hrest c name.
    rewrite (IH _ Hrest c name), category_set_merge, elem_of_union. split.
    + intros [[Hr|Ha]|(x & d' & Hin & Hx & Hname)].
      * by left.
      * right. exists a, d. split; [by left|done].
      * right. exists x, d'. split; [by right|done].
    + intros [Hr|(x & d' & [<-|Hin] & Hx & Hname)].
      * by left; left.
      * left; right. congruence.
      * right. by exists x, d'.
Qed.

Lemma for_each_all_succeed (l : list A) r r' :
  for_each body l r = Ok r' ->
  forall x, In x l -> exists d, body x Registry.empty = Ok d.
Proof.
  revert r. induction l as [|a l IH]; intros r; simpl; [done|].
  rewrite (frame a r).
  destruct (body a Registry.empty) as [d|] eqn:Hd; simpl; [|done].
  intros Hrest x [<-|Hin]; [by exists d|by eapply IH].
Qed.
End Findings.

Lemma recurse_type_annotation_frame schema t r :
  recurse_type_annotation t schema r
  = map_result (merge r) (recurse_type_annotation t schema Registry.empty).
Proof.
  rewrite <- (merge_empty r) at 1.
  apply (recurse_type_annotation_commutes (merge r));
    intros name d;
    [apply (merge_register Scalars name r d)|apply (merge_register Enums name r d)
    |apply (merge_register Inputs name r d)].
Qed.

Lemma root_selection_frame schema type s r :
  root_selection schema type s r
  = map_result (merge r) (root_selection schema type s Registry.empty).
Proof.
  rewrite <- (merge_empty r) at 1.
  apply (root_selection_commutes (merge r));
    intros name d;
    [apply (merge_register Scalars name r d)|apply (merge_register Enums name r d)
    |apply (merge_register Fragments name r d)].
Qed.

Lemma for_each_root_selection_frame schema type (sels : list SelectionNode) r :
  for_each (root_selection schema type) sels r
  = map_result (merge r) (for_each (root_selection schema type) sels Registry.empty).
Proof.
  rewrite <- (merge_empty r) at 1.
  apply (for_each_commutes (merge r)), Forall_forall. intros s _.
  apply (root_selection_commutes (merge r));
    intros name d;
    [apply (merge_register Scalars name r d)|apply (merge_register Enums name r d)
    |apply (merge_register Fragments name r d)].
Qed.

(** What the body of the loops at the top of a definition finds is what the
    selection leads to. *)
Lemma root_selection_reaches schema type s c name :
  (exists d, root_selection schema type s Registry.empty = Ok d
             /\ name ∈ category_set c d)
  <-> field_reaches schema type s c name.
Proof.
  unfold field_reaches. split.
  - intros (d & Hrun & Hname). destruct s as [f| |]; simpl in Hrun.
    + destruct (is_typename (field_name f)) eqn:Htypename.
      { injection Hrun as <-. rewrite category_set_empty in Hname. set_solver. }
      destruct (getattr_fields type) as [fields|] eqn:Hfields; simpl in Hrun; [|done].
      destruct (getitem fields (field_name f)) as [this_type|] eqn:Hitem;
        simpl in Hrun; [|done].
      by exists f, fields, this_type, d.
    + injection Hrun as <-. rewrite category_set_empty in Hname. set_solver.
    + injection Hrun as <-. rewrite category_set_empty in Hname. set_solver.
  - intros (f & fields & this_type & r & -> & Htypename & Hfields & Hitem & Hrun & Hname).
    exists r. unfold root_selection. rewrite Htypename, Hfields. cbn [bind].
    by rewrite Hitem.
Qed.

Lemma selections_reach schema type (sels : list SelectionNode) d c name :
  for_each (root_selection schema type) sels Registry.empty = Ok d ->
  name ∈ category_set c d
  <-> exists s, In s sels /\ field_reaches schema type s c name.
Proof.
  intros Hrun.
  rewrite (for_each_findings _ (root_selection_frame schema type) _ _ _ Hrun c name).
  rewrite category_set_empty. split.
  - intros [?|(s & d' & Hin & Hs & Hname)]; [set_solver|].
    exists s. split; [done|]. apply root_selection_reaches. by exists d'.
  - intros (s & Hin & (d' & Hs & Hname)%root_selection_reaches).
    right. by exists s, d'.
Qed.

Lemma walk_fragment_reaches schema f d c name :
  walk_fragment schema f Registry.empty = Ok d ->
  name ∈ category_set c d <-> reaches schema (FragmentDefinition f) c name.
Proof. apply selections_reach. Qed.

Lemma walk_operation_reaches schema o d c name :
  walk_operation schema o Registry.empty = Ok d ->
  name ∈ category_set c d <-> reaches schema (OperationDefinition o) c name.
Proof.
  unfold walk_operation. simpl.
  destruct (for_each _ (variable_definitions o) Registry.empty) as [r1|] eqn:Hvariables;
    simpl; [|done].
  destruct (op_selection_set o) as [sels|] eqn:Hsels; simpl; [|done].
  rewrite for_each_root_selection_frame.
  destruct (for_each (root_selection schema _) sels Registry.empty) as [d'|] eqn:Hfields;
    simpl; [|done].
  intros [= <-].
  rewrite category_set_merge, elem_of_union.
  rewrite (for_each_findings _ (fun v => recurse_type_annotation_frame schema (var_type v))
             _ _ _ Hvariables c name).
  rewrite category_set_empty.
  rewrite (selections_reach _ _ _ _ c name Hfields). split.
  - intros [[?|(v & r & Hin & Hv & Hname)]|(s & Hin & Hs)]; [set_solver| |].
    + left. by exists v, r.
    + right. by exists sels, s.
  - intros [(v & r & Hin & Hv & Hname)|(sels' & s & [= <-] & Hin & Hs)].
    + left; right. by exists v, r.
    + right. by exists s.
Qed.

(** The entries of the dictionaries: a set item leaves the keys distinct,
    and what is stored under another key as it was. *)
Section Entries.
Context {V : Type}.
Implicit Types (d : dict V) (k : string) (v : V).

Lemma setitem_keys d k v k0 :
  In k0 (map fst (setitem d k v)) -> k0 = k \/ In k0 (map fst d).
Proof.
  induction d as [|[k1 v1] d IH]; simpl.
  - intros [<-|[]]. by left.
  - destruct (String.eqb_spec k1 k) as [->|Hne]; simpl.
    + intros [<-|Hin]; [by left|by right; right].
    + intros [<-|Hin]; [by right; left|].
      destruct (IH Hin) as [->|?]; [by left|by right; right].
Qed.

Lemma nodup_setitem d k v : NoDup (map fst d) -> NoDup (map fst (setitem d k v)).
Proof.
  induction d as [|[k1 v1] d IH]; simpl.
  - intros _. apply NoDup_singleton.
  - rewrite NoDup_cons. intros [Hk1 Hd].
    destruct (String.eqb_spec k1 k) as [->|Hne]; simpl.
    + by apply NoDup_cons.
    + apply NoDup_cons. split; [|by apply IH].
      rewrite list_elem_of_In. intros [->|Hin]%setitem_keys; [done|].
      by apply Hk1, list_elem_of_In.
Qed.

Lemma in_setitem d k v k0 v0 :
  NoDup (map fst d) -> In (k0, v0) (setitem d k v) ->
  (k0 = k /\ v0 = v) \/ (k0 <> k /\ In (k0, v0) d).
Proof.
  induction d as [|[k1 v1] d IH]; simpl.
  - intros _ [[= <- <-]|[]]. by left.
  - rewrite NoDup_cons. intros [Hk1 Hd].
    destruct (String.eqb_spec k1 k) as [->|Hne]; simpl.
    + intros [[= <- <-]|Hin]; [by left|]. right. split; [|by right].
      intros ->. apply Hk1, list_elem_of_In. by apply (in_map fst _ (k, v0)).
    + intros [[= <- <-]|Hin]; [by right; split; [|left]|].
      destruct (IH Hd Hin) as [?|[? ?]]; [by left|]. right. split; [done|by right].
Qed.
End Entries.

(** What the first loop has stored when it is through: under every name
    the last definition of the name, and nothing else. *)
Lemma collect_definitions_operation_entries (l : list DefinitionNode) frs ops frs' ops' :
  NoDup (map fst ops) ->
  collect_definitions l frs ops = Ok (frs', ops') ->
  NoDup (map fst ops')
  /\ forall k o, In (k, o) ops' ->
       (exists before after,
          l = (before ++ OperationDefinition o :: after)%list
          /\ op_name o = Some k
          /\ Forall (fun d => ~ operation_named k d) after)
       \/ (In (k, o) ops /\ Forall (fun d => ~ operation_named k d) l).
Proof.
  revert frs ops. induction l as [|[o1|f1|] l IH]; intros frs ops Hnd; simpl.
  - intros [= <- <-]. split; [done|]. intros k o Hin. right. by split.
  - unfold operation_name. destruct (op_name o1) as [n|] eqn:Hn; simpl; [|done].
    intros Hrest.
    destruct (IH _ _ (nodup_setitem _ n o1 Hnd) Hrest) as [Hnd' Hall].
    split; [done|]. intros k o Hin.
    destruct (Hall k o Hin) as [(before & after & -> & Hname & Hafter)|[Hin1 Hl]].
    + left. by exists (OperationDefinition o1 :: before), after.
    + destruct (in_setitem _ _ _ _ _ Hnd Hin1) as [[-> ->]|[Hne Hin0]].
      * left. by exists [], l.
      * right. split; [done|]. constructor; [|done]. simpl. congruence.
  - intros Hrest. destruct (IH _ _ Hnd Hrest) as [Hnd' Hall].
    split; [done|]. intros k o Hin.
    destruct (Hall k o Hin) as [(before & after & -> & Hname & Hafter)|[Hin1 Hl]].
    + left. by exists (FragmentDefinition f1 :: before), after.
    + right. split; [done|]. constructor; [|done]. by intros [].
  - intros Hrest. destruct (IH _ _ Hnd Hrest) as [Hnd' Hall].
    split; [done|]. intros k o Hin.
    destruct (Hall k o Hin) as [(before & after & -> & Hname & Hafter)|[Hin1 Hl]].
    + left. by exists (OtherDefinition :: before), after.
    + right. split; [done|]. constructor; [|done]. by intros [].
Qed.

Lemma collect_definitions_fragment_entries (l : list DefinitionNode) frs ops frs' ops' :
  NoDup (map fst frs) ->
  collect_definitions l frs ops = Ok (frs', ops') ->
  NoDup (map fst frs')
  /\ forall k f, In (k, f) frs' ->
       (exists before after,
          l = (before ++ FragmentDefinition f :: after)%list
          /\ frag_name f = k
          /\ Forall (fun d => ~ fragment_named k d) after)
       \/ (In (k, f) frs /\ Forall (fun d => ~ fragment_named k d) l).
Proof.
  revert frs ops. induction l as [|[o1|f1|] l IH]; intros frs ops Hnd; simpl.
  - intros [= <- <-]. split; [done|]. intros k f Hin. right. by split.
  - destruct (operation_name o1) as [n|]; simpl; [|done].
    intros Hrest. destruct (IH _ _ Hnd Hrest) as [Hnd' Hall].
    split; [done|]. intros k f Hin.
    destruct (Hall k f Hin) as [(before & after & -> & Hname & Hafter)|[Hin1 Hl]].
    + left. by exists (OperationDefinition o1 :: before), after.
    + right. split; [done|]. constructor; [|done]. by intros [].
  - intros Hrest.
    destruct (IH _ _ (nodup_setitem _ (frag_name f1) f1 Hnd) Hrest) as [Hnd' Hall].
    split; [done|]. intros k f Hin.
    destruct (Hall k f Hin) as [(before & after & -> & Hname & Hafter)|[Hin1 Hl]].
    + left. by exists (FragmentDefinition f1 :: before), after.
    + destruct (in_setitem _ _ _ _ _ Hnd Hin1) as [[-> ->]|[Hne Hin0]].
      * left. by exists [], l.
      * right. split; [done|]. constructor; [|done]. simpl. congruence.
  - intros Hrest. destruct (IH _ _ Hnd Hrest) as [Hnd' Hall].
    split; [done|]. intros k f Hin.
    destruct (Hall k f Hin) as [(before & after & -> & Hname & Hafter)|[Hin1 Hl]].
    + left. by exists (OtherDefinition :: before), after.
    + right. split; [done|]. constructor; [|done]. by intros [].
Qed.

(** The definitions the two loops go through are the definitions that are
    the last of their name. *)
Lemma collected_definitions_are_last (document : list DefinitionNode) frs ops :
  collect_definitions document [] [] = Ok (frs, ops) ->
  (forall f, In f (values frs) <-> last_of_its_name document (FragmentDefinition f))
  /\ (forall o, In o (values ops) <-> last_of_its_name document (OperationDefinition o)).
Proof.
  intros Hcollect. split.
  - intros f. split.
    + intros ([k f'] & <- & Hin)%in_map_iff.
      destruct (collect_definitions_fragment_entries document [] [] frs ops
                  (NoDup_nil_2 (A:=string)) Hcollect)
        as [_ Hall].
      destruct (Hall k f' Hin) as [(before & after & -> & <- & Hafter)|[[] _]].
      by exists before, after.
    + intros (before & after & -> & Hafter).
      rewrite collect_definitions_app in Hcollect.
      destruct (collect_definitions before [] []) as [[frs0 ops0]|]; simpl in Hcollect;
        [|done].
      apply (get_values (frag_name f)).
      rewrite (collect_definitions_get_fragment _ after _ _ _ _ Hafter Hcollect).
      apply get_setitem.
  - intros o. split.
    + intros ([k o'] & <- & Hin)%in_map_iff.
      destruct (collect_definitions_operation_entries document [] [] frs ops
                  (NoDup_nil_2 (A:=string)) Hcollect)
        as [_ Hall].
      destruct (Hall k o' Hin) as [(before & after & -> & Hname & Hafter)|[[] _]].
      exists before, after. split; [done|]. by exists k.
    + intros (before & after & -> & name & Hname & Hafter).
      rewrite collect_definitions_app in Hcollect.
      destruct (collect_definitions before [] []) as [[frs0 ops0]|]; simpl in Hcollect;
        [|done].
      unfold operation_name in Hcollect. rewrite Hname in Hcollect. simpl in Hcollect.
      apply (get_values name).
      rewrite (collect_definitions_get_operation name after _ _ _ _ Hafter Hcollect).
      apply get_setitem.
Qed.

(** C10.  Of several operations (or fragments) of one name the collection
    run walks the last one only.  The registry of a run that ends well holds
    exactly the references that the definitions that are the last of their
    name lead to, through the types of their variables and through the
    fields at their top: what such a definition leads to is in the registry,
    and what is in the registry some such definition leads to.  What only an
    earlier definition of a name leads to is therefore not in it; indeed the
    run is the same, whether it ends well or raises, whatever the earlier
    definition selects. *)
Theorem last_definition_wins (schema : GraphQLSchema) :
  (forall document registry,
     create_reference_registry_from_documents schema document = Ok registry ->
     forall c name,
       name ∈ category_set c registry
       <-> exists d, last_of_its_name document d /\ reaches schema d c name)
  /\ (forall (pre mid post : list DefinitionNode) (o1 o1' o2 : OperationDefinitionNode),
        op_name o1 = op_name o2 -> op_name o1' = op_name o2 ->
        create_reference_registry_from_documents schema
          (pre ++ OperationDefinition o1 :: mid ++ OperationDefinition o2 :: post)
        = create_reference_registry_from_documents schema
            (pre ++ OperationDefinition o1' :: mid ++ OperationDefinition o2 :: post))
  /\ (forall (pre mid post : list DefinitionNode) (f1 f1' f2 : FragmentDefinitionNode),
        frag_name f1 = frag_name f2 -> frag_name f1' = frag_name f2 ->
        create_reference_registry_from_documents schema
          (pre ++ FragmentDefinition f1 :: mid ++ FragmentDefinition f2 :: post)
        = create_reference_registry_from_documents schema
            (pre ++ FragmentDefinition f1' :: mid ++ FragmentDefinition f2 :: post)).
Proof.
  split; [|split].
  - intros document registry Hrun c name.
    unfold create_reference_registry_from_documents in Hrun.
    destruct (collect_definitions document [] []) as [[frs ops]|] eqn:Hcollect;
      simpl in Hrun; [|done].
    destruct (for_each (walk_fragment schema) (values frs) Registry.empty) as [r1|]
      eqn:Hfragments; simpl in Hrun; [|done].
    destruct (collected_definitions_are_last _ _ _ Hcollect) as [Hfrs Hops].
    rewrite (for_each_findings _ (walk_operation_frame schema) _ _ _ Hrun c name).
    rewrite (for_each_findings _ (walk_fragment_frame schema) _ _ _ Hfragments c name).
    rewrite category_set_empty. split.
    + intros [[?|(f & d & Hin & Hf & Hname)]|(o & d & Hin & Ho & Hname)]; [set_solver| |].
      * exists (FragmentDefinition f). split; [by apply Hfrs|].
        by apply (walk_fragment_reaches schema f d c name Hf).
      * exists (OperationDefinition o). split; [by apply Hops|].
        by apply (walk_operation_reaches schema o d c name Ho).
    + intros ([o|f|] & Hlast & Hreaches).
      * right. apply Hops in Hlast.
        destruct (for_each_all_succeed _ (walk_operation_frame schema) _ _ _ Hrun o Hlast)
          as [d Hd].
        exists o, d. split; [done|]. split; [done|].
        by apply (walk_operation_reaches schema o d c name Hd).
      * left; right. apply Hfrs in Hlast.
        destruct (for_each_all_succeed _ (walk_fragment_frame schema) _ _ _ Hfragments
                    f Hlast) as [d Hd].
        exists f, d. split; [done|]. split; [done|].
        by apply (walk_fragment_reaches schema f d c name Hd).
      * done.
  - intros pre mid post o1 o1' o2 H1 H1'.
    unfold create_reference_registry_from_documents.
    rewrite !collect_definitions_app.
    destruct (collect_definitions pre [] []) as [[frs ops]|]; simpl; [|done].
    unfold operation_name. rewrite H1, H1'.
    destruct (op_name o2) as [name|] eqn:Hname; simpl; [|done].
    by rewrite (collect_operations_same_but name mid post o2 frs
                  (setitem ops name o1) (setitem ops name o1') Hname
                  (setitem_same_but name o1 o1' ops)).
  - intros pre mid post f1 f1' f2 H1 H1'.
    unfold create_reference_registry_from_documents.
    rewrite !collect_definitions_app.
    destruct (collect_definitions pre [] []) as [[frs ops]|]; simpl; [|done].
    rewrite H1, H1'.
    by rewrite (collect_fragments_same_but (frag_name f2) mid post f2
                  (setitem frs (frag_name f2) f1) (setitem frs (frag_name f2) f1') ops
                  eq_refl (setitem_same_but (frag_name f2) f1 f1' frs)).
Qed.

Lemma last_definition_wins_witness :
  let earlier := PetShop.query "GetPet"
                   [FieldSelection (Field None "pet" (Some [PetShop.leaf "species"]))] in
  let later := PetShop.query "GetPet"
                 [FieldSelection (Field None "pet" (Some [PetShop.leaf "name"]))] in
  let document := [OperationDefinition earlier; OperationDefinition later] in
  create_reference_registry_from_documents PetShop.schema document
  = Ok (register_scalar "String" Registry.empty)
  /\ "String" ∈ scalars (register_scalar "String" Registry.empty)
  /\ (exists d, last_of_its_name document d
                /\ reaches PetShop.schema d Scalars "String")
  /\ ~ (exists d, last_of_its_name document d
                  /\ reaches PetShop.schema d Enums "Species")
  /\ create_reference_registry_from_documents PetShop.schema
       [OperationDefinition earlier]
     = Ok (register_enum "Species" Registry.empty).
Proof.
  intros earlier later document.
  assert (create_reference_registry_from_documents PetShop.schema document
          = Ok (register_scalar "String" Registry.empty)) as Hrun by (by vm_compute).
  pose proof (proj1 (last_definition_wins PetShop.schema) document _ Hrun) as Hexact.
  split; [exact Hrun|]. split; [set_solver|]. split; [|split].
  - apply (Hexact Scalars "String"). set_solver.
  - intros Hreached. apply (Hexact Enums "Species") in Hreached. set_solver.
  - by vm_compute.
Defined.

(** * Further properties: the function synthesizer *)

Module FuncsFacts.
Import Funcs FuncsNotions.

(** ** [camel_to_snake] *)

Lemma lower_not_upper c : is_upper (lower c) = false.
Proof. destruct c as [[] [] [] [] [] [] [] []]; reflexivity. Qed.

Lemma lower_id c : is_upper c = false -> lower c = c.
Proof. destruct c as [[] [] [] [] [] [] [] []]; done. Qed.

Lemma lowercase_no_upper s : no_upper (lowercase s).
Proof.
  unfold no_upper. induction s as [|c s IH]; simpl; [done|].
  by rewrite lower_not_upper, IH.
Qed.

Lemma lowercase_id s : no_upper s -> lowercase s = s.
Proof.
  unfold no_upper. induction s as [|c s IH]; simpl; [done|].
  intros [Hc Hs]%andb_prop. apply negb_true_iff in Hc.
  by rewrite (lower_id _ Hc), IH.
Qed.

Lemma underscore_words_cons copying c rest :
  underscore_words copying (String c rest)
  = if copying && is_lower c then String c (underscore_words true rest)
    else match rest with
         | String u (String l _ as rest') =>
             if negb (is_newline c) && is_upper u && is_lower l
             then String c (String underscore (String u (underscore_words true rest')))
             else String c (underscore_words false rest)
         | _ => String c (underscore_words false rest)
         end.
Proof. by destruct rest as [|u [|l rest']]. Qed.

Lemma underscore_humps_cons c rest :
  underscore_humps (String c rest)
  = match rest with
    | String u rest' =>
        if (is_lower c || is_digit c) && is_upper u
        then String c (String underscore (String u (underscore_humps rest')))
        else String c (underscore_humps rest)
    | EmptyString => String c EmptyString
    end.
Proof. by destruct rest. Qed.

Lemma no_upper_cons c s : no_upper (String c s) <-> is_upper c = false /\ no_upper s.
Proof.
  unfold no_upper. simpl. rewrite andb_true_iff, negb_true_iff. done.
Qed.

Lemma underscore_words_id copying s : no_upper s -> underscore_words copying s = s.
Proof.
  revert copying. induction s as [|c s IH]; intros copying; [done|].
  intros [Hc Hs]%no_upper_cons. rewrite underscore_words_cons.
  destruct (copying && is_lower c); [by rewrite IH|].
  destruct s as [|u [|l s']]; [done|by rewrite IH|].
  pose proof Hs as [Hu _]%no_upper_cons.
  rewrite Hu, andb_false_r. cbn [andb]. by rewrite IH.
Qed.

Lemma underscore_humps_id s : no_upper s -> underscore_humps s = s.
Proof.
  induction s as [|c s IH]; [done|].
  intros [Hc Hs]%no_upper_cons. rewrite underscore_humps_cons.
  destruct s as [|u s']; [done|].
  pose proof Hs as [Hu _]%no_upper_cons.
  rewrite Hu, andb_false_r. by rewrite IH.
Qed.

(** X7.  [camel_to_snake] gives a name without upper-case letters, leaves a
    name that has none as it is, and so does nothing when applied twice. *)
Theorem camel_to_snake_idempotent (name : string) :
  no_upper (camel_to_snake name)
  /\ (no_upper name -> camel_to_snake name = name)
  /\ camel_to_snake (camel_to_snake name) = camel_to_snake name.
Proof.
  assert (forall s, no_upper s -> camel_to_snake s = s) as Hid.
  { intros s Hs. unfold camel_to_snake.
    by rewrite underscore_words_id, underscore_humps_id, lowercase_id. }
  split; [apply lowercase_no_upper|]. split; [apply Hid|].
  apply Hid, lowercase_no_upper.
Qed.

Lemma camel_to_snake_idempotent_witness : camel_to_snake "get_pet" = "get_pet".
Proof.
  exact (proj1 (proj2 (camel_to_snake_idempotent "get_pet")) eq_refl).
Defined.

Lemma underscore_lower c : Ascii.eqb (lower c) underscore = Ascii.eqb c underscore.
Proof. destruct c as [[] [] [] [] [] [] [] []]; reflexivity. Qed.

Lemma drop_underscores_lowercase s :
  drop_underscores (lowercase s) = lowercase (drop_underscores s).
Proof.
  induction s as [|c s IH]; simpl; [done|].
  rewrite underscore_lower. destruct (Ascii.eqb c underscore); simpl; by rewrite IH.
Qed.

Lemma drop_underscores_cons c s :
  drop_underscores (String c s)
  = if Ascii.eqb c underscore then drop_underscores s
    else String c (drop_underscores s).
Proof. done. Qed.

Lemma drop_underscores_words s :
  (forall copying, drop_underscores (underscore_words copying s) = drop_underscores s)
  /\ (forall c copying,
        drop_underscores (underscore_words copying (String c s))
        = drop_underscores (String c s)).
Proof.
  induction s as [|a s [IH1 IH2]].
  - split; [done|]. intros c copying. rewrite underscore_words_cons.
    by destruct (copying && is_lower c).
  - split; [exact (IH2 a)|]. intros c copying.
    rewrite underscore_words_cons.
    destruct (copying && is_lower c).
    { by rewrite !(drop_underscores_cons c), IH2. }
    destruct s as [|l s'].
    { by rewrite !(drop_underscores_cons c), IH2. }
    destruct (negb (is_newline c) && is_upper a && is_lower l).
    + rewrite !(drop_underscores_cons c), (drop_underscores_cons underscore).
      rewrite Ascii.eqb_refl, !(drop_underscores_cons a), IH1. done.
    + by rewrite !(drop_underscores_cons c), IH2.
Qed.

Lemma drop_underscores_humps s :
  drop_underscores (underscore_humps s) = drop_underscores s
  /\ (forall c, drop_underscores (underscore_humps (String c s))
                = drop_underscores (String c s)).
Proof.
  induction s as [|a s [IH1 IH2]].
  - done.
  - split; [exact (IH2 a)|]. intros c. rewrite underscore_humps_cons.
    destruct ((is_lower c || is_digit c) && is_upper a).
    + rewrite !(drop_underscores_cons c), (drop_underscores_cons underscore).
      rewrite Ascii.eqb_refl, !(drop_underscores_cons a), IH1. done.
    + by rewrite !(drop_underscores_cons c), IH2.
Qed.

(** X8.  [camel_to_snake] changes a name in two ways only: it puts
    underscores in and it turns upper-case letters into lower case.  With
    the underscores taken out, its result is the name in lower case. *)
Theorem camel_to_snake_inserts_underscores (name : string) :
  drop_underscores (camel_to_snake name) = lowercase (drop_underscores name).
Proof.
  unfold camel_to_snake.
  rewrite drop_underscores_lowercase.
  rewrite (proj1 (drop_underscores_humps _)).
  by rewrite (proj1 (drop_underscores_words _)).
Qed.

(** ** Computations that register imports *)

Lemma gen_bind_ok {A B} (m : Gen A) (k : A -> Gen B) b imports :
  gen_bind m k = Ok (b, imports) ->
  exists a i1 i2, m = Ok (a, i1) /\ k a = Ok (b, i2) /\ imports = (i1 ++ i2)%list.
Proof.
  unfold gen_bind. destruct m as [[a i1]|]; [|done].
  destruct (k a) as [[b' i2]|] eqn:Hk; [|done].
  intros [= <- <-]. by exists a, i1, i2.
Qed.

Lemma pure_ok {A} (m : result A) a imports :
  pure m = Ok (a, imports) -> m = Ok a /\ imports = [].
Proof. destruct m; simpl; [|done]. by intros [= <- <-]. Qed.

Lemma step_ok {A B} (m : result A) (k : A -> Gen B) (r : B * list string) :
  step m k = Ok r -> exists a, m = Ok a /\ k a = Ok r.
Proof. destruct m as [a|]; simpl; [|done]. intros Hk. by exists a. Qed.

(** A loop that ends well has gone through the list, and has registered
    what its body registered on each element, in the order of the list. *)
Lemma for_append_ok {A B} (f : A -> Gen B) (l : list A) (ys : list B)
    (imports : list string) :
  for_append f l = Ok (ys, imports) ->
  Forall2 (fun x y => value (f x) = Ok y) l ys
  /\ imports = flat_map (fun x => registered (f x)) l.
Proof.
  revert ys imports. induction l as [|x l IH]; intros ys imports; simpl.
  - intros [= <- <-]. by split.
  - intros (y & i1 & ? & Hx & (ys' & i2 & ? & Hrest & [= <- <-] & ->)%gen_bind_ok
            & ->)%gen_bind_ok.
    destruct (IH _ _ Hrest) as [Hall ->].
    rewrite Hx. simpl. rewrite app_nil_r. split; [|done].
    constructor; [|done]. by rewrite Hx.
Qed.

Lemma for_append_map {A B C} (f : A -> Gen B) (g : B -> C) (h : A -> C)
    (l : list A) (ys : list B) (imports : list string) :
  (forall x y, value (f x) = Ok y -> g y = h x) ->
  for_append f l = Ok (ys, imports) -> map g ys = map h l.
Proof.
  intros Hfg [Hall _]%for_append_ok.
  induction Hall as [|x y l ys Hxy _ IH]; simpl; [done|].
  by rewrite (Hfg _ _ Hxy), IH.
Qed.

Lemma for_append_length {A B} (f : A -> Gen B) (l : list A) (ys : list B)
    (imports : list string) :
  for_append f l = Ok (ys, imports) -> length ys = length l.
Proof. intros [Hall _]%for_append_ok. symmetry. by eapply Forall2_length. Qed.

Lemma flat_map_singleton {A B} (g : A -> B) (l : list A) :
  flat_map (fun x => [g x]) l = map g l.
Proof. induction l as [|x l IH]; simpl; [done|]. by rewrite IH. Qed.

Lemma filter_complement {A} (p q : A -> bool) (l : list A) :
  (forall x, q x = negb (p x)) ->
  Permutation (List.filter p l ++ List.filter q l) l.
Proof.
  intros Hq. induction l as [|x l IH]; simpl; [done|].
  rewrite Hq. destruct (p x); simpl.
  - by constructor.
  - rewrite <- Permutation_middle. by constructor.
Qed.

(** ** [generate_parameters] *)

Section Parameters.
Context `{Collaborators} `{Environment}.

Lemma variables_partition (o : OperationDefinitionNode) :
  Permutation (arg_variables o ++ kwarg_variables o) (variable_definitions o).
Proof.
  apply filter_complement. intros v.
  by rewrite negb_andb, negb_involutive.
Qed.

Lemma variable_arg_ok (registry : ClassRegistry) (v : VariableDefinitionNode) :
  (forall a, value (variable_arg registry v) = Ok a ->
     arg_id a = generate_parameter_name registry (variable v)
     /\ value (recurse_type_annotation (var_type v) registry) = Ok (annotation a))
  /\ registered (variable_arg registry v)
     = registered (recurse_type_annotation (var_type v) registry).
Proof.
  unfold variable_arg.
  destruct (recurse_type_annotation (var_type v) registry) as [[type i]|]; simpl; [|done].
  rewrite app_nil_r. split; [|done]. by intros a [= <-].
Qed.

Lemma variable_kwarg_ok (registry : ClassRegistry) (v : VariableDefinitionNode) :
  (forall a d, value (variable_kwarg registry v) = Ok (a, d) ->
     arg_id a = generate_parameter_name registry (variable v)
     /\ value (recurse_type_annotation (var_type v) registry) = Ok (annotation a)
     /\ default_constant v = Ok d)
  /\ forall a d i, variable_kwarg registry v = Ok (a, d, i) ->
       i = registered (recurse_type_annotation (var_type v) registry).
Proof.
  unfold variable_kwarg, variable_arg.
  destruct (recurse_type_annotation (var_type v) registry) as [[type i]|]; simpl; [|done].
  destruct (default_constant v) as [d|]; simpl; [|done].
  rewrite !app_nil_r. split.
  - by intros a d' [= <- <-].
  - by intros a d' i' [= <- <- <-].
Qed.

(** What a successful call of [generate_parameters] has appended, loop by
    loop. *)
Lemma generate_parameters_ok (definition : FunctionDefinition)
    (o : OperationDefinitionNode) (config : GeneratorConfig)
    (plugin_config : FuncsPluginConfig) (registry : ClassRegistry)
    (params : arguments) (imports : list string) :
  generate_parameters definition o config plugin_config registry = Ok (params, imports) ->
  exists pos_extra pos_variables kw_variables kw_extra i1 i2 i3 i4,
    for_append extra_arg (get_extra_args_for_onode definition plugin_config)
    = Ok (pos_extra, i1)
    /\ for_append (variable_arg registry) (arg_variables o) = Ok (pos_variables, i2)
    /\ for_append (variable_kwarg registry) (kwarg_variables o) = Ok (kw_variables, i3)
    /\ for_append extra_kwarg (get_extra_kwargs_for_onode definition plugin_config)
       = Ok (kw_extra, i4)
    /\ params = {| args := ((pos_extra ++ pos_variables)
                            ++ map fst kw_variables ++ map fst kw_extra)%list;
                   posonlyargs := []; kwonlyargs := []; kw_defaults := [];
                   defaults := (map snd kw_variables ++ map snd kw_extra)%list |}
    /\ imports = (i1 ++ i2 ++ i3 ++ i4)%list.
Proof.
  unfold generate_parameters.
  intros (pos_extra & i1 & ? & H1 & (pos_variables & i2 & ? & H2
          & (kw_variables & i3 & ? & H3 & (kw_extra & i4 & ? & H4
          & [= <- <-] & ->)%gen_bind_ok & ->)%gen_bind_ok
          & ->)%gen_bind_ok & ->)%gen_bind_ok.
  exists pos_extra, pos_variables, kw_variables, kw_extra, i1, i2, i3, i4.
  by rewrite app_nil_r.
Qed.

(** The names of the parameters, in the order of the signature. *)
Lemma generate_parameters_names (definition : FunctionDefinition)
    (o : OperationDefinitionNode) (config : GeneratorConfig)
    (plugin_config : FuncsPluginConfig) (registry : ClassRegistry)
    (params : arguments) (imports : list string) :
  generate_parameters definition o config plugin_config registry = Ok (params, imports) ->
  let extra := get_extra_args_for_onode definition plugin_config in
  let keyword := get_extra_kwargs_for_onode definition plugin_config in
  let parameter v := generate_parameter_name registry (variable v) in
  map arg_id (args params)
  = (map arg_key extra ++ map parameter (arg_variables o)
     ++ map parameter (kwarg_variables o) ++ map kwarg_key keyword)%list.
Proof.
  intros (pos_extra & pos_variables & kw_variables & kw_extra & i1 & i2 & i3 & i4
          & H1 & H2 & H3 & H4 & -> & _)%generate_parameters_ok extra keyword parameter.
  simpl. rewrite !map_app, <- app_assoc, !map_map.
  f_equal; [|f_equal; [|f_equal]].
  - eapply for_append_map; [|exact H1]. by intros a y [= <-].
  - eapply for_append_map; [|exact H2].
    intros v a Ha. by apply (variable_arg_ok registry v).
  - eapply for_append_map; [|exact H3].
    intros v [a d] Ha. by apply (proj1 (variable_kwarg_ok registry v)) in Ha as [? _].
  - eapply for_append_map; [|exact H4]. by intros k y [= <-].
Qed.

(** X9.  The parameter list [generate_parameters] builds, when it builds
    one, has a parameter for every extra argument of the configuration, for
    every variable of the operation and for every extra keyword argument, in
    this order: extra arguments, variables that are NonNull and have no
    default, the other variables, extra keyword arguments.  The defaults are
    as many as the parameters of the last two groups, so that no parameter
    without a default follows one with a default.  The imports registered
    are, in the same order, the type of every extra argument, what
    [recurse_type_annotation] registers for the type of every variable, and
    the type of every extra keyword argument. *)
Theorem generate_parameters_shape (definition : FunctionDefinition)
    (o : OperationDefinitionNode) (config : GeneratorConfig)
    (plugin_config : FuncsPluginConfig) (registry : ClassRegistry)
    (params : arguments) (imports : list string) :
  generate_parameters definition o config plugin_config registry = Ok (params, imports) ->
  let extra := get_extra_args_for_onode definition plugin_config in
  let keyword := get_extra_kwargs_for_onode definition plugin_config in
  let parameter v := generate_parameter_name registry (variable v) in
  let annotation_imports v := registered (recurse_type_annotation (var_type v) registry) in
  map arg_id (args params)
  = (map arg_key extra ++ map parameter (arg_variables o)
     ++ map parameter (kwarg_variables o) ++ map kwarg_key keyword)%list
  /\ length (defaults params) = length (kwarg_variables o) + length keyword
  /\ length (args params)
     = length extra + length (variable_definitions o) + length keyword
  /\ Permutation (arg_variables o ++ kwarg_variables o) (variable_definitions o)
  /\ posonlyargs params = [] /\ kwonlyargs params = [] /\ kw_defaults params = []
  /\ imports = (map arg_type extra
                ++ flat_map annotation_imports (arg_variables o)
                ++ flat_map annotation_imports (kwarg_variables o)
                ++ map kwarg_type keyword)%list.
Proof.
  intros Hrun extra keyword parameter annotation_imports.
  split; [exact (generate_parameters_names _ _ _ _ _ _ _ Hrun)|].
  apply generate_parameters_ok in Hrun
    as (pos_extra & pos_variables & kw_variables & kw_extra & i1 & i2 & i3 & i4
        & H1 & H2 & H3 & H4 & -> & ->).
  pose proof (for_append_length _ _ _ _ H1) as Hlength1.
  pose proof (for_append_length _ _ _ _ H2) as Hlength2.
  pose proof (for_append_length _ _ _ _ H3) as Hlength3.
  pose proof (for_append_length _ _ _ _ H4) as Hlength4.
  pose proof (variables_partition o) as Hpartition.
  simpl. split.
  { rewrite length_app, !length_map. fold keyword in Hlength4. lia. }
  split.
  { rewrite !length_app, !length_map.
    apply Permutation_length in Hpartition. rewrite length_app in Hpartition.
    fold extra in Hlength1. fold keyword in Hlength4. lia. }
  do 4 (split; [done|]).
  apply for_append_ok in H1 as [_ ->], H2 as [_ ->], H4 as [_ ->].
  assert (i3 = flat_map annotation_imports (kwarg_variables o)) as ->.
  { clear -H3. revert kw_variables i3 H3.
    induction (kwarg_variables o) as [|v l IH]; intros kw i3; simpl.
    - by intros [= <- <-].
    - intros ([a d] & j1 & ? & Hv & (kw' & j2 & ? & Hrest & [= <- <-] & ->)%gen_bind_ok
              & ->)%gen_bind_ok.
      rewrite app_nil_r, (IH _ _ Hrest).
      by rewrite (proj2 (variable_kwarg_ok registry v) _ _ _ Hv). }
  rewrite (flat_map_singleton arg_type (get_extra_args_for_onode definition plugin_config)
           : flat_map (fun a => registered (extra_arg a)) _ = _).
  rewrite (flat_map_singleton kwarg_type
             (get_extra_kwargs_for_onode definition plugin_config)
           : flat_map (fun k => registered (extra_kwarg k)) _ = _).
  rewrite (flat_map_ext (fun v => registered (variable_arg registry v)) annotation_imports)
    by (intros v; apply variable_arg_ok).
  done.
Qed.

End Parameters.

Lemma generate_parameters_shape_witness :
  let params :=
    {| args := [ {| arg_id := "client"; annotation := Name "Rath" |};
                 {| arg_id := "id"; annotation := Name "ID" |};
                 {| arg_id := "limit";
                    annotation := Subscript (Name "Optional") (Name "Int") |} ];
       posonlyargs := []; kwonlyargs := []; kw_defaults := [];
       defaults := [EConstant (PyStr "10")] |} in
  generate_parameters Example.query_proxy Example.GetPet Example.config
    Example.plugin_config Example.registry
  = Ok (params, ["rath.Rath"; "typing.Optional"])
  /\ length (defaults params) = 1.
Proof.
  intros params.
  assert (generate_parameters Example.query_proxy Example.GetPet Example.config
            Example.plugin_config Example.registry
          = Ok (params, ["rath.Rath"; "typing.Optional"])) as Hrun
    by reflexivity.
  split; [exact Hrun|].
  exact (proj1 (proj2 (generate_parameters_shape _ _ _ _ _ _ _ Hrun))).
Defined.

(** ** What the generated call passes *)

Section Call.
Context `{Collaborators} `{Environment}.

(** X10.  The call the generated function makes passes every parameter of
    the function and nothing else: the names it hands to the proxy, before
    the document, in the variable dictionary and as keywords, are the names
    of the parameters [generate_parameters] declares, each once.  The
    dictionary maps the name of every variable of the operation to the
    parameter that stands for it. *)
Theorem call_passes_the_parameters (definition : FunctionDefinition)
    (o : OperationDefinitionNode) (config : GeneratorConfig)
    (plugin_config : FuncsPluginConfig) (registry : ClassRegistry)
    (params : arguments) (imports : list string) (call : expr) :
  generate_parameters definition o config plugin_config registry = Ok (params, imports) ->
  proxy_call definition o plugin_config registry = Ok call ->
  Permutation (map (fun a => EName (arg_id a)) (args params)) (passed call)
  /\ generate_variable_dict o registry
     = EDict (map (fun v => EConstant (PyStr (variable v))) (variable_definitions o))
             (map (fun v => EName (generate_parameter_name registry (variable v)))
                  (variable_definitions o))
  /\ exists class,
       get_operation_class_name o registry = Ok class
       /\ call = ECall (EName (last_component (use definition)))
                   (generate_passing_extra_args_for_onode definition plugin_config
                    ++ [EName class; generate_variable_dict o registry])%list
                   (generate_passing_extra_kwargs_for_onode definition plugin_config).
Proof.
  intros Hparams Hcall.
  pose proof (generate_parameters_names _ _ _ _ _ _ _ Hparams) as Hnames.
  unfold proxy_call, generate_document_arg in Hcall.
  destruct (get_operation_class_name o registry) as [class|]; simpl in Hcall; [|done].
  injection Hcall as <-.
  split; [|split; [done|by exists class]].
  unfold passed. rewrite rev_app_distr. simpl. rewrite rev_involutive.
  unfold generate_passing_extra_args_for_onode, generate_passing_extra_kwargs_for_onode.
  rewrite !map_map. simpl.
  rewrite <- (map_map arg_id EName), Hnames, !map_app, !map_map.
  apply Permutation_app_head.
  rewrite app_assoc. apply Permutation_app_tail.
  rewrite <- map_app. apply Permutation_map, variables_partition.
Qed.
End Call.

Lemma call_passes_the_parameters_witness :
  Permutation [EName "client"; EName "id"; EName "limit"]
              [EName "client"; EName "limit"; EName "id"].
Proof.
  refine (proj1 (call_passes_the_parameters Example.query_proxy Example.GetPet
                   Example.config Example.plugin_config Example.registry
                   _ _ _ eq_refl eq_refl)).
Defined.

(** ** [generate_operation_func] *)

Section OperationFunc.
Context `{Collaborators} `{Environment}.
Variables (definition : FunctionDefinition) (o : OperationDefinitionNode)
          (client_schema : GraphQLSchema) (config : GeneratorConfig)
          (plugin_config : FuncsPluginConfig) (registry : ClassRegistry).

(** What a successful call of [generate_operation_func] has computed, and
    the imports it has registered, in the order of the calls: those of the
    return annotation, of the documentation string, the iterator of a
    subscription, those of the parameters and of the body. *)
Lemma generate_operation_func_ok tree imports :
  generate_operation_func definition o client_schema config plugin_config registry
  = Ok (tree, imports) ->
  exists collapse return_type doc name params body i_type i_doc i_params i_body,
    collapse_flag plugin_config o = Ok collapse
    /\ get_return_type_annotation o client_schema registry collapse
       = Ok (return_type, i_type)
    /\ generate_query_doc definition o client_schema config plugin_config registry
         collapse = Ok (doc, i_doc)
    /\ func_name definition o plugin_config config registry = Ok name
    /\ generate_parameters definition o config plugin_config registry
       = Ok (params, i_params)
    /\ body_generator definition o client_schema config plugin_config registry collapse
       = Ok (body, i_body)
    /\ tree = [function_def definition name params [doc; body]
                 (if negb (is_subscription (definition_type definition)) then return_type
                  else Subscript (Name (iterator definition)) return_type)]
    /\ imports = (i_type ++ i_doc
                  ++ (if is_subscription (operation o)
                      then [("typing." ++ iterator definition)%string] else [])
                  ++ i_params ++ i_body)%list.
Proof.
  unfold generate_operation_func, collapse_flag, func_name, body_generator,
    function_def, iterator.
  intros Hrun.
  apply step_ok in Hrun as (collapse & Hcollapse & Hrun).
  apply gen_bind_ok in Hrun as (rt & i_type & ? & Hrt & Hrun & ->).
  apply gen_bind_ok in Hrun as (doc & i_doc & ? & Hdoc & Hrun & ->).
  apply gen_bind_ok in Hrun as (tree1 & i1 & ? & Hasync & Hrun & ->).
  apply gen_bind_ok in Hrun as (tree2 & i2 & ? & Hsync & [= <- <-] & ->).
  exists collapse, rt, doc.
  destruct (is_async definition); simpl in *.
  - injection Hsync as <- <-. unfold async_function in Hasync.
    apply gen_bind_ok in Hasync as ([] & i0 & ? & Himport & Hasync & ->).
    apply step_ok in Hasync as (name & Hname & Hasync).
    apply gen_bind_ok in Hasync as (params & i_params & ? & Hparams & Hasync & ->).
    apply gen_bind_ok in Hasync as (body & i_body & ? & Hbody & [= <- <-] & ->).
    exists name, params, body, i_type, i_doc, i_params, i_body.
    repeat (split; [done|]). split.
    + by destruct (is_subscription (definition_type definition)).
    + split; [by rewrite app_nil_r|].
      rewrite !app_nil_r. do 2 f_equal.
      destruct (is_subscription (operation o)); by injection Himport as <-.
  - injection Hasync as <- <-. unfold sync_function in Hsync.
    apply gen_bind_ok in Hsync as ([] & i0 & ? & Himport & Hsync & ->).
    apply step_ok in Hsync as (name & Hname & Hsync).
    apply gen_bind_ok in Hsync as (params & i_params & ? & Hparams & Hsync & ->).
    apply gen_bind_ok in Hsync as (body & i_body & ? & Hbody & [= <- <-] & ->).
    exists name, params, body, i_type, i_doc, i_params, i_body.
    repeat (split; [done|]). split.
    + by destruct (is_subscription (definition_type definition)).
    + split; [done|].
      rewrite !app_nil_r. do 2 f_equal.
      destruct (is_subscription (operation o)); by injection Himport as <-.
Qed.
End OperationFunc.

Section GeneratedFunction.
Context `{Collaborators} `{Environment}.
Variables (definition : FunctionDefinition) (o : OperationDefinitionNode)
          (client_schema : GraphQLSchema) (config : GeneratorConfig)
          (plugin_config : FuncsPluginConfig) (registry : ClassRegistry).

(** What a successful call of one of the four body generators has built:
    the proxy call, awaited, iterated over or returned as the kind of the
    definition has it, with the attribute of the collapsed field at the end
    when the operation is collapsed. *)
Lemma body_generator_ok collapse body i_body :
  body_generator definition o client_schema config plugin_config registry collapse
  = Ok (body, i_body) ->
  i_body = [use definition]
  /\ exists call,
       proxy_call definition o plugin_config registry = Ok call
       /\ exists wrap : expr -> expr,
            (if collapse
             then exists attr, collapsed_attribute o registry = Ok attr
                               /\ wrap = fun e => EAttribute e attr
             else wrap = fun e => e)
            /\ body = match is_async definition,
                            is_subscription (definition_type definition) with
                      | true, false => SReturn (wrap (EAwait call))
                      | false, false => SReturn (wrap call)
                      | true, true =>
                          SAsyncFor (EName "event") call
                            [SExpr (EYield (wrap (EName "event")))]
                      | false, true =>
                          SFor (EName "event") call
                            [SExpr (EYield (wrap (EName "event")))]
                      end.
Proof.
  unfold body_generator.
  assert (Hgen : forall build : expr -> result stmt,
            gen_bind (register_import (use definition))
              (fun _ => pure (call <- proxy_call definition o plugin_config registry ;;
                              build call))
            = Ok (body, i_body) ->
            i_body = [use definition]
            /\ exists call, proxy_call definition o plugin_config registry = Ok call
                            /\ build call = Ok body).
  { intros build (a & i1 & i2 & Himport & [Hbody ->]%pure_ok & ->)%gen_bind_ok.
    injection Himport as _ <-. split; [done|].
    destruct (proxy_call definition o plugin_config registry) as [call|]; [|done].
    by exists call. }
  destruct (is_async definition), (is_subscription (definition_type definition));
    unfold genereate_async_call, genereate_async_iterator, genereate_sync_call,
      genereate_sync_iterator;
    intros [-> (call & Hcall & Hbody)]%Hgen;
    (split; [done|]); exists call; (split; [done|]);
    destruct collapse.
  all: try (destruct (collapsed_attribute o registry) as [attr|]; simpl in Hbody;
            [|done]; injection Hbody as <-;
            exists (fun e => EAttribute e attr); split; [by exists attr|done]).
  all: injection Hbody as <-; by exists (fun e => e).
Qed.

Lemma is_subscription_true t : is_subscription t = true <-> t = SUBSCRIPTION.
Proof. by destruct t. Qed.

(** X11.  For one definition and one operation [generate_operation_func]
    generates exactly one function: an [async def] when the definition is
    asynchronous and a [def] otherwise, named by the prefix of the
    configuration followed by the operation's name in snake case, with the
    parameters of [generate_parameters] and a body of two statements, the
    documentation string and the call.  The proxy of the definition is
    registered for import, with the imports of the parameters.  When
    collapsing is configured and the operation has no selection set,
    nothing is generated: the call fails with the assertion of
    [is_collapsable]. *)
Theorem one_function_per_definition :
  (forall tree imports,
     generate_operation_func definition o client_schema config plugin_config registry
     = Ok (tree, imports) ->
     exists f name params i_params,
       tree = [f] /\ is_function (is_async definition) f
       /\ op_name o = Some name
       /\ function_name f
          = (if is_async definition then prepend_async plugin_config
             else prepend_sync plugin_config) ++ camel_to_snake name
       /\ generate_parameters definition o config plugin_config registry
          = Ok (params, i_params)
       /\ function_params f = Some params
       /\ length (function_body f) = 2
       /\ In (use definition) imports
       /\ (forall i, In i i_params -> In i imports))
  /\ (collapse_lonely plugin_config = true -> op_selection_set o = None ->
      generate_operation_func definition o client_schema config plugin_config registry
      = Raise (AssertionError "Operation needs to have at least a selection")).
Proof.
  split.
  - intros tree imports Hrun.
    apply generate_operation_func_ok in Hrun
      as (collapse & rt & doc & name & params & body & i_type & i_doc & i_params & i_body
          & _ & _ & _ & Hname & Hparams & Hbody & -> & ->).
    apply body_generator_ok in Hbody as [-> _].
    assert (Hop : exists op, op_name o = Some op
              /\ name = (if is_async definition then prepend_async plugin_config
                         else prepend_sync plugin_config) ++ camel_to_snake op).
    { unfold func_name in Hname.
      destruct (is_async definition);
        unfold generate_async_func_name, generate_sync_func_name, operation_name in Hname;
        destruct (op_name o) as [op|]; try done;
        injection Hname as <-; by exists op. }
    destruct Hop as (op & Hop & ->).
    eexists _, op, params, i_params.
    split; [reflexivity|].
    unfold function_def.
    split; [by destruct (is_async definition)|].
    split; [done|].
    split; [by destruct (is_async definition)|].
    split; [done|].
    split; [by destruct (is_async definition)|].
    split; [by destruct (is_async definition)|].
    split.
    + rewrite !in_app_iff. do 4 right. by left.
    + intros i Hi. rewrite !in_app_iff. do 3 right. by left.
  - intros Hlonely Hnone. unfold generate_operation_func, is_collapsable.
    by rewrite Hlonely, Hnone.
Qed.
End GeneratedFunction.

Lemma one_function_per_definition_witness :
  let unselected := {| operation := QUERY; op_name := Some "GetPet";
                       variable_definitions := []; op_selection_set := None |} in
  (exists f imports,
     generate_operation_func Example.query_proxy Example.GetPet Example.schema
       Example.config Example.plugin_config Example.registry = Ok ([f], imports)
     /\ function_name f = "get_pet" /\ In "rath.turms.funcs.execute" imports)
  /\ generate_operation_func Example.query_proxy unselected Example.schema Example.config
       Example.plugin_config Example.registry
     = Raise (AssertionError "Operation needs to have at least a selection").
Proof.
  intros unselected. split.
  - pose proof (proj1 (one_function_per_definition Example.query_proxy Example.GetPet
                         Example.schema Example.config Example.plugin_config
                         Example.registry)) as Hrun.
    vm_compute in Hrun.
    destruct (Hrun _ _ eq_refl)
      as (f & name & params & i_params & Htree & _ & Hname & Hf & _ & _ & _ & Huse & _).
    exists f. eexists. injection Htree as <-. injection Hname as <-.
    split; [reflexivity|]. split; [exact Hf|exact Huse].
  - exact (proj2 (one_function_per_definition Example.query_proxy unselected
                    Example.schema Example.config Example.plugin_config
                    Example.registry)
             eq_refl eq_refl).
Defined.

Lemma collapse_flag_ok (plugin_config : FuncsPluginConfig) (o : OperationDefinitionNode)
    (collapse : bool) :
  collapse_flag plugin_config o = Ok collapse ->
  collapse = collapse_lonely plugin_config && (selection_count o =? 1)%nat.
Proof.
  unfold collapse_flag, is_collapsable, selection_count.
  destruct (collapse_lonely plugin_config); simpl.
  - destruct (op_selection_set o); [|done]. by intros [= <-].
  - by intros [= <-].
Qed.

Section Kinds.
Context `{Collaborators} `{Environment}.
Variables (definition : FunctionDefinition) (o : OperationDefinitionNode)
          (client_schema : GraphQLSchema) (config : GeneratorConfig)
          (plugin_config : FuncsPluginConfig) (registry : ClassRegistry).

(** X12.  Whether the generated function iterates is decided by the type of
    the definition: for a subscription definition the body is a loop over
    the proxy call, [async for] in an asynchronous function and [for] in a
    synchronous one, and the function returns [AsyncIterator[T]] or
    [Iterator[T]]; for any other definition the body is a [return] and the
    function returns [T], where [T] is the annotation of
    [get_return_type_annotation].  The import of the iterator is decided by
    the type of the operation instead: it is registered whenever the
    operation is a subscription. *)
Theorem subscriptions_iterate tree imports :
  generate_operation_func definition o client_schema config plugin_config registry
  = Ok (tree, imports) ->
  exists f doc body collapse return_type,
    tree = [f] /\ function_body f = [doc; body]
    /\ collapse_flag plugin_config o = Ok collapse
    /\ value (get_return_type_annotation o client_schema registry collapse)
       = Ok return_type
    /\ (if is_subscription (definition_type definition)
        then function_returns f
             = Some (Subscript (Name (if is_async definition then "AsyncIterator"
                                      else "Iterator")) return_type)
             /\ exists call yielded,
                  proxy_call definition o plugin_config registry = Ok call
                  /\ body = (if is_async definition then SAsyncFor else SFor)
                              (EName "event") call [SExpr (EYield yielded)]
        else function_returns f = Some return_type
             /\ exists returned, body = SReturn returned)
    /\ (operation o = SUBSCRIPTION ->
        In ("typing." ++ (if is_async definition then "AsyncIterator" else "Iterator"))
           imports).
Proof.
  intros Hrun.
  apply generate_operation_func_ok in Hrun
    as (collapse & rt & doc & name & params & body & i_type & i_doc & i_params & i_body
        & Hflag & Hrt & _ & _ & _ & Hbody & -> & ->).
  apply body_generator_ok in Hbody as (-> & call & Hcall & wrap & _ & ->).
  apply (f_equal value) in Hrt. simpl in Hrt.
  unfold function_def, iterator.
  destruct (is_async definition), (is_subscription (definition_type definition));
    simpl; eexists _, doc, _, collapse, rt;
    (split; [reflexivity|]); (split; [reflexivity|]);
    (split; [done|]); (split; [done|]); split.
  all: try (split; [done|]; first [by eexists | exists call; by eexists]).
  all: intros Hop; rewrite Hop; simpl; rewrite !in_app_iff; do 2 right; by left.
Qed.

(** X13.  Collapsing is decided by the configuration and the number of
    top-level selections together.  The body of the function is a [return]
    of the proxy call, awaited in an asynchronous function, or for a
    subscription definition a loop over the proxy call that yields every
    event.  With [collapse_lonely] set and exactly one selection, what is
    returned or yielded is that result with one attribute taken from it,
    named by the registry after the name of that selection, never after its
    alias.  Otherwise the result is handed back as it is, and the function is
    annotated with the class of the operation. *)
Theorem lonely_selection_is_unwrapped tree imports :
  generate_operation_func definition o client_schema config plugin_config registry
  = Ok (tree, imports) ->
  exists f doc body call (unwrap : expr -> expr),
    tree = [f] /\ function_body f = [doc; body]
    /\ proxy_call definition o plugin_config registry = Ok call
    /\ body = (if is_subscription (definition_type definition)
               then (if is_async definition then SAsyncFor else SFor)
                      (EName "event") call [SExpr (EYield (unwrap (EName "event")))]
               else SReturn (unwrap (if is_async definition then EAwait call else call)))
    /\ if collapse_lonely plugin_config && (selection_count o =? 1)%nat
       then exists lonely name,
              op_selection_set o = Some [lonely]
              /\ getattr_name lonely = Ok name
              /\ unwrap = (fun e => EAttribute e (generate_node_name registry name))
       else unwrap = (fun e => e)
            /\ exists class,
                 get_operation_class_name o registry = Ok class
                 /\ function_returns f
                    = Some (if is_subscription (definition_type definition)
                            then Subscript (Name (if is_async definition
                                                  then "AsyncIterator" else "Iterator"))
                                           (Name class)
                            else Name class).
Proof.
  intros Hrun.
  apply generate_operation_func_ok in Hrun
    as (collapse & rt & doc & name & params & body & i_type & i_doc & i_params & i_body
        & Hflag & Hrt & _ & _ & _ & Hbody & -> & ->).
  apply collapse_flag_ok in Hflag as ->.
  apply body_generator_ok in Hbody as (-> & call & Hcall & wrap & Hwrap & ->).
  assert (Hshape :
    if collapse_lonely plugin_config && (selection_count o =? 1)%nat
    then exists lonely name,
           op_selection_set o = Some [lonely]
           /\ getattr_name lonely = Ok name
           /\ wrap = fun e => EAttribute e (generate_node_name registry name)
    else wrap = (fun e => e)
         /\ exists class, get_operation_class_name o registry = Ok class
                          /\ rt = Name class).
  { destruct (collapse_lonely plugin_config && (selection_count o =? 1)%nat)
      eqn:Hcollapse.
    - destruct Hwrap as (attr & Hattr & ->).
      apply andb_prop in Hcollapse as [_ Hone%Nat.eqb_eq].
      unfold collapsed_attribute, selection_count in *.
      destruct (op_selection_set o) as [[|lonely [|]]|]; try done.
      simpl in *.
      destruct (getattr_name lonely) as [field|] eqn:Hfield; [|done].
      simpl in Hattr. injection Hattr as <-. by exists lonely, field.
    - split; [done|].
      unfold get_return_type_annotation in Hrt.
      destruct (get_operation_class_name o registry) as [class|]; [|done].
      simpl in Hrt.
      destruct (get_operation_root_type client_schema o); [|done].
      simpl in Hrt. injection Hrt as <- _.
      by exists class. }
  clear Hwrap Hrt.
  unfold function_def, iterator.
  exists (if is_async definition
          then AsyncFunctionDef name params
                 [doc; if is_subscription (definition_type definition)
                       then SAsyncFor (EName "event") call
                              [SExpr (EYield (wrap (EName "event")))]
                       else SReturn (wrap (EAwait call))]
                 (if negb (is_subscription (definition_type definition)) then rt
                  else Subscript (Name "AsyncIterator") rt)
          else FunctionDef name params
                 [doc; if is_subscription (definition_type definition)
                       then SFor (EName "event") call
                              [SExpr (EYield (wrap (EName "event")))]
                       else SReturn (wrap call)]
                 (if negb (is_subscription (definition_type definition)) then rt
                  else Subscript (Name "Iterator") rt)),
         doc,
         (if is_subscription (definition_type definition)
          then (if is_async definition then SAsyncFor else SFor)
                 (EName "event") call [SExpr (EYield (wrap (EName "event")))]
          else SReturn (wrap (if is_async definition then EAwait call else call))),
         call, wrap.
  split; [by destruct (is_async definition),
                      (is_subscription (definition_type definition))|].
  split; [by destruct (is_async definition),
                      (is_subscription (definition_type definition))|].
  split; [done|]. split; [done|].
  destruct (collapse_lonely plugin_config && (selection_count o =? 1)%nat); [done|].
  destruct Hshape as (-> & class & Hclass & ->). split; [done|].
  exists class. split; [done|].
  by destruct (is_async definition), (is_subscription (definition_type definition)).
Qed.

(** An operation without a name generates no function. *)
Lemma generate_operation_func_anonymous :
  op_name o = None ->
  exists e,
    generate_operation_func definition o client_schema config plugin_config registry
    = Raise e.
Proof.
  intros Hname.
  unfold generate_operation_func, is_collapsable, get_return_type_annotation,
    get_operation_class_name, operation_name.
  rewrite Hname.
  destruct (collapse_lonely plugin_config); simpl;
    [destruct (op_selection_set o); simpl|]; by eexists.
Qed.
End Kinds.

Lemma subscriptions_iterate_witness :
  exists f, generate_operation_func Example.subscription_proxy Example.WatchPet
              Example.schema Example.config Example.plugin_config Example.registry
            = Ok ([f], ["typing.Optional"; "typing.AsyncIterator";
                        "rath.turms.funcs.asubscribe"])
            /\ function_returns f
               = Some (Subscript (Name "AsyncIterator")
                         (Subscript (Name "Optional") (Name "WatchPetPet"))).
Proof.
  pose proof (subscriptions_iterate Example.subscription_proxy Example.WatchPet
                Example.schema Example.config Example.plugin_config Example.registry)
    as Hrun.
  vm_compute in Hrun.
  destruct (Hrun _ _ eq_refl)
    as (f & doc & body & collapse & rt & Htree & _ & Hflag & Hrt & [Hreturns _] & _).
  exists f. injection Htree as <-.
  injection Hflag as <-. injection Hrt as <-.
  split; [reflexivity|exact Hreturns].
Defined.

Lemma lonely_selection_is_unwrapped_witness :
  exists f imports,
    generate_operation_func Example.query_proxy PetShop.GetPet_aliased Example.schema
      Example.config Example.plugin_config Example.registry
    = Ok ([f], imports)
    /\ nth_error (function_body f) 1
       = Some (SReturn
                 (EAttribute
                    (ECall (EName "execute")
                       [EName "client"; EName "GetPet"; EDict [] []] [])
                    "pet")).
Proof.
  pose proof (lonely_selection_is_unwrapped Example.query_proxy PetShop.GetPet_aliased
                Example.schema Example.config Example.plugin_config Example.registry)
    as Hrun.
  vm_compute in Hrun.
  destruct (Hrun _ _ eq_refl)
    as (f & doc & body & call & unwrap & Htree & Hbody & Hcall & -> & lonely & name
        & Hsel & Hname & ->).
  exists f. eexists. injection Htree as <-.
  split; [reflexivity|].
  injection Hbody as <-. injection Hcall as <-.
  injection Hsel as <-. injection Hname as <-. reflexivity.
Defined.

(** ** The plugin *)

Lemma for_extend_raise {A B} (f : A -> Gen (list B)) (l : list A) (x : A) :
  In x l -> (exists e, f x = Raise e) -> exists e, for_extend f l = Raise e.
Proof.
  intros Hin [e Hx]. induction l as [|y l IH]; [done|].
  simpl. destruct Hin as [->|Hin].
  - rewrite Hx. by exists e.
  - destruct (IH Hin) as [e' ->].
    destruct (f y) as [[ys i]|e'']; simpl; by eexists.
Qed.

Section PluginFacts.
Context `{Collaborators} `{Environment}.
Variables (self_config : FuncsPluginConfig) (client_schema : GraphQLSchema)
          (config : GeneratorConfig) (registry : ClassRegistry).

(** The inner loop of [generate_ast]: one function per definition. *)
Lemma functions_of_operation (o : OperationDefinitionNode)
    (ds : list FunctionDefinition) tree imports :
  for_extend (fun definition =>
                generate_operation_func definition o client_schema config self_config
                  registry) ds
  = Ok (tree, imports) ->
  length tree = length ds
  /\ forall f, In f tree ->
       exists definition i,
         In definition ds
         /\ generate_operation_func definition o client_schema config self_config registry
            = Ok ([f], i)
         /\ incl i imports.
Proof.
  revert tree imports. induction ds as [|d ds IH]; intros tree imports.
  - intros [= <- <-]. by split.
  - simpl.
    intros (ys & i1 & i2 & Hd & (ys' & i3 & i4 & Hrest & [= <- <-] & ->)%gen_bind_ok
            & ->)%gen_bind_ok.
    destruct (IH _ _ Hrest) as [Hlength Hall].
    pose proof Hd as Hone.
    apply generate_operation_func_ok in Hone
      as (? & ? & ? & ? & ? & ? & ? & ? & ? & ? & _ & _ & _ & _ & _ & _ & Hys & _).
    subst ys. split; [simpl; by rewrite Hlength|].
    intros f [<-|Hf].
    + eexists d, i1. split; [by left|]. split; [exact Hd|].
      intros i Hi. apply in_or_app. by left.
    + destruct (Hall f Hf) as (definition & i & Hin & Hrun & Hincl).
      exists definition, i. split; [by right|]. split; [done|].
      intros j Hj. apply in_or_app. right. apply in_or_app. left. by apply Hincl.
Qed.

(** X14.  [generate_ast] swallows the absence of documents and generates
    nothing then, and lets any other failure of the parser through.  From
    parsed documents it generates, for every operation, one function per
    definition of the configuration whose type is the type of the operation,
    and nothing else: the number of statements is the number of such pairs,
    every statement is the function [generate_operation_func] generates for
    such a pair, and the imports of that function are among the imports of
    the plugin. *)
Theorem one_function_per_operation_and_definition :
  match parse_documents client_schema (glob_or_documents self_config config) with
  | NoDocumentsFoundError =>
      generate_ast self_config client_schema config registry = Ok ([], [])
  | ParseError e => generate_ast self_config client_schema config registry = Raise e
  | Documents definitions =>
      forall tree imports,
        generate_ast self_config client_schema config registry = Ok (tree, imports) ->
        length tree
        = list_sum (map (matching self_config) (operation_definitions definitions))
        /\ forall f, In f tree ->
             exists o definition i,
               In o (operation_definitions definitions)
               /\ In definition (Funcs.definitions self_config)
               /\ definition_type definition = operation o
               /\ generate_operation_func definition o client_schema config self_config
                    registry = Ok ([f], i)
               /\ incl i imports
  end.
Proof.
  unfold generate_ast.
  destruct (parse_documents client_schema (glob_or_documents self_config config))
    as [definitions| |e]; [|done..].
  generalize (operation_definitions definitions) as os. clear definitions.
  induction os as [|o os IH]; intros tree imports.
  - intros [= <- <-]. by split.
  - cbn [for_extend].
    intros (ys & i1 & i2 & Ho & (ys' & i3 & i4 & Hrest & [= <- <-] & ->)%gen_bind_ok
            & ->)%gen_bind_ok.
    destruct (IH _ _ Hrest) as [Hlength Hall].
    apply functions_of_operation in Ho as [Hlength_o Hall_o].
    split.
    + rewrite length_app, Hlength, Hlength_o. reflexivity.
    + intros f [Hf|Hf]%in_app_or.
      * destruct (Hall_o f Hf) as (definition & i & Hin & Hrun & Hincl).
        unfold get_definitions_for_onode in Hin.
        apply filter_In in Hin as [Hin Htype].
        exists o, definition, i. split; [by left|]. split; [done|].
        split; [by destruct (definition_type definition), (operation o)|].
        split; [done|].
        intros j Hj. apply in_or_app. left. by apply Hincl.
      * destruct (Hall f Hf) as (o' & definition & i & Hin & Hd & Htype & Hrun & Hincl).
        exists o', definition, i. split; [by right|]. do 3 (split; [done|]).
        intros j Hj. apply in_or_app. right. apply in_or_app. left. by apply Hincl.
Qed.

(** X15.  One operation without a name is enough for the plugin to generate
    nothing at all: when a definition of the configuration has the type of
    such an operation, [generate_ast] raises, whatever the other operations
    of the documents are. *)
Theorem anonymous_operation_fails_the_plugin
    (definitions : list DefinitionNode) (o : OperationDefinitionNode) :
  parse_documents client_schema (glob_or_documents self_config config)
  = Documents definitions ->
  In o (operation_definitions definitions) ->
  op_name o = None ->
  0 < matching self_config o ->
  exists e, generate_ast self_config client_schema config registry = Raise e.
Proof.
  intros Hparse Hin Hname Hmatching.
  unfold generate_ast. rewrite Hparse.
  apply for_extend_raise with (x := o); [done|].
  unfold matching in Hmatching. fold (get_definitions_for_onode o self_config) in Hmatching.
  destruct (get_definitions_for_onode o self_config) as [|definition ds] eqn:Hds;
    [simpl in Hmatching; lia|].
  apply for_extend_raise with (x := definition); [by left|].
  by apply generate_operation_func_anonymous.
Qed.
End PluginFacts.

Lemma one_function_per_operation_and_definition_witness :
  exists tree imports,
    generate_ast Example.plugin_config Example.schema Example.config Example.registry
    = Ok (tree, imports)
    /\ length tree = 2.
Proof.
  pose proof (one_function_per_operation_and_definition Example.plugin_config
                Example.schema Example.config Example.registry) as Hrun.
  vm_compute in Hrun.
  destruct (Hrun _ _ eq_refl) as [Hlength _].
  eexists _, _. split; [reflexivity|exact Hlength].
Defined.

Lemma anonymous_operation_fails_the_plugin_witness :
  exists e,
    @generate_ast Model.collaborators Example.anonymous_environment Example.plugin_config
      Example.schema Example.config Example.registry = Raise e.
Proof.
  apply (@anonymous_operation_fails_the_plugin Model.collaborators
           Example.anonymous_environment Example.plugin_config Example.schema
           Example.config Example.registry
           [OperationDefinition Example.GetPet; OperationDefinition Example.Anonymous]
           Example.Anonymous).
  - reflexivity.
  - right. by left.
  - reflexivity.
  - unfold matching. simpl. lia.
Defined.

End FuncsFacts.
